(** * e9tool: match evaluation, rule dispatch, plugin loading, memory-operand
      parsing and the reverse patch-emission walk

    A shallow embedding of the parts of [src/e9tool/e9tool.cpp] that decide
    how an instruction is matched against the rule set and how the matched
    locations are sent to the backend.

    Conventions.
    - C integers are [Z]; bit-fields are truncated explicitly.
    - [error(...)] terminates the process: it is the outcome [Fatal].
    - Dereferencing a null pointer, reading an inactive union member or the
      [end()] iterator is the outcome [Crash].
    - Services of libc, the dynamic loader and the disassembler are functions
      of an explicit environment. *)

From Stdlib Require Import ZArith List Bool Lia Ascii String.
From stdpp Require Import base list strings gmap.

Local Open Scope Z_scope.

(* ===================================================================== *)
(** ** Outcomes *)
(* ===================================================================== *)

Inductive Outcome (A : Type) : Type :=
| Ok (a : A)
| Fatal (msg : string)
| Crash.

Arguments Ok {A} a.
Arguments Fatal {A} msg.
Arguments Crash {A}.

Definition obind {A B : Type} (m : Outcome A) (k : A -> Outcome B) : Outcome B :=
  match m with
  | Ok a => k a
  | Fatal msg => Fatal msg
  | Crash => Crash
  end.

Notation "'let*' x ':=' m 'in' k" := (obind m (fun x => k))
  (at level 10, x pattern, m at level 100, k at level 200).

(** The conversion of a 64-bit unsigned value to [intptr_t] or [off_t]. *)
Definition to_int64 (z : Z) : Z := (z + 2 ^ 63) mod 2 ^ 64 - 2 ^ 63.

(* ===================================================================== *)
(** ** Registers, operand types, access masks *)
(* ===================================================================== *)

(** The [Register] enumeration is declared in a header that is not part of
    the sources at hand.  The enumerators below are the ones [e9tool.cpp]
    names; [REGISTER_OTHER n] stands for any further enumerator. *)
Inductive Register : Type :=
| REGISTER_NONE
| REGISTER_RAX | REGISTER_RCX | REGISTER_RDX | REGISTER_RBX
| REGISTER_RSP | REGISTER_RBP | REGISTER_RSI | REGISTER_RDI
| REGISTER_R8 | REGISTER_R9 | REGISTER_R10 | REGISTER_R11
| REGISTER_R12 | REGISTER_R13 | REGISTER_R14 | REGISTER_R15
| REGISTER_RIP
| REGISTER_EAX | REGISTER_ECX | REGISTER_EDX | REGISTER_EBX
| REGISTER_ESP | REGISTER_EBP | REGISTER_ESI | REGISTER_EDI
| REGISTER_R8D | REGISTER_R9D | REGISTER_R10D | REGISTER_R11D
| REGISTER_R12D | REGISTER_R13D | REGISTER_R14D | REGISTER_R15D
| REGISTER_ES | REGISTER_CS | REGISTER_SS
| REGISTER_DS | REGISTER_FS | REGISTER_GS
| REGISTER_OTHER (n : nat).

Definition Register_eq_dec (a b : Register) : {a = b} + {a <> b}.
Proof. decide equality. apply Nat.eq_dec. Defined.

Definition Register_eqb (a b : Register) : bool :=
  if Register_eq_dec a b then true else false.

(** [enum OpType { OP_TYPE_IMM = 1, OP_TYPE_REG, OP_TYPE_MEM }] *)
Inductive OpType : Type := OP_TYPE_IMM | OP_TYPE_REG | OP_TYPE_MEM.

Definition OpType_value (t : OpType) : Z :=
  match t with
  | OP_TYPE_IMM => 1
  | OP_TYPE_REG => 2
  | OP_TYPE_MEM => 3
  end.

(** [typedef unsigned Access] with its two flags. *)
Definition Access := Z.
Definition ACCESS_READ : Access := 1.
Definition ACCESS_WRITE : Access := 2.

(* ===================================================================== *)
(** ** Match kinds, fields and comparison operators *)
(* ===================================================================== *)

Inductive MatchKind : Type :=
| MATCH_INVALID | MATCH_TRUE | MATCH_FALSE | MATCH_PLUGIN | MATCH_ASSEMBLY
| MATCH_ADDRESS | MATCH_CALL | MATCH_JUMP | MATCH_MNEMONIC | MATCH_OFFSET
| MATCH_RANDOM | MATCH_RETURN | MATCH_SIZE
| MATCH_OP | MATCH_SRC | MATCH_DST | MATCH_IMM | MATCH_REG | MATCH_MEM
| MATCH_REGS | MATCH_READS | MATCH_WRITES.

Inductive MatchField : Type :=
| MATCH_FIELD_NONE | MATCH_FIELD_TYPE | MATCH_FIELD_ACCESS | MATCH_FIELD_SIZE
| MATCH_FIELD_SEG | MATCH_FIELD_DISPL | MATCH_FIELD_BASE | MATCH_FIELD_INDEX
| MATCH_FIELD_SCALE.

Inductive MatchCmp : Type :=
| MATCH_CMP_INVALID | MATCH_CMP_DEFINED | MATCH_CMP_EQ_ZERO
| MATCH_CMP_NEQ_ZERO | MATCH_CMP_EQ | MATCH_CMP_NEQ | MATCH_CMP_LT
| MATCH_CMP_LEQ | MATCH_CMP_GT | MATCH_CMP_GEQ | MATCH_CMP_IN.

(* ===================================================================== *)
(** ** Match values *)
(* ===================================================================== *)

(** [typedef unsigned MatchType] and its tags. *)
Definition MatchType := Z.
Definition MATCH_TYPE_UNDEFINED : MatchType := 0x00.
Definition MATCH_TYPE_NIL : MatchType := 0x01.
Definition MATCH_TYPE_INTEGER : MatchType := 0x02.
Definition MATCH_TYPE_OPERAND : MatchType := 0x04.
Definition MATCH_TYPE_ACCESS : MatchType := 0x08.
Definition MATCH_TYPE_REGISTER : MatchType := 0x10.
Definition MATCH_TYPE_MEMORY : MatchType := 0x20.
Definition MATCH_TYPE_STRING : MatchType := 0x40.

(** [struct MatchValue]: the type tag and the union member it selects.  A
    tag without a member ([undefined], [nil], [memory], [string]) carries no
    payload that any code path reads. *)
Inductive MatchValue : Type :=
| VUndefined
| VNil
| VInteger (i : Z)
| VOperand (op : OpType)
| VAccess (access : Access)
| VRegister (reg : Register)
| VMemory
| VString.

Definition MatchValue_type (v : MatchValue) : MatchType :=
  match v with
  | VUndefined => MATCH_TYPE_UNDEFINED
  | VNil => MATCH_TYPE_NIL
  | VInteger _ => MATCH_TYPE_INTEGER
  | VOperand _ => MATCH_TYPE_OPERAND
  | VAccess _ => MATCH_TYPE_ACCESS
  | VRegister _ => MATCH_TYPE_REGISTER
  | VMemory => MATCH_TYPE_MEMORY
  | VString => MATCH_TYPE_STRING
  end.

(** The three-way test [value.f < f ? 1 : (value.f > f ? -1 : 0)]. *)
Definition three_way (mine theirs : Z) : Z :=
  if theirs <? mine then 1 else if theirs >? mine then -1 else 0.

Section Compare.

(** Numeric value of a [Register] enumerator (from the missing header). *)
Variable Register_value : Register -> Z.

(** [MatchValue::compare] *)
Definition compare (self value : MatchValue) : Z :=
  if MatchValue_type value <? MatchValue_type self then 1
  else if MatchValue_type value >? MatchValue_type self then -1
  else
    match self, value with
    | VInteger i, VInteger vi => three_way i vi
    | VOperand op, VOperand vop =>
        three_way (OpType_value op) (OpType_value vop)
    | VAccess a, VAccess va => three_way a va
    | VRegister r, VRegister vr =>
        three_way (Register_value r) (Register_value vr)
    | _, _ => 0
    end.

(** [operator==], [operator<], [operator<=], [operator>], [operator>=] *)
Definition MatchValue_eq (a b : MatchValue) : bool := compare a b =? 0.
Definition MatchValue_lt (a b : MatchValue) : bool := compare a b <? 0.
Definition MatchValue_le (a b : MatchValue) : bool := compare a b <=? 0.
Definition MatchValue_gt (a b : MatchValue) : bool := compare a b >? 0.
Definition MatchValue_ge (a b : MatchValue) : bool := compare a b >=? 0.

End Compare.

(* ===================================================================== *)
(** ** The value index of a test *)
(* ===================================================================== *)

(** [const Record *]: [None] is [nullptr], [Some n] the n-th record of the
    parsed CSV data. *)
Definition RecordPtr := option nat.

Definition RecordPtr_eqb (a b : RecordPtr) : bool :=
  match a, b with
  | None, None => true
  | Some m, Some n => Nat.eqb m n
  | _, _ => false
  end.

(** Modelled from the spec: [Index<MatchValue>] is declared in
    [e9csv.cpp], which is missing; a test's payload is "an ordered set of
    [MatchValue] (optionally annotated with a bound CSV record)", and the
    code uses it as an ordered map ([insert], [find], [size], [begin],
    [rbegin], [->first], [->second]).  The entries are kept in ascending
    key order under [operator<]. *)
Definition Index := list (MatchValue * RecordPtr).

Section IndexOps.

Variable Register_value : Register -> Z.

Local Abbreviation lt := (MatchValue_lt Register_value).

(** [find]: the first entry whose key is not below [x], if [x] is not below
    it either. *)
Fixpoint Index_find (idx : Index) (x : MatchValue) : option (MatchValue * RecordPtr) :=
  match idx with
  | [] => None
  | (k, r) :: rest =>
      if lt k x then Index_find rest x
      else if lt x k then None
      else Some (k, r)
  end.

(** [insert]: an entry with an equivalent key is left as it is. *)
Fixpoint Index_insert (idx : Index) (e : MatchValue * RecordPtr) : Index :=
  match idx with
  | [] => [e]
  | (k, r) :: rest =>
      if lt k (fst e) then (k, r) :: Index_insert rest e
      else if lt (fst e) k then e :: (k, r) :: rest
      else (k, r) :: rest
  end.

Definition Index_size (idx : Index) : Z := Z.of_nat (length idx).

(** [begin()] and [rbegin()]; [None] is the past-the-end iterator. *)
Definition Index_begin (idx : Index) : option (MatchValue * RecordPtr) :=
  head idx.

Definition Index_rbegin (idx : Index) : option (MatchValue * RecordPtr) :=
  last idx.

(** The payload [compare] reads for a value: the active union member,
    nothing ([0]) for a tag without one. *)
Definition MatchValue_payload (v : MatchValue) : Z :=
  match v with
  | VInteger i => i
  | VOperand op => OpType_value op
  | VAccess a => a
  | VRegister r => Register_value r
  | _ => 0
  end.

(** The order of the specification: type tag first, then payload. *)
Definition rank_lt (a b : MatchValue) : Prop :=
  MatchValue_type a < MatchValue_type b
  \/ (MatchValue_type a = MatchValue_type b
      /\ MatchValue_payload a < MatchValue_payload b).

(** The same order, not strict. *)
Definition rank_le (a b : MatchValue) : Prop :=
  MatchValue_type a < MatchValue_type b
  \/ (MatchValue_type a = MatchValue_type b
      /\ MatchValue_payload a <= MatchValue_payload b).

(** Maximum and minimum of a set of values under that order. *)
Definition is_maximum (m : MatchValue) (keys : list MatchValue) : Prop :=
  In m keys /\ forall k, In k keys -> ~ rank_lt m k.

Definition is_minimum (m : MatchValue) (keys : list MatchValue) : Prop :=
  In m keys /\ forall k, In k keys -> ~ rank_lt k m.

(** Membership of a value in a set of values, by [operator==]. *)
Definition member (x : MatchValue) (keys : list MatchValue) : bool :=
  existsb (MatchValue_eq Register_value x) keys.

(** The representation invariant of the ordered map. *)
Fixpoint Index_valid (idx : Index) : bool :=
  match idx with
  | [] => true
  | (k, _) :: rest =>
      match rest with
      | [] => true
      | (k', _) :: _ => lt k k' && Index_valid rest
      end
  end.

Definition Index_keys (idx : Index) : list MatchValue := map fst idx.

End IndexOps.

(* ===================================================================== *)
(** ** Disassembled instructions (the fields the tool reads) *)
(* ===================================================================== *)

Definition x86_reg := Z.
Definition X86_REG_INVALID : x86_reg := 0.

Inductive x86_op_type : Type :=
| X86_OP_INVALID | X86_OP_REG | X86_OP_IMM | X86_OP_MEM.

Definition x86_op_type_eqb (a b : x86_op_type) : bool :=
  match a, b with
  | X86_OP_INVALID, X86_OP_INVALID | X86_OP_REG, X86_OP_REG
  | X86_OP_IMM, X86_OP_IMM | X86_OP_MEM, X86_OP_MEM => true
  | _, _ => false
  end.

Definition CS_AC_READ : Z := 1.
Definition CS_AC_WRITE : Z := 2.

Definition CS_GRP_JUMP : Z := 1.
Definition CS_GRP_CALL : Z := 2.
Definition CS_GRP_RET : Z := 3.

(** Instruction identifiers: the two the tool tests for, and the rest. *)
Inductive x86_insn : Type :=
| X86_INS_LEA | X86_INS_NOP | X86_INS_OTHER (n : nat).

Record x86_op_mem : Type := {
  mem_segment : x86_reg;
  mem_base : x86_reg;
  mem_index : x86_reg;
  mem_scale : Z;
  mem_disp : Z
}.

Record cs_x86_op : Type := {
  op_type : x86_op_type;
  op_reg : x86_reg;
  op_imm : Z;
  op_mem : x86_op_mem;
  op_size : Z;
  op_access : Z
}.

Record cs_insn : Type := {
  insn_id : x86_insn;
  insn_address : Z;
  insn_size : Z;
  insn_mnemonic : string;
  insn_op_str : string;
  insn_groups : list Z;
  insn_operands : list cs_x86_op
}.

(* ===================================================================== *)
(** ** Plugins, tests, expressions, actions *)
(* ===================================================================== *)

(** [struct Plugin]; a function pointer is [None] when null. *)
Record Plugin : Type := {
  plugin_filename : string;
  plugin_handle : Z;
  plugin_context : Z;
  plugin_result : Z;
  initFunc : option Z;
  instrFunc : option Z;
  matchFunc : option Z;
  patchFunc : option Z;
  finiFunc : option Z
}.

(** The registry [plugins], keyed by canonical path.  A [Plugin *] held by a
    test or an action is the key of the record it points to. *)
Abbreviation Plugins := (gmap string Plugin).

(** The anonymous union of [struct MatchTest]. *)
Inductive TestData : Type :=
| DataNull
| DataRegex (pattern : string)
| DataValues (values : Index)
| DataRegs (regs : list Register).

Record MatchTest : Type := {
  test_match : MatchKind;
  test_idx : Z;
  test_field : MatchField;
  test_cmp : MatchCmp;
  test_basename : option string;
  test_plugin : option string;
  test_data : TestData
}.

(** [struct MatchExpr]; [ExprNull] is the null pointer. *)
Inductive MatchExpr : Type :=
| ExprNull
| ExprNot (arg1 : MatchExpr)
| ExprAnd (arg1 arg2 : MatchExpr)
| ExprOr (arg1 arg2 : MatchExpr)
| ExprTest (test : MatchTest).

Inductive ActionKind : Type :=
| ACTION_INVALID | ACTION_CALL | ACTION_EXIT | ACTION_PASSTHRU
| ACTION_PLUGIN | ACTION_PRINT | ACTION_TRAP.

(** [struct Action], without the call-trampoline data. *)
Record Action : Type := {
  action_string : string;
  action_match : MatchExpr;
  action_kind : ActionKind;
  action_name : string;
  action_plugin : option string;
  action_context : Z
}.

(* ===================================================================== *)
(** ** The environment of the evaluator *)
(* ===================================================================== *)

(** What the evaluator obtains from outside [e9tool.cpp]. *)
Class Platform : Type := {
  (** numeric value of a [Register] enumerator *)
  Register_value : Register -> Z;
  (** [getRegister]: the tool's register for a disassembler register *)
  getRegister : x86_reg -> Register;
  (** [cs_regs_access]: the read and the written registers, [None] on error *)
  cs_regs_access : cs_insn -> option (list x86_reg * list x86_reg);
  (** the value returned by the n-th call of [rand()] after
      [srand(0xe9e9e9e9)] *)
  rand_value : nat -> Z;
  (** [std::regex_match] of a subject against a compiled pattern *)
  regex_match : string -> string -> bool;
  (** [BUFSIZ] *)
  BUFSIZ : Z
}.

(** The state of the pseudo-random generator: the number of draws so far. *)
Definition RandState := nat.

Section Evaluator.

Context {platform : Platform}.

(** [rand()] *)
Definition rand (st : RandState) : Z * RandState :=
  (rand_value st, S st).

(* --------------------------------------------------------------------- *)
(** *** Value extraction *)

(** [makeMatchString] *)
Definition makeMatchString (match_ : MatchKind) (I : cs_insn) (buf_size : Z)
  : Outcome string :=
  match match_ with
  | MATCH_ASSEMBLY =>
      if String.eqb (insn_op_str I) EmptyString then Ok (insn_mnemonic I)
      else
        let str := (insn_mnemonic I +:+ " " +:+ insn_op_str I)%string in
        let r := Z.of_nat (String.length str) in
        if (r <? 0) || (r >=? buf_size)
        then Fatal "failed to create assembly string"
        else Ok str
  | MATCH_MNEMONIC => Ok (insn_mnemonic I)
  | _ => Ok EmptyString
  end.

(** The operand filter shared by [getOperand] and [getNumOperands]. *)
Definition operand_selected (op : cs_x86_op) (type : x86_op_type) (access : Z)
  : bool :=
  (match type with
   | X86_OP_INVALID => true
   | _ => x86_op_type_eqb (op_type op) type
   end)
  && (negb (Z.land (op_access op) access =? 0)
      || (x86_op_type_eqb (op_type op) X86_OP_IMM
          && negb (Z.land access CS_AC_READ =? 0))).

(** [getOperand]: the loop over [x86->operands], [None] is [nullptr]. *)
Fixpoint getOperand_loop (ops : list cs_x86_op) (idx : Z)
    (type : x86_op_type) (access : Z) : option cs_x86_op :=
  match ops with
  | [] => None
  | op :: rest =>
      if operand_selected op type access
      then if idx =? 0 then Some op
           else getOperand_loop rest (idx - 1) type access
      else getOperand_loop rest idx type access
  end.

Definition getOperand (I : cs_insn) (idx : Z) (type : x86_op_type)
    (access : Z) : option cs_x86_op :=
  getOperand_loop (insn_operands I) idx type access.

(** [getNumOperands] *)
Definition getNumOperands (I : cs_insn) (type : x86_op_type) (access : Z) : Z :=
  fold_left
    (fun n op => if operand_selected op type access then n + 1 else n)
    (insn_operands I) 0.

(** The loop [for (i = 0; !found && i < groups_count; i++)]. *)
Definition has_group (I : cs_insn) (grp : Z) : bool :=
  existsb (fun g => g =? grp) (insn_groups I).

Definition bool_to_Z (b : bool) : Z := if b then 1 else 0.

(** A sub-register of a memory operand: [nil] when invalid. *)
Definition register_or_nil (r : x86_reg) : MatchValue :=
  if r =? X86_REG_INVALID then VNil else VRegister (getRegister r).

(** The [else] branch of [makeMatchValue] for [op[idx]] and its fields. *)
Definition operand_value (I : cs_insn) (op : cs_x86_op) (field : MatchField)
  : MatchValue :=
  match field with
  | MATCH_FIELD_NONE =>
      match op_type op with
      | X86_OP_IMM => VInteger (op_imm op)
      | X86_OP_REG => VRegister (getRegister (op_reg op))
      | X86_OP_MEM => VMemory
      | X86_OP_INVALID => VUndefined
      end
  | MATCH_FIELD_SIZE => VInteger (op_size op)
  | MATCH_FIELD_TYPE =>
      match op_type op with
      | X86_OP_IMM => VOperand OP_TYPE_IMM
      | X86_OP_REG => VOperand OP_TYPE_REG
      | X86_OP_MEM => VOperand OP_TYPE_MEM
      | X86_OP_INVALID => VUndefined
      end
  | MATCH_FIELD_ACCESS =>
      if x86_op_type_eqb (op_type op) X86_OP_IMM then VAccess ACCESS_READ
      else
        let access := 0 in
        let access :=
          if negb (Z.land (op_access op) CS_AC_READ =? 0)
          then Z.lor access ACCESS_READ else access in
        let access :=
          if negb (Z.land (op_access op) CS_AC_WRITE =? 0)
          then Z.lor access ACCESS_WRITE else access in
        let access :=
          if x86_op_type_eqb (op_type op) X86_OP_MEM
             && match insn_id I with
                | X86_INS_LEA | X86_INS_NOP => true
                | X86_INS_OTHER _ => false
                end
          then 0 else access in
        VAccess access
  | MATCH_FIELD_SEG =>
      if negb (x86_op_type_eqb (op_type op) X86_OP_MEM) then VUndefined
      else register_or_nil (mem_segment (op_mem op))
  | MATCH_FIELD_DISPL =>
      if negb (x86_op_type_eqb (op_type op) X86_OP_MEM) then VUndefined
      else VInteger (mem_disp (op_mem op))
  | MATCH_FIELD_BASE =>
      if negb (x86_op_type_eqb (op_type op) X86_OP_MEM) then VUndefined
      else register_or_nil (mem_base (op_mem op))
  | MATCH_FIELD_INDEX =>
      if negb (x86_op_type_eqb (op_type op) X86_OP_MEM) then VUndefined
      else register_or_nil (mem_index (op_mem op))
  | MATCH_FIELD_SCALE =>
      if negb (x86_op_type_eqb (op_type op) X86_OP_MEM) then VUndefined
      else VInteger (mem_scale (op_mem op))
  end.

(** [makeMatchValue]; the generator state is threaded for [MATCH_RANDOM]. *)
Definition makeMatchValue (match_ : MatchKind) (idx : Z) (field : MatchField)
    (I : cs_insn) (offset : Z) (plugin_val : Z) (st : RandState)
  : MatchValue * RandState :=
  let type :=
    match match_ with
    | MATCH_IMM => X86_OP_IMM
    | MATCH_REG => X86_OP_REG
    | MATCH_MEM => X86_OP_MEM
    | _ => X86_OP_INVALID
    end in
  let access :=
    match match_ with
    | MATCH_SRC => CS_AC_READ
    | MATCH_DST => CS_AC_WRITE
    | _ => Z.lor CS_AC_READ CS_AC_WRITE
    end in
  match match_ with
  | MATCH_TRUE => (VInteger 1, st)
  | MATCH_FALSE => (VInteger 0, st)
  | MATCH_ADDRESS => (VInteger (to_int64 (insn_address I)), st)
  | MATCH_CALL => (VInteger (bool_to_Z (has_group I CS_GRP_CALL)), st)
  | MATCH_JUMP => (VInteger (bool_to_Z (has_group I CS_GRP_JUMP)), st)
  | MATCH_OP | MATCH_SRC | MATCH_DST | MATCH_IMM | MATCH_REG | MATCH_MEM =>
      if idx <? 0 then
        match field with
        | MATCH_FIELD_SIZE => (VInteger (getNumOperands I type access), st)
        | _ => (VUndefined, st)
        end
      else
        match getOperand I idx type access with
        | None => (VUndefined, st)
        | Some op => (operand_value I op field, st)
        end
  | MATCH_OFFSET => (VInteger offset, st)
  | MATCH_PLUGIN => (VInteger plugin_val, st)
  | MATCH_RANDOM => let (r, st') := rand st in (VInteger r, st')
  | MATCH_RETURN => (VInteger (bool_to_Z (has_group I CS_GRP_RET)), st)
  | MATCH_SIZE => (VInteger (insn_size I), st)
  | _ => (VUndefined, st)
  end.

(* --------------------------------------------------------------------- *)
(** *** Evaluation of one test *)

(** The attribute kinds of the third case list of [matchEval]: the ones
    evaluated through [makeMatchValue]. *)
Definition value_kind (k : MatchKind) : bool :=
  match k with
  | MATCH_TRUE | MATCH_FALSE | MATCH_ADDRESS | MATCH_CALL | MATCH_JUMP
  | MATCH_OFFSET | MATCH_OP | MATCH_SRC | MATCH_DST | MATCH_IMM
  | MATCH_REG | MATCH_MEM | MATCH_PLUGIN | MATCH_RANDOM | MATCH_RETURN
  | MATCH_SIZE => true
  | _ => false
  end.

(** Reading a member of the union of [MatchTest]. *)
Definition test_regex (test : MatchTest) : Outcome string :=
  match test_data test with DataRegex re => Ok re | _ => Crash end.

Definition test_values (test : MatchTest) : Outcome Index :=
  match test_data test with DataValues v => Ok v | _ => Crash end.

Definition test_regs (test : MatchTest) : Outcome (list Register) :=
  match test_data test with DataRegs s => Ok s | _ => Crash end.

(** [test->plugin->result] *)
Definition test_plugin_result (plugins : Plugins) (test : MatchTest)
  : Outcome Z :=
  match test_plugin test with
  | None => Crash
  | Some key =>
      match plugins !! key with
      | None => Crash
      | Some p => Ok (plugin_result p)
      end
  end.

(** The last argument of the call of [makeMatchValue]:
    [test->match == MATCH_PLUGIN ? test->plugin->result : 0]. *)
Definition plugin_value (plugins : Plugins) (test : MatchTest) : Outcome Z :=
  match test_match test with
  | MATCH_PLUGIN => test_plugin_result plugins test
  | _ => Ok 0
  end.

(** One of the two register loops: stops at the first register found in
    [test->regs]; the set is only read inside the loop body. *)
Fixpoint regs_loop (test : MatchTest) (rs : list x86_reg) : Outcome bool :=
  match rs with
  | [] => Ok false
  | r :: rest =>
      let* regs := test_regs test in
      if existsb (Register_eqb (getRegister r)) regs then Ok true
      else regs_loop test rest
  end.

Definition is_undefined (x : MatchValue) : bool :=
  match x with VUndefined => true | _ => false end.

Definition cmp_needs_values (cmp : MatchCmp) : bool :=
  match cmp with
  | MATCH_CMP_EQ_ZERO | MATCH_CMP_NEQ_ZERO | MATCH_CMP_DEFINED => false
  | _ => true
  end.

(** The inner [switch (test->cmp)]: [Some pass], or [None] for the
    [default: return false]. *)
Definition compare_test (test : MatchTest) (x : MatchValue)
  : Outcome (option bool) :=
  match test_cmp test with
  | MATCH_CMP_DEFINED => Ok (Some true)
  | MATCH_CMP_EQ_ZERO =>
      Ok (Some match x with VInteger i => i =? 0 | _ => false end)
  | MATCH_CMP_NEQ_ZERO =>
      Ok (Some match x with VInteger i => negb (i =? 0) | _ => false end)
  | MATCH_CMP_EQ =>
      let* values := test_values test in
      Ok (Some (bool_decide (is_Some (Index_find Register_value values x))))
  | MATCH_CMP_NEQ =>
      let* values := test_values test in
      Ok (Some (if Index_size values =? 1
                then negb (bool_decide
                             (is_Some (Index_find Register_value values x)))
                else true))
  | MATCH_CMP_LT =>
      let* values := test_values test in
      match Index_rbegin values with
      | None => Crash
      | Some (k, _) => Ok (Some (MatchValue_lt Register_value x k))
      end
  | MATCH_CMP_LEQ =>
      let* values := test_values test in
      match Index_rbegin values with
      | None => Crash
      | Some (k, _) => Ok (Some (MatchValue_le Register_value x k))
      end
  | MATCH_CMP_GT =>
      let* values := test_values test in
      match Index_begin values with
      | None => Crash
      | Some (k, _) => Ok (Some (MatchValue_gt Register_value x k))
      end
  | MATCH_CMP_GEQ =>
      let* values := test_values test in
      match Index_begin values with
      | None => Crash
      | Some (k, _) => Ok (Some (MatchValue_ge Register_value x k))
      end
  | _ => Ok None
  end.

(** [strcmp(test->basename, basename) == 0] *)
Definition same_basename (test : MatchTest) (basename : string)
  : Outcome bool :=
  match test_basename test with
  | None => Crash
  | Some b => Ok (String.eqb b basename)
  end.

(** The record binding at the end of the value case.  [record] is the
    content of the caller's slot, [None] when the [record] argument is
    null. *)
Definition bind_record (test : MatchTest) (x : MatchValue) (pass : bool)
    (basename : option string) (record : option RecordPtr)
  : Outcome (option RecordPtr) :=
  if negb pass then Ok record
  else
    match basename, record with
    | Some bn, Some slot =>
        match test_cmp test with
        | MATCH_CMP_EQ =>
            let* same := same_basename test bn in
            if same then
              let* values := test_values test in
              match Index_find Register_value values x with
              | Some (_, second) =>
                  if bool_decide (is_Some slot)
                     && negb (RecordPtr_eqb second slot)
                  then Fatal "failed to lookup value from file; matching is ambiguous"
                  else Ok (Some second)
              | None => Ok record
              end
            else Ok record
        | _ => Ok record
        end
    | _, _ => Ok record
    end.

(** The result of an evaluation: the verdict, the content of the record
    slot and the generator state. *)
Definition EvalResult : Type := bool * option RecordPtr * RandState.

(** The case of the attributes evaluated through [makeMatchValue]. *)
Definition matchValueTest (plugins : Plugins) (test : MatchTest)
    (I : cs_insn) (offset : Z) (basename : option string)
    (record : option RecordPtr) (st : RandState) : Outcome EvalResult :=
  let* empty :=
    if cmp_needs_values (test_cmp test)
    then let* values := test_values test in
         Ok (Index_size values =? 0)
    else Ok false in
  if empty then Ok (false, record, st)
  else
    let* plugin_val := plugin_value plugins test in
    let (x, st') :=
      makeMatchValue (test_match test) (test_idx test) (test_field test)
        I offset plugin_val st in
    let* verdict := compare_test test x in
    match verdict with
    | None => Ok (false, record, st')
    | Some pass =>
        let pass := if is_undefined x then false else pass in
        let* record' := bind_record test x pass basename record in
        Ok (pass, record', st')
    end.

(** The second [switch] of [matchEval]: the evaluation of a test. *)
Definition matchTest (plugins : Plugins) (test : MatchTest) (I : cs_insn)
    (offset : Z) (basename : option string) (record : option RecordPtr)
    (st : RandState) : Outcome EvalResult :=
  match test_match test with
  | MATCH_ASSEMBLY | MATCH_MNEMONIC =>
      match test_cmp test with
      | MATCH_CMP_DEFINED => Ok (true, record, st)
      | cmp =>
          let* str := makeMatchString (test_match test) I (BUFSIZ - 1) in
          let* re := test_regex test in
          let pass := regex_match re str in
          let pass :=
            match cmp with MATCH_CMP_NEQ => negb pass | _ => pass end in
          Ok (pass, record, st)
      end
  | MATCH_READS | MATCH_WRITES | MATCH_REGS =>
      match test_cmp test with
      | MATCH_CMP_DEFINED => Ok (true, record, st)
      | _ =>
          match cs_regs_access I with
          | None => Fatal "failed to get registers for instruction"
          | Some (reads, writes) =>
              let* pass :=
                match test_match test with
                | MATCH_WRITES => Ok false
                | _ => regs_loop test reads
                end in
              let* pass :=
                if pass then Ok true
                else match test_match test with
                     | MATCH_READS => Ok false
                     | _ => regs_loop test writes
                     end in
              Ok (pass, record, st)
          end
      end
  | MATCH_INVALID => Ok (false, record, st)
  | _ => matchValueTest plugins test I offset basename record st
  end.

(* --------------------------------------------------------------------- *)
(** *** Expressions, actions, dispatch *)

(** [matchEval] *)
Fixpoint matchEval (plugins : Plugins) (expr : MatchExpr) (I : cs_insn)
    (offset : Z) (basename : option string) (record : option RecordPtr)
    (st : RandState) : Outcome EvalResult :=
  match expr with
  | ExprNull => Ok (true, record, st)
  | ExprNot arg1 =>
      let* (pass, _, st') := matchEval plugins arg1 I offset None None st in
      Ok (negb pass, record, st')
  | ExprAnd arg1 arg2 =>
      let* (pass, record', st') :=
        matchEval plugins arg1 I offset basename record st in
      if negb pass then Ok (false, record', st')
      else matchEval plugins arg2 I offset basename record' st'
  | ExprOr arg1 arg2 =>
      let* (pass, record', st') :=
        matchEval plugins arg1 I offset basename record st in
      if pass then Ok (true, record', st')
      else matchEval plugins arg2 I offset basename record' st'
  | ExprTest test => matchTest plugins test I offset basename record st
  end.

(** [matchAction]; the call leaves [basename] and [record] at their default,
    the null pointer. *)
Definition matchAction (plugins : Plugins) (action : Action) (I : cs_insn)
    (offset : Z) (st : RandState) : Outcome (bool * RandState) :=
  let* (pass, _, st') :=
    matchEval plugins (action_match action) I offset None None st in
  Ok (pass, st').

(** The loop of [match], with its counter [idx]. *)
Fixpoint match_loop (plugins : Plugins) (actions : list Action) (I : cs_insn)
    (offset : Z) (idx : Z) (st : RandState) : Outcome (Z * RandState) :=
  match actions with
  | [] => Ok (-1, st)
  | action :: rest =>
      let* (pass, st') := matchAction plugins action I offset st in
      if pass then Ok (idx, st')
      else match_loop plugins rest I offset (idx + 1) st'
  end.

(** [match] (a reserved word here, hence the underscore). *)
Definition match_ (plugins : Plugins) (actions : list Action) (I : cs_insn)
    (offset : Z) (st : RandState) : Outcome (Z * RandState) :=
  match_loop plugins actions I offset 0 st.

End Evaluator.

(* ===================================================================== *)
(** ** Plugin loading *)
(* ===================================================================== *)

(** The services of libc and of the dynamic loader used by [openPlugin];
    [None] is a null result.  [strerror] is the text of [strerror(errno)]
    after [realpath] failed on a file name, [dlerror] the text of
    [dlerror()] after [dlopen] failed on a path. *)
Class Loader : Type := {
  realpath : string -> option string;
  dlopen : string -> option Z;
  dlsym : Z -> string -> option Z;
  strerror : string -> string;
  dlerror : string -> string
}.

(** A name as [error] prints it: between double quotes. *)
Definition quoted (name : string) : string :=
  String "034"%char (name +:+ String "034"%char EmptyString).

(** Modelled from the spec: [hasSuffix] is defined outside [e9tool.cpp];
    [openPlugin] uses it to "append [.so] if absent". *)
Definition hasSuffix (str suffix : string) : bool :=
  let n := String.length str in
  let m := String.length suffix in
  (m <=? n)%nat && String.eqb (String.substring (n - m) m str) suffix.

(** The two globals [openPlugin] updates. *)
Record PluginState : Type := {
  plugins : Plugins;
  option_notify : bool
}.

Section OpenPlugin.

Context {loader : Loader}.

(** [openPlugin]; the result is the plugin record the returned pointer
    designates. *)
Definition openPlugin (basename : string) (st : PluginState)
  : Outcome (Plugin * PluginState) :=
  let filename :=
    if negb (hasSuffix basename ".so") then (basename +:+ ".so")%string
    else basename in
  match realpath filename with
  | None =>
      Fatal ("failed to create path for plugin " +:+ quoted basename
             +:+ "; " +:+ strerror filename)
  | Some pathname =>
      match plugins st !! pathname with
      | Some plugin => Ok (plugin, st)
      | None =>
          match dlopen pathname with
          | None =>
              Fatal ("failed to load plugin " +:+ quoted pathname
                     +:+ ": " +:+ dlerror pathname)
          | Some handle =>
              let plugin :=
                {| plugin_filename := pathname;
                   plugin_handle := handle;
                   plugin_context := 0;
                   plugin_result := 0;
                   initFunc := dlsym handle "e9_plugin_init_v1";
                   instrFunc := dlsym handle "e9_plugin_instr_v1";
                   matchFunc := dlsym handle "e9_plugin_match_v1";
                   patchFunc := dlsym handle "e9_plugin_patch_v1";
                   finiFunc := dlsym handle "e9_plugin_fini_v1" |} in
              if bool_decide (initFunc plugin = None)
                 && bool_decide (instrFunc plugin = None)
                 && bool_decide (patchFunc plugin = None)
                 && bool_decide (finiFunc plugin = None)
              then
                Fatal ("failed to load plugin "
                       +:+ quoted (plugin_filename plugin)
                       +:+ "; the shared object does not export any plugin API functions")
              else
                Ok (plugin,
                    {| plugins := <[plugin_filename plugin := plugin]> (plugins st);
                       option_notify :=
                         option_notify st
                         || negb (bool_decide (instrFunc plugin = None)) |})
          end
      end
  end.

End OpenPlugin.

(** The five entry points of the plugin interface. *)
Definition plugin_api : list string :=
  [ "e9_plugin_init_v1"; "e9_plugin_instr_v1"; "e9_plugin_match_v1";
    "e9_plugin_patch_v1"; "e9_plugin_fini_v1" ]%string.

(* ===================================================================== *)
(** ** Memory-operand literals *)
(* ===================================================================== *)

(** Modelled from the spec: the lexer ([e9parser.cpp]) is missing.  A token
    is its kind together with the payload the lexer leaves in [parser.i],
    already read at the type the parser casts it to; the parser state is the
    list of tokens still to come and the mode label used in diagnostics. *)
Inductive Token : Type :=
| TOKEN_CHAR (c : Ascii.ascii)
| TOKEN_INTEGER (i : Z)
| TOKEN_REGISTER (r : Register)
| TOKEN_NIL (r : Register)
| TOKEN_MEM8 | TOKEN_MEM16 | TOKEN_MEM32 | TOKEN_MEM64
| TOKEN_END
| TOKEN_OTHER (n : nat).

Record Parser : Type := {
  parser_tokens : list Token;
  parser_mode : string
}.

Definition peekToken (parser : Parser) : Token :=
  match parser_tokens parser with
  | [] => TOKEN_END
  | t :: _ => t
  end.

Definition getToken (parser : Parser) : Token * Parser :=
  match parser_tokens parser with
  | [] => (TOKEN_END, parser)
  | t :: rest =>
      (t, {| parser_tokens := rest; parser_mode := parser_mode parser |})
  end.

Definition parse_error {A : Type} (parser : Parser) (what : string)
  : Outcome A :=
  Fatal ("failed to parse " +:+ parser_mode parser +:+ "; " +:+ what)%string.

Definition unexpectedToken {A : Type} (parser : Parser) : Outcome A :=
  parse_error parser "unexpected token".

Definition is_char (t : Token) (c : Ascii.ascii) : bool :=
  match t with
  | TOKEN_CHAR c' => Ascii.eqb c' c
  | _ => false
  end.

(** [expectToken] for a punctuation token *)
Definition expectChar (parser : Parser) (c : Ascii.ascii) : Outcome Parser :=
  let (t, parser') := getToken parser in
  if is_char t c then Ok parser' else unexpectedToken parser'.

(** [expectToken(TOKEN_INTEGER)], with the value left in [parser.i] *)
Definition expectInteger (parser : Parser) : Outcome (Z * Parser) :=
  let (t, parser') := getToken parser in
  match t with
  | TOKEN_INTEGER i => Ok (i, parser')
  | _ => unexpectedToken parser'
  end.

(** [struct MemOp] *)
Record MemOp : Type := {
  memop_seg : Register;
  memop_disp : Z;
  memop_base : Register;
  memop_index : Register;
  memop_scale : Z;
  memop_size : Z
}.

Definition INT32_MIN : Z := - 2 ^ 31.
Definition INT32_MAX : Z := 2 ^ 31 - 1.

(** Truncations [(int32_t)] and [(uint8_t)]. *)
Definition to_int32 (z : Z) : Z := (z + 2 ^ 31) mod 2 ^ 32 - 2 ^ 31.
Definition to_uint8 (z : Z) : Z := z mod 2 ^ 8.

Definition valid_seg (r : Register) : bool :=
  match r with
  | REGISTER_NONE
  | REGISTER_ES | REGISTER_CS | REGISTER_SS
  | REGISTER_DS | REGISTER_FS | REGISTER_GS => true
  | _ => false
  end.

Definition valid_base (r : Register) : bool :=
  match r with
  | REGISTER_NONE
  | REGISTER_RAX | REGISTER_RCX | REGISTER_RDX
  | REGISTER_RBX | REGISTER_RSP | REGISTER_RBP
  | REGISTER_RSI | REGISTER_RDI | REGISTER_R8
  | REGISTER_R9 | REGISTER_R10 | REGISTER_R11
  | REGISTER_R12 | REGISTER_R13 | REGISTER_R14
  | REGISTER_R15 | REGISTER_RIP
  | REGISTER_EAX | REGISTER_ECX | REGISTER_EDX
  | REGISTER_EBX | REGISTER_ESP | REGISTER_EBP
  | REGISTER_ESI | REGISTER_EDI | REGISTER_R8D
  | REGISTER_R9D | REGISTER_R10D | REGISTER_R11D
  | REGISTER_R12D | REGISTER_R13D | REGISTER_R14D
  | REGISTER_R15D => true
  | _ => false
  end.

Definition valid_index (r : Register) : bool :=
  match r with
  | REGISTER_NONE
  | REGISTER_RAX | REGISTER_RCX | REGISTER_RDX
  | REGISTER_RBX | REGISTER_RBP
  | REGISTER_RSI | REGISTER_RDI | REGISTER_R8
  | REGISTER_R9 | REGISTER_R10 | REGISTER_R11
  | REGISTER_R12 | REGISTER_R13 | REGISTER_R14
  | REGISTER_R15
  | REGISTER_EAX | REGISTER_ECX | REGISTER_EDX
  | REGISTER_EBX | REGISTER_EBP
  | REGISTER_ESI | REGISTER_EDI | REGISTER_R8D
  | REGISTER_R9D | REGISTER_R10D | REGISTER_R11D
  | REGISTER_R12D | REGISTER_R13D | REGISTER_R14D
  | REGISTER_R15D => true
  | _ => false
  end.

Definition valid_scale (scale64 : Z) : bool :=
  (scale64 =? 1) || (scale64 =? 2) || (scale64 =? 4) || (scale64 =? 8).

(** The label [memop_validate] of [parseMemOp] and what follows it.
    [memop] holds the fields assigned so far; its [scale] is still the
    initial one. *)
Definition memop_validate (parser : Parser) (memop : MemOp)
    (disp64 scale64 : Z) : Outcome (MemOp * Parser) :=
  let* parser := expectChar parser ">"%char in
  if (disp64 <? INT32_MIN) || (disp64 >? INT32_MAX)
  then parse_error parser "expected displacement within the int32 range"
  else if negb (valid_seg (memop_seg memop))
  then parse_error parser "invalid memory operand segment register"
  else if negb (valid_base (memop_base memop))
  then parse_error parser "invalid memory operand base register"
  else if negb (valid_index (memop_index memop))
  then parse_error parser "invalid memory operand index register"
  else if negb (valid_scale scale64)
  then parse_error parser "expected scale with value {1,2,4,8}"
  else if Register_eqb (memop_base memop) REGISTER_RIP
          && negb (Register_eqb (memop_index memop) REGISTER_NONE)
          && negb (memop_scale memop =? 1)
  then parse_error parser
         "invalid memory operand with %rip base register and non-empty index/scale"
  else
    Ok ({| memop_seg := memop_seg memop;
           memop_disp := to_int32 disp64;
           memop_base := memop_base memop;
           memop_index := memop_index memop;
           memop_scale := to_uint8 scale64;
           memop_size := memop_size memop |}, parser).

Definition set_seg (memop : MemOp) (r : Register) : MemOp :=
  {| memop_seg := r; memop_disp := memop_disp memop;
     memop_base := memop_base memop; memop_index := memop_index memop;
     memop_scale := memop_scale memop; memop_size := memop_size memop |}.

Definition set_base (memop : MemOp) (r : Register) : MemOp :=
  {| memop_seg := memop_seg memop; memop_disp := memop_disp memop;
     memop_base := r; memop_index := memop_index memop;
     memop_scale := memop_scale memop; memop_size := memop_size memop |}.

Definition set_index (memop : MemOp) (r : Register) : MemOp :=
  {| memop_seg := memop_seg memop; memop_disp := memop_disp memop;
     memop_base := memop_base memop; memop_index := r;
     memop_scale := memop_scale memop; memop_size := memop_size memop |}.

(** The tail of [parseMemOp] from [parser.expectToken(TOKEN_INTEGER)]. *)
Definition memop_scale_part (parser : Parser) (memop : MemOp) (disp64 : Z)
  : Outcome (MemOp * Parser) :=
  let* (scale64, parser) := expectInteger parser in
  let* parser := expectChar parser ")"%char in
  memop_validate parser memop disp64 scale64.

(** The second [switch (parser.getToken())]: the index register. *)
Definition memop_index_part (parser : Parser) (memop : MemOp) (disp64 : Z)
  : Outcome (MemOp * Parser) :=
  let (t, parser) := getToken parser in
  match t with
  | TOKEN_NIL r | TOKEN_REGISTER r =>
      let memop := set_index memop r in
      let (t, parser) := getToken parser in
      if is_char t ")"%char then memop_validate parser memop disp64 1
      else if is_char t ","%char then memop_scale_part parser memop disp64
      else unexpectedToken parser
  | _ =>
      if is_char t ","%char then memop_scale_part parser memop disp64
      else if is_char t ")"%char then memop_validate parser memop disp64 1
      else unexpectedToken parser
  end.

(** [parseMemOp] *)
Definition parseMemOp (parser : Parser) (t : Token)
  : Outcome (MemOp * Parser) :=
  let* size :=
    match t with
    | TOKEN_MEM8 | TOKEN_MEM16 | TOKEN_MEM32 | TOKEN_MEM64 => Ok 1
    | _ => unexpectedToken parser
    end in
  let memop :=
    {| memop_seg := REGISTER_NONE; memop_disp := 0;
       memop_base := REGISTER_NONE; memop_index := REGISTER_NONE;
       memop_scale := 1; memop_size := size |} in
  let* parser := expectChar parser "<"%char in
  let* (memop, parser) :=
    match peekToken parser with
    | TOKEN_REGISTER r =>
        let (_, parser) := getToken parser in
        let* parser := expectChar parser ":"%char in
        Ok (set_seg memop r, parser)
    | _ => Ok (memop, parser)
    end in
  let (disp64, parser) :=
    match peekToken parser with
    | TOKEN_INTEGER i => (i, snd (getToken parser))
    | _ => (0, parser)
    end in
  if negb (is_char (peekToken parser) "("%char)
  then memop_validate parser memop disp64 1
  else
    let (_, parser) := getToken parser in
    let (t, parser) := getToken parser in
    match t with
    | TOKEN_NIL r | TOKEN_REGISTER r =>
        let memop := set_base memop r in
        let (t, parser) := getToken parser in
        if is_char t ")"%char then memop_validate parser memop disp64 1
        else if is_char t ","%char then memop_index_part parser memop disp64
        else unexpectedToken parser
    | _ =>
        if is_char t ","%char then memop_index_part parser memop disp64
        else if is_char t ")"%char then memop_validate parser memop disp64 1
        else unexpectedToken parser
    end.

(* ===================================================================== *)
(** ** Locations and the reverse patch-emission walk *)
(* ===================================================================== *)

(** [struct Location]: the bit-fields [offset:48], [size:4], [emitted:1],
    [patch:1], [action:10]. *)
Record Location : Type := {
  loc_offset : Z;
  loc_size : Z;
  loc_emitted : bool;
  loc_patch : bool;
  loc_action : Z
}.

(** The constructor: each argument is truncated to its field. *)
Definition mkLocation (offset size : Z) (patch : bool) (action : Z)
  : Location :=
  {| loc_offset := offset mod 2 ^ 48;
     loc_size := size mod 2 ^ 4;
     loc_emitted := false;
     loc_patch := patch;
     loc_action := action mod 2 ^ 10 |}.

(** [loc.emitted = true] *)
Definition set_emitted (loc : Location) : Location :=
  {| loc_offset := loc_offset loc;
     loc_size := loc_size loc;
     loc_emitted := true;
     loc_patch := loc_patch loc;
     loc_action := loc_action loc |}.

Definition INT8_MAX : Z := 127.

(** The messages of the walk, as written to the backend.  The metadata of
    a patch message comes from [buildMetadata], which is not part of this
    file: it is represented by the patch [id] it is built for; the call of a
    plugin's patcher is recorded as a message of its own. *)
Inductive Message : Type :=
| MsgInstruction (addr size offset : Z)
| MsgPatch (name : string) (offset : Z) (id : Z)
| MsgPluginPatch (plugin : string) (offset : Z).

(** A message together with the index of the location whose reference was
    passed to the sender. *)
Definition Event : Type := nat * Message.

(** A step of the walk: what it wrote, and how it ended.  What was written
    stays written when the step ends in an error. *)
Definition Emit (A : Type) : Type := list Event * Outcome A.

Definition emit_ret {A : Type} (a : A) : Emit A := ([], Ok a).

Definition emit_bind {A B : Type} (m : Emit A) (k : A -> Emit B) : Emit B :=
  match m with
  | (w, Ok a) => let (w', r) := k a in (w ++ w', r)
  | (w, Fatal msg) => (w, Fatal msg)
  | (w, Crash) => (w, Crash)
  end.

Notation "'do*' x ':=' m 'in' k" := (emit_bind m (fun x => k))
  (at level 10, x pattern, m at level 100, k at level 200).

(** The address the tool computes for a location. *)
Definition loc_addr (text_addr : Z) (loc : Location) : Z :=
  to_int64 (text_addr + loc_offset loc).

(** The window test of [sendInstructionMessage]. *)
Definition out_of_window (text_addr addr : Z) (loc : Location) : bool :=
  Z.abs (loc_addr text_addr loc - addr) >? INT8_MAX + 2 + 15.

(** [sendInstructionMessage(out, loc, addr, text_addr, text_offset)]: the
    result, the location afterwards and the message written, if any. *)
Definition sendInstructionMessage (loc : Location)
    (addr text_addr text_offset : Z) : bool * Location * option Message :=
  if out_of_window text_addr addr loc then (false, loc, None)
  else if loc_emitted loc then (true, loc, None)
  else
    let loc' := set_emitted loc in
    let addr := to_int64 (text_addr + loc_offset loc') in
    let offset := to_int64 (text_offset + loc_offset loc') in
    let size := loc_size loc' in
    (true, loc', Some (MsgInstruction addr size offset)).

Section Walk.

Variables text_addr text_offset : Z.

(** The call on [locs[j]]. *)
Definition send_at (addr : Z) (j : nat) (locs : list Location)
  : Emit (bool * list Location) :=
  match locs !! j with
  | None => ([], Crash)
  | Some loc =>
      match sendInstructionMessage loc addr text_addr text_offset with
      | (r, loc', Some msg) => ([(j, msg)], Ok (r, <[j := loc']> locs))
      | (r, loc', None) => ([], Ok (r, <[j := loc']> locs))
      end
  end.

(** [for (ssize_t j = i; !done && j >= 0; j--)] *)
Fixpoint walk_down (addr : Z) (j : nat) (locs : list Location)
  : Emit (list Location) :=
  do* (r, locs') := send_at addr j locs in
  if r then
    match j with
    | O => emit_ret locs'
    | S j' => walk_down addr j' locs'
    end
  else emit_ret locs'.

(** [for (size_t j = i + 1; !done && j < count; j++)], with [n] the number
    of indices from [j] up to [count]. *)
Fixpoint walk_up (addr : Z) (n : nat) (j : nat) (locs : list Location)
  : Emit (list Location) :=
  match n with
  | O => emit_ret locs
  | S n' =>
      do* (r, locs') := send_at addr j locs in
      if r then walk_up addr n' (S j) locs'
      else emit_ret locs'
  end.

(** The two loops around the patch site [i]. *)
Definition send_window (addr : Z) (i : nat) (locs : list Location)
  : Emit (list Location) :=
  do* locs1 := walk_down addr i locs in
  walk_up addr (length locs1 - (i + 1)) (i + 1) locs1.

(** Re-disassembly of the instruction at a file offset
    ([cs_disasm_iter]); [false] when it fails. *)
Variable redisassemble : Z -> Z -> Z -> bool.

Variable plugin_table : Plugins.
Variable actions : list Action.

(** The patch message of a site, or the call of the plugin's patcher. *)
Definition send_patch (i : nat) (loc : Location) (offset id : Z)
  : Emit unit :=
  match actions !! Z.to_nat (loc_action loc) with
  | None => ([], Crash)
  | Some action =>
      match action_kind action with
      | ACTION_PLUGIN =>
          match action_plugin action with
          | None => ([], Crash)
          | Some key =>
              match plugin_table !! key with
              | None => ([], Crash)
              | Some p =>
                  match patchFunc p with
                  | Some _ => ([(i, MsgPluginPatch key offset)], Ok tt)
                  | None => emit_ret tt
                  end
              end
          end
      | _ => ([(i, MsgPatch (action_name action) offset id)], Ok tt)
      end
  end.

(** The body of the reverse loop for index [i]; [id] counts the patches. *)
Definition patch_site (i : nat) (locs : list Location) (id : Z)
  : Emit (list Location * Z) :=
  match locs !! i with
  | None => ([], Crash)
  | Some loc =>
      if negb (loc_patch loc) then emit_ret (locs, id)
      else
        let offset := loc_offset loc in
        let addr := to_int64 (text_addr + offset) in
        let offset := to_int64 (offset + text_offset) in
        if negb (redisassemble offset addr (loc_size loc))
        then ([], Fatal "failed to disassemble instruction")
        else
          do* locs' := send_window addr i locs in
          let id := id + 1 in
          do* _ := send_patch i loc offset id in
          emit_ret (locs', id)
  end.

(** [for (ssize_t i = (ssize_t)count - 1; i >= 0; i--)], with [n] the
    number of indices still to visit. *)
Fixpoint walk_sites (n : nat) (locs : list Location) (id : Z)
  : Emit (list Location * Z) :=
  match n with
  | O => emit_ret (locs, id)
  | S i =>
      do* (locs', id') := patch_site i locs id in
      walk_sites i locs' id'
  end.

(** The whole walk of [main]. *)
Definition reverse_walk (locs : list Location) : Emit (list Location * Z) :=
  walk_sites (length locs) locs (-1).

End Walk.

(** The messages on the wire. *)
Definition wire (log : list Event) : list Message := map snd log.

(** Is this event the Instruction message of location [j]? *)
Definition is_instruction_of (j : nat) (e : Event) : bool :=
  match e with
  | (k, MsgInstruction _ _ _) => Nat.eqb k j
  | _ => false
  end.

Definition is_instruction_of_any (e : Event) : bool :=
  match e with
  | (_, MsgInstruction _ _ _) => true
  | _ => false
  end.

(** The number of Instruction messages written for location [j]. *)
Fixpoint instruction_count (j : nat) (log : list Event) : nat :=
  match log with
  | [] => 0%nat
  | e :: rest =>
      ((if is_instruction_of j e then 1 else 0) + instruction_count j rest)%nat
  end.

(** The sticky flag of location [j] ([false] out of range). *)
Definition emitted_at (locs : list Location) (j : nat) : bool :=
  match locs !! j with
  | Some loc => loc_emitted loc
  | None => false
  end.

(** The ledger of the sticky flag for a step [m] started on [locs]: for
    every location, the messages written for it and its flag at the start
    add up to at most one, and to its flag at the end when the step ends
    normally on the locations [get a]. *)
Definition sticky {A : Type} (get : A -> list Location)
    (locs : list Location) (m : Emit A) : Prop :=
  forall j,
    (instruction_count j (fst m) + Nat.b2n (emitted_at locs j) <= 1)%nat
    /\ forall a, snd m = Ok a ->
                 Nat.b2n (emitted_at (get a) j)
                 = (instruction_count j (fst m)
                    + Nat.b2n (emitted_at locs j))%nat.

(** Location [j] is still to be emitted and every location from [j] up to
    [hi] is inside the window around [addr]. *)
Definition reaches_down (text_addr addr : Z) (locs : list Location)
    (hi j : nat) : Prop :=
  exists loc, locs !! j = Some loc /\ (j <= hi)%nat
              /\ loc_emitted loc = false
              /\ forall k lk, (j <= k <= hi)%nat -> locs !! k = Some lk ->
                              out_of_window text_addr addr lk = false.

(** The same from [lo] up to [j], for indices below [bound]. *)
Definition reaches_up (text_addr addr : Z) (locs : list Location)
    (lo bound j : nat) : Prop :=
  exists loc, locs !! j = Some loc /\ (lo <= j < bound)%nat
              /\ loc_emitted loc = false
              /\ forall k lk, (lo <= k <= j)%nat -> locs !! k = Some lk ->
                              out_of_window text_addr addr lk = false.

(** [k] lies between [i] and [j], both included. *)
Definition between (i j k : nat) : Prop :=
  (Nat.min i j <= k <= Nat.max i j)%nat.

(** The locations are in ascending address order, as the disassembly
    produces them. *)
Definition ascending_addresses (text_addr : Z) (locs : list Location) : Prop :=
  forall a b la lb,
    (a <= b)%nat -> locs !! a = Some la -> locs !! b = Some lb ->
    loc_addr text_addr la <= loc_addr text_addr lb.

(* ===================================================================== *)
(** ** Dispatch, stated over the verdicts of the rules *)
(* ===================================================================== *)

Section Verdicts.

Context {platform : Platform}.

(** The verdict of rule [k] when the rules are evaluated in declaration
    order from the generator state [st]: every rule before it is evaluated
    first, as the generator state of one evaluation is the one the previous
    evaluation left. *)
Fixpoint rule_verdict (plugins : Plugins) (actions : list Action)
    (I : cs_insn) (offset : Z) (k : nat) (st : RandState) : Outcome bool :=
  match actions with
  | [] => Crash
  | action :: rest =>
      let* (pass, st') := matchAction plugins action I offset st in
      match k with
      | O => Ok pass
      | S k' => rule_verdict plugins rest I offset k' st'
      end
  end.

(** The dispatcher's contract in the words of the specification: the index
    of the first rule whose verdict is true, the sentinel [-1] when every
    verdict is false. *)
Definition first_match (verdict : nat -> Outcome bool) (count : nat) (idx : Z)
  : Prop :=
  (idx = -1 /\ forall k, (k < count)%nat -> verdict k = Ok false)
  \/ (exists r, idx = Z.of_nat r /\ (r < count)%nat /\ verdict r = Ok true
                /\ forall k, (k < r)%nat -> verdict k = Ok false).

End Verdicts.

(* ===================================================================== *)
(** ** Reference inputs *)
(* ===================================================================== *)

(** A platform to run the definitions on: registers numbered in the order
    of the list below, a disassembler that reports no register accesses, a
    generator that returns the number of the draw, and a regular-expression
    matcher for literal patterns. *)
Definition ref_registers : list Register :=
  [ REGISTER_NONE; REGISTER_RAX; REGISTER_RCX; REGISTER_RDX; REGISTER_RBX;
    REGISTER_RSP; REGISTER_RBP; REGISTER_RSI; REGISTER_RDI; REGISTER_RIP ].

Fixpoint ref_position (r : Register) (l : list Register) (n : Z) : Z :=
  match l with
  | [] => n
  | r' :: rest => if Register_eqb r r' then n else ref_position r rest (n + 1)
  end.

Definition ref_Register_value (r : Register) : Z :=
  match r with
  | REGISTER_OTHER n => 100 + Z.of_nat n
  | _ => ref_position r ref_registers 0
  end.

Definition ref_getRegister (r : x86_reg) : Register :=
  if r =? 35 then REGISTER_RAX
  else if r =? 41 then REGISTER_RIP
  else REGISTER_OTHER (Z.to_nat r).

Definition ref_platform : Platform :=
  {| Register_value := ref_Register_value;
     getRegister := ref_getRegister;
     cs_regs_access := fun _ => Some ([35], []);
     rand_value := fun n => Z.of_nat n;
     regex_match := fun pattern subject => String.eqb pattern subject;
     BUFSIZ := 8192 |}.

(** [callq 0x401000] at [0x400010], and [mov %rax, 8(%rip)] at [0x400020]. *)
Definition ref_no_mem : x86_op_mem :=
  {| mem_segment := 0; mem_base := 0; mem_index := 0; mem_scale := 1;
     mem_disp := 0 |}.

Definition ref_call : cs_insn :=
  {| insn_id := X86_INS_OTHER 56; insn_address := 0x400010; insn_size := 5;
     insn_mnemonic := "callq"; insn_op_str := "0x401000";
     insn_groups := [CS_GRP_CALL];
     insn_operands :=
       [ {| op_type := X86_OP_IMM; op_reg := 0; op_imm := 0x401000;
            op_mem := ref_no_mem; op_size := 8; op_access := 0 |} ] |}.

Definition ref_mov : cs_insn :=
  {| insn_id := X86_INS_OTHER 449; insn_address := 0x400020; insn_size := 7;
     insn_mnemonic := "mov"; insn_op_str := "%rax, 8(%rip)";
     insn_groups := [];
     insn_operands :=
       [ {| op_type := X86_OP_REG; op_reg := 35; op_imm := 0;
            op_mem := ref_no_mem; op_size := 8; op_access := CS_AC_READ |};
         {| op_type := X86_OP_MEM; op_reg := 0; op_imm := 0;
            op_mem := {| mem_segment := 0; mem_base := 41; mem_index := 0;
                         mem_scale := 1; mem_disp := 8 |};
            op_size := 8; op_access := CS_AC_WRITE |} ] |}.

(** A test without index, field, file or plugin. *)
Definition ref_test (kind : MatchKind) (cmp : MatchCmp) (data : TestData)
  : MatchTest :=
  {| test_match := kind; test_idx := -1; test_field := MATCH_FIELD_NONE;
     test_cmp := cmp; test_basename := None; test_plugin := None;
     test_data := data |}.

Definition ref_action (name : string) (kind : ActionKind) (e : MatchExpr)
  : Action :=
  {| action_string := name; action_match := e; action_kind := kind;
     action_name := name; action_plugin := None; action_context := 0 |}.

(** The rules [call -> exit(1)] and [true -> passthru]. *)
Definition ref_rules : list Action :=
  [ ref_action "exit_1" ACTION_EXIT
      (ExprTest (ref_test MATCH_CALL MATCH_CMP_NEQ_ZERO DataNull));
    ref_action "passthru" ACTION_PASSTHRU
      (ExprTest (ref_test MATCH_TRUE MATCH_CMP_NEQ_ZERO DataNull)) ].

(** [op[0].seg], as a test with comparison [cmp] on the values [data]. *)
Definition ref_seg_test (cmp : MatchCmp) (data : TestData) : MatchTest :=
  {| test_match := MATCH_OP; test_idx := 0; test_field := MATCH_FIELD_SEG;
     test_cmp := cmp; test_basename := None; test_plugin := None;
     test_data := data |}.

(** The value sets [{5}] and [{3, 5, 9}], the latter read from the records
    0, 1 and 2 of [sites.csv]. *)
Definition ref_single : Index := [(VInteger 5, None)].

Definition ref_sites : Index :=
  [(VInteger 3, Some 0%nat); (VInteger 5, Some 1%nat);
   (VInteger 9, Some 2%nat)].

(** [size <cmp> values], optionally tied to a CSV file. *)
Definition ref_size_test (cmp : MatchCmp) (values : Index)
    (basename : option string) : MatchTest :=
  {| test_match := MATCH_SIZE; test_idx := -1; test_field := MATCH_FIELD_NONE;
     test_cmp := cmp; test_basename := basename; test_plugin := None;
     test_data := DataValues values |}.

(** A shared object that exports the match entry point and nothing else. *)
Definition match_only_loader : Loader :=
  {| realpath := fun filename => Some ("/plugins/" +:+ filename)%string;
     dlopen := fun _ => Some 1;
     dlsym := fun _ symbol =>
       if String.eqb symbol "e9_plugin_match_v1" then Some 4096 else None;
     strerror := fun _ => "No such file or directory"%string;
     dlerror := fun pathname =>
       (pathname +:+ ": cannot open shared object file")%string |}.

Definition no_plugins : PluginState :=
  {| plugins := ∅; option_notify := false |}.

(** The tokens of [<(%rip,%rax,2)>], which follow [mem64] in an action. *)
Definition rip_indexed_tokens : list Token :=
  [ TOKEN_CHAR "<"; TOKEN_CHAR "("; TOKEN_REGISTER REGISTER_RIP;
    TOKEN_CHAR ","; TOKEN_REGISTER REGISTER_RAX; TOKEN_CHAR ",";
    TOKEN_INTEGER 2; TOKEN_CHAR ")"; TOKEN_CHAR ">" ]%char.

Definition action_parser (tokens : list Token) : Parser :=
  {| parser_tokens := tokens; parser_mode := "action" |}.

(** A text section at [0x400000], file offset [0x1000].  Three
    instructions at offsets 0, 100 and 300, the middle one a patch site; and
    three at offsets 0, 50 and 100, the outer two patch sites, so that the
    middle one lies in both windows. *)
Definition ref_text_addr : Z := 0x400000.
Definition ref_text_offset : Z := 0x1000.

Definition ref_locs : list Location :=
  [ mkLocation 0 5 false (-1); mkLocation 100 7 true 0;
    mkLocation 300 3 false (-1) ].

Definition ref_overlap : list Location :=
  [ mkLocation 0 5 true 1; mkLocation 50 7 false (-1);
    mkLocation 100 3 true 0 ].

(** The same with the middle location already sent. *)
Definition ref_overlap_sent : list Location :=
  [ mkLocation 0 5 true 1; set_emitted (mkLocation 50 7 false (-1));
    mkLocation 100 3 true 0 ].

Definition ref_redisassemble (offset addr size : Z) : bool := true.

(* ===================================================================== *)
(** ** Further parts of the tool *)
(* ===================================================================== *)

(** The registry as [openPlugin] keeps it: every record is filed under its
    own file name, and notify mode is on as soon as a registered plugin has
    an instr entry point. *)
Definition registry_ok (st : PluginState) : Prop :=
  forall key p,
    plugins st !! key = Some p ->
    plugin_filename p = key
    /\ (is_Some (instrFunc p) -> option_notify st = true).

(** The end of [main]: the output name and format passed to the Emit
    message. *)
Definition final_output (option_format option_output : string)
  : string * string :=
  if String.eqb option_format "patch"
     && negb (hasSuffix option_output ".patch")
  then ((option_output +:+ ".patch")%string, option_format)
  else if String.eqb option_format "patch.gz"
          && negb (hasSuffix option_output ".patch.gz")
  then ((option_output +:+ ".patch.gz")%string, option_format)
  else if String.eqb option_format "patch.bz2"
          && negb (hasSuffix option_output ".patch.bz2")
  then ((option_output +:+ ".patch.bz2")%string, option_format)
  else if String.eqb option_format "patch.xz"
          && negb (hasSuffix option_output ".patch.xz")
  then ((option_output +:+ ".patch.xz")%string, option_format)
  else if String.eqb option_format "json"
  then ("a.out"%string, "binary"%string)
  else (option_output, option_format).

(** A shared object that exports the instr entry point only. *)
Definition instr_only_loader : Loader :=
  {| realpath := fun filename => Some ("/plugins/" +:+ filename)%string;
     dlopen := fun _ => Some 1;
     dlsym := fun _ symbol =>
       if String.eqb symbol "e9_plugin_instr_v1" then Some 4096 else None;
     strerror := fun _ => "No such file or directory"%string;
     dlerror := fun pathname =>
       (pathname +:+ ": cannot open shared object file")%string |}.

(** What [parseMemOp] promises of the operand it returns, and the reasons
    it gives when it fails. *)
Definition MemOp_valid (memop : MemOp) : Prop :=
  valid_seg (memop_seg memop) = true
  /\ valid_base (memop_base memop) = true
  /\ valid_index (memop_index memop) = true
  /\ In (memop_scale memop) [1; 2; 4; 8]
  /\ INT32_MIN <= memop_disp memop <= INT32_MAX
  /\ memop_size memop = 1.

Definition memop_errors : list string :=
  [ "unexpected token";
    "expected displacement within the int32 range";
    "invalid memory operand segment register";
    "invalid memory operand base register";
    "invalid memory operand index register";
    "expected scale with value {1,2,4,8}" ]%string.

Definition tagged_error (mode msg : string) : Prop :=
  exists what,
    In what memop_errors
    /\ msg = ("failed to parse " +:+ mode +:+ "; " +:+ what)%string.

(** The outcome of a part of [parseMemOp] run in a given mode on an operand
    of a given size. *)
Definition memop_sound (size : Z) (mode : string)
    (r : Outcome (MemOp * Parser)) : Prop :=
  match r with
  | Ok (memop, parser) =>
      valid_seg (memop_seg memop) = true
      /\ valid_base (memop_base memop) = true
      /\ valid_index (memop_index memop) = true
      /\ In (memop_scale memop) [1; 2; 4; 8]
      /\ INT32_MIN <= memop_disp memop <= INT32_MAX
      /\ memop_size memop = size
      /\ parser_mode parser = mode
  | Fatal msg => tagged_error mode msg
  | Crash => False
  end.

(** A location with its sticky flag cleared: what the walk never changes. *)
Definition clear_emitted (loc : Location) : Location :=
  {| loc_offset := loc_offset loc;
     loc_size := loc_size loc;
     loc_emitted := false;
     loc_patch := loc_patch loc;
     loc_action := loc_action loc |}.

(** A step [m] started on [locs] changes nothing but sticky flags, and each
    Instruction message it writes describes the location it is written
    for. *)
Definition faithful (text_addr text_offset : Z) {A : Type}
    (get : A -> list Location) (locs : list Location) (m : Emit A) : Prop :=
  (forall a, snd m = Ok a -> map clear_emitted (get a) = map clear_emitted locs)
  /\ forall j addr size offset,
       In (j, MsgInstruction addr size offset) (fst m) ->
       exists loc,
         locs !! j = Some loc
         /\ addr = loc_addr text_addr loc
         /\ size = loc_size loc
         /\ offset = to_int64 (text_offset + loc_offset loc).

(** In what a step [m] started on [locs] writes, a message that is not an
    Instruction message (a patch message, written for its site) comes after
    the Instruction message of its site, or the site was emitted before the
    step. *)
Definition announced {A : Type} (locs : list Location) (m : Emit A) : Prop :=
  forall before e after,
    fst m = before ++ e :: after ->
    is_instruction_of_any e = false ->
    (instruction_count (fst e) before + Nat.b2n (emitted_at locs (fst e))
     = 1)%nat.

(* --------------------------------------------------------------------- *)
(** *** The rules of the command line *)

(** [MAX_ACTIONS] *)
Definition MAX_ACTIONS : Z := 2 ^ 10.

(** [struct ActionEntry] *)
Record ActionEntry : Type := {
  entry_match : list string;
  entry_action : string
}.

(** The options of [main] that build the rules; the other options leave
    [option_match] and [option_actions] as they are. *)
Inductive RuleOption : Type :=
| OPTION_MATCH (optarg : string)
| OPTION_ACTION (optarg : string).

(** The two cases of the option loop of [main], on the pair of
    [option_match] and [option_actions]; [swap] leaves [option_match]
    empty. *)
Definition rule_option (st : list string * list ActionEntry)
    (opt : RuleOption) : list string * list ActionEntry :=
  let (option_match, option_actions) := st in
  match opt with
  | OPTION_ACTION optarg =>
      ([], option_actions
           ++ [ {| entry_match := option_match; entry_action := optarg |} ])
  | OPTION_MATCH optarg => (option_match ++ [optarg], option_actions)
  end.

Definition rule_options (opts : list RuleOption)
  : list string * list ActionEntry :=
  fold_left rule_option opts ([], []).

(** The two checks of [main] on what the loop has collected. *)
Definition check_rule_options (st : list string * list ActionEntry)
  : Outcome (list ActionEntry) :=
  let (option_match, option_actions) := st in
  if negb (length option_match =? 0)%nat
  then Fatal "detected extraneous matching option(s)"
  else if MAX_ACTIONS <? Z.of_nat (length option_actions)
  then Fatal "the total number of actions exceeds the maximum"
  else Ok option_actions.

(** The options an entry list stands for. *)
Definition entry_options (entry : ActionEntry) : list RuleOption :=
  map OPTION_MATCH (entry_match entry) ++ [OPTION_ACTION (entry_action entry)].

Definition entries_options (entries : list ActionEntry) : list RuleOption :=
  concat (map entry_options entries).

Section Assembly.

(** The parsers of a match and of an action are parameters here; [S] is
    whatever they read and change (the plugin registry, the CSV files that
    have been read, [option_detail]). *)
Variable S : Type.
Variable parseMatch : string -> S -> Outcome (MatchExpr * S).
Variable parseAction : string -> MatchExpr -> S -> Outcome (Action * S).

(** The inner loop of the assembly: the matches of one entry, joined by
    [MATCH_OP_AND]. *)
Fixpoint parse_matches (strs : list string) (match_ : MatchExpr) (s : S)
  : Outcome (MatchExpr * S) :=
  match strs with
  | [] => Ok (match_, s)
  | match_str :: rest =>
      let* (expr, s') := parseMatch match_str s in
      let match_ :=
        match match_ with
        | ExprNull => expr
        | _ => ExprAnd match_ expr
        end in
      parse_matches rest match_ s'
  end.

(** The outer loop: one action per entry. *)
Fixpoint make_actions (entries : list ActionEntry) (actions : list Action)
    (s : S) : Outcome (list Action * S) :=
  match entries with
  | [] => Ok (actions, s)
  | entry :: rest =>
      if (length (entry_match entry) =? 0)%nat
      then Fatal "the action option must be preceded by match options"
      else
        let* (match_, s') := parse_matches (entry_match entry) ExprNull s in
        let* (action, s'') := parseAction (entry_action entry) match_ s' in
        make_actions rest (actions ++ [action]) s''
  end.

End Assembly.

Section Conjunction.

Context {platform : Platform}.

(** Expressions evaluated one after the other, up to the first that
    fails. *)
Fixpoint match_all (plugins : Plugins) (exprs : list MatchExpr) (I : cs_insn)
    (offset : Z) (basename : option string) (record : option RecordPtr)
    (st : RandState) : Outcome EvalResult :=
  match exprs with
  | [] => Ok (true, record, st)
  | expr :: rest =>
      let* (pass, record', st') :=
        matchEval plugins expr I offset basename record st in
      if negb pass then Ok (false, record', st')
      else match_all plugins rest I offset basename record' st'
  end.

End Conjunction.

(* --------------------------------------------------------------------- *)
(** *** The disassembly passes of [main] *)

(** [I->mnemonic[0] == '.'] *)
Definition is_skipdata (I : cs_insn) : bool :=
  match insn_mnemonic I with
  | String c _ => Ascii.eqb c "."
  | EmptyString => false
  end.

(** What the calls of [cs_disasm_iter] in the first loop yield: the
    instructions, in the order of the calls, and whether the last call left
    [code] at [end]. *)
Record Disassembly : Type := {
  dis_insns : list cs_insn;
  dis_complete : bool
}.

(** The variables the loops change. *)
Record PassState : Type := {
  ps_locs : list Location;
  ps_failed : bool;
  ps_sync : Z;
  ps_plugins : Plugins;
  ps_rand : RandState
}.

Definition set_result (result : Z) (p : Plugin) : Plugin :=
  {| plugin_filename := plugin_filename p;
     plugin_handle := plugin_handle p;
     plugin_context := plugin_context p;
     plugin_result := result;
     initFunc := initFunc p;
     instrFunc := instrFunc p;
     matchFunc := matchFunc p;
     patchFunc := patchFunc p;
     finiFunc := finiFunc p |}.

Section Passes.

Context {platform : Platform}.

(** The code of the plugins is a parameter: [call_match f n] is what the
    match function at [f] returns the [n]-th time [matchPlugins] calls
    it. *)
Variable call_match : Z -> nat -> Z.
(** [cs_disasm_iter] of the second pass, at a file offset, an address and
    a size. *)
Variable redisassemble_insn : Z -> Z -> Z -> option cs_insn.

Variables (option_notify : bool) (option_sync : Z) (actions : list Action)
  (text_addr text_offset : Z).

(** [matchPlugins], at its [n]-th call. *)
Definition matchPlugins (plugins : Plugins) (n : nat) : Plugins :=
  (fun p =>
     match matchFunc p with
     | None => p
     | Some f => set_result (call_match f n) p
     end) <$> plugins.

(** The first loop of [main] over the instructions of the text section.
    [notifyPlugins] calls plugin code only and changes none of the
    variables modelled. *)
Fixpoint disasm_loop (insns : list cs_insn) (s : PassState)
  : Outcome PassState :=
  match insns with
  | [] => Ok s
  | insn :: rest =>
      if 0 <? ps_sync s then
        disasm_loop rest
          {| ps_locs := ps_locs s; ps_failed := ps_failed s;
             ps_sync := ps_sync s - 1;
             ps_plugins := ps_plugins s; ps_rand := ps_rand s |}
      else if is_skipdata insn then
        disasm_loop rest
          {| ps_locs := ps_locs s; ps_failed := true;
             ps_sync := option_sync mod 2 ^ 32;
             ps_plugins := ps_plugins s; ps_rand := ps_rand s |}
      else
        let offset := to_int64 (to_int64 (insn_address insn) - text_addr) in
        let* (idx, plugins', st') :=
          if option_notify then Ok (-1, ps_plugins s, ps_rand s)
          else
            let plugins' :=
              matchPlugins (ps_plugins s) (length (ps_locs s)) in
            let* (idx, st') :=
              match_ plugins' actions insn offset (ps_rand s) in
            Ok (idx, plugins', st') in
        let loc := mkLocation offset (insn_size insn) (0 <=? idx) idx in
        disasm_loop rest
          {| ps_locs := ps_locs s ++ [loc]; ps_failed := ps_failed s;
             ps_sync := ps_sync s;
             ps_plugins := plugins'; ps_rand := st' |}
  end.

(** The first pass with the two checks that follow its loop. *)
Definition first_pass (d : Disassembly) (plugins : Plugins) (st : RandState)
  : Outcome PassState :=
  let* s :=
    disasm_loop (dis_insns d)
      {| ps_locs := []; ps_failed := false; ps_sync := 0;
         ps_plugins := plugins; ps_rand := st |} in
  if negb (dis_complete d)
  then Fatal "failed to disassemble the .text section; could only disassemble a range"
  else if ps_failed s && (option_sync <? 0)
  then Fatal "failed to disassemble the .text section"
  else Ok s.

(** The second pass, run when a plugin asked for notifications. *)
Fixpoint second_pass_loop (n i : nat) (s : PassState) : Outcome PassState :=
  match n with
  | O => Ok s
  | S n' =>
      match ps_locs s !! i with
      | None => Crash
      | Some loc =>
          let loc_offset := loc_offset loc in
          let address := (text_addr + loc_offset) mod 2 ^ 64 in
          let offset := to_int64 (text_offset + loc_offset) in
          match redisassemble_insn offset address (loc_size loc) with
          | None => Fatal "failed to disassemble instruction"
          | Some insn =>
              let plugins' := matchPlugins (ps_plugins s) i in
              let* (idx, st') :=
                match_ plugins' actions insn offset (ps_rand s) in
              let locs' :=
                if 0 <=? idx
                then <[i := mkLocation loc_offset (insn_size insn) true idx]>
                       (ps_locs s)
                else ps_locs s in
              second_pass_loop n' (S i)
                {| ps_locs := locs'; ps_failed := ps_failed s;
                   ps_sync := ps_sync s;
                   ps_plugins := plugins'; ps_rand := st' |}
          end
      end
  end.

(** Both passes: the locations handed to the reverse walk. *)
Definition disassemble (d : Disassembly) (plugins : Plugins)
    (st : RandState) : Outcome PassState :=
  let* s := first_pass d plugins st in
  if option_notify then second_pass_loop (length (ps_locs s)) 0 s
  else Ok s.

End Passes.

(** An instruction of the text section: its address is within 2^48 bytes of
    the start of the section and its size fits the four bits of the size
    field. *)
Definition in_text (text_addr : Z) (insn : cs_insn) : Prop :=
  0 <= insn_address insn - text_addr < 2 ^ 48
  /\ 0 <= insn_size insn < 2 ^ 4.

(** A location that stands for an instruction. *)
Definition locates (text_addr : Z) (insn : cs_insn) (loc : Location) : Prop :=
  is_skipdata insn = false
  /\ loc_offset loc = insn_address insn - text_addr
  /\ loc_size loc = insn_size insn.

(** Reference inputs of the rule assembly and of the passes. *)
Definition ref_parseMatch (str : string) (s : unit)
  : Outcome (MatchExpr * unit) :=
  if String.eqb str "call"
  then Ok (ExprTest (ref_test MATCH_CALL MATCH_CMP_NEQ_ZERO DataNull), s)
  else if String.eqb str "true"
  then Ok (ExprTest (ref_test MATCH_TRUE MATCH_CMP_NEQ_ZERO DataNull), s)
  else Fatal "failed to parse matching".

Definition ref_parseAction (str : string) (e : MatchExpr) (s : unit)
  : Outcome (Action * unit) :=
  Ok (ref_action str ACTION_PASSTHRU e, s).

Definition ref_options : list RuleOption :=
  [ OPTION_MATCH "call"; OPTION_MATCH "true"; OPTION_ACTION "passthru";
    OPTION_MATCH "true"; OPTION_ACTION "passthru" ].

Definition ref_entries : list ActionEntry :=
  [ {| entry_match := ["call"; "true"]; entry_action := "passthru" |};
    {| entry_match := ["true"]; entry_action := "passthru" |} ].

Definition ref_assembled : list Action :=
  [ ref_action "passthru" ACTION_PASSTHRU
      (ExprAnd (ExprTest (ref_test MATCH_CALL MATCH_CMP_NEQ_ZERO DataNull))
         (ExprTest (ref_test MATCH_TRUE MATCH_CMP_NEQ_ZERO DataNull)));
    ref_action "passthru" ACTION_PASSTHRU
      (ExprTest (ref_test MATCH_TRUE MATCH_CMP_NEQ_ZERO DataNull)) ].

Definition ref_stream : Disassembly :=
  {| dis_insns := [ref_call; ref_mov]; dis_complete := true |}.

Definition ref_call_match (f : Z) (n : nat) : Z := 0.

Definition ref_redisassemble_insn (offset addr size : Z) : option cs_insn :=
  if addr =? 0x400010 then Some ref_call
  else if addr =? 0x400020 then Some ref_mov
  else None.

(** Skipped data: [.byte 0x06] at [0x400015]. *)
Definition ref_data : cs_insn :=
  {| insn_id := X86_INS_OTHER 0; insn_address := 0x400015; insn_size := 1;
     insn_mnemonic := ".byte"; insn_op_str := "0x06";
     insn_groups := []; insn_operands := [] |}.

(** What the first pass makes of [ref_stream] under [ref_rules]. *)
Definition ref_pass_state : PassState :=
  {| ps_locs := [mkLocation 16 5 true 0; mkLocation 32 7 true 1];
     ps_failed := false; ps_sync := 0; ps_plugins := ∅;
     ps_rand := 0%nat |}.

(** The action field of a location to patch is the index of a rule. *)
Definition action_in_range (actions : list Action) (loc : Location) : Prop :=
  loc_patch loc = true ->
  0 <= loc_action loc < Z.of_nat (length actions).

(** The disassembler yields the instructions in the order of their
    addresses. *)
Definition ascending_stream (insns : list cs_insn) : Prop :=
  forall a b Ia Ib,
    (a <= b)%nat -> insns !! a = Some Ia -> insns !! b = Some Ib ->
    insn_address Ia <= insn_address Ib.

(* ===================================================================== *)
(** * Properties *)
(* ===================================================================== *)

(** ** Rule dispatch *)

Section DispatchFacts.

Context {platform : Platform}.
Variables (plugins : Plugins) (I : cs_insn) (offset : Z).

Local Abbreviation verdict_of actions st :=
  (fun k => rule_verdict plugins actions I offset k st).

Lemma match_loop_sound (actions : list Action) :
  forall idx st i st',
    match_loop plugins actions I offset idx st = Ok (i, st') ->
    (i = -1 /\ forall k, (k < length actions)%nat ->
                         verdict_of actions st k = Ok false)
    \/ (exists r, i = idx + Z.of_nat r /\ (r < length actions)%nat
                  /\ verdict_of actions st r = Ok true
                  /\ forall k, (k < r)%nat ->
                               verdict_of actions st k = Ok false).
Proof.
  induction actions as [|a rest IH]; intros idx st i st' Hrun; simpl in Hrun.
  - injection Hrun as <- <-. left. split; [reflexivity|].
    intros k Hk. simpl in Hk. lia.
  - destruct (matchAction plugins a I offset st) as [[pass st1]| |] eqn:Ea;
      simpl in Hrun; try discriminate.
    destruct pass.
    + injection Hrun as <- <-. right. exists 0%nat.
      repeat split; [lia|simpl; lia|simpl; rewrite Ea; reflexivity|].
      intros k Hk. lia.
    + apply IH in Hrun as [[-> Hall]|(r & -> & Hr & Hv & Hbefore)].
      * left. split; [reflexivity|]. intros [|k] Hk; simpl; rewrite Ea; simpl.
        -- reflexivity.
        -- apply Hall. simpl in Hk. lia.
      * right. exists (S r). repeat split.
        -- lia.
        -- simpl. lia.
        -- simpl. rewrite Ea. simpl. exact Hv.
        -- intros [|k] Hk; simpl; rewrite Ea; simpl; [reflexivity|].
           apply Hbefore. lia.
Qed.

Lemma match_loop_none (actions : list Action) :
  forall idx st,
    (forall k, (k < length actions)%nat ->
               verdict_of actions st k = Ok false) ->
    exists st', match_loop plugins actions I offset idx st = Ok (-1, st').
Proof.
  induction actions as [|a rest IH]; intros idx st Hall; simpl.
  - eexists; reflexivity.
  - pose proof (Hall 0%nat ltac:(simpl; lia)) as H0. simpl in H0.
    destruct (matchAction plugins a I offset st) as [[pass st1]| |] eqn:Ea;
      simpl in H0; try discriminate.
    injection H0 as ->. simpl.
    apply IH. intros k Hk.
    specialize (Hall (S k) ltac:(simpl; lia)). simpl in Hall.
    rewrite Ea in Hall. exact Hall.
Qed.

Lemma match_loop_first (actions : list Action) :
  forall r idx st,
    (r < length actions)%nat ->
    verdict_of actions st r = Ok true ->
    (forall k, (k < r)%nat -> verdict_of actions st k = Ok false) ->
    exists st',
      match_loop plugins actions I offset idx st = Ok (idx + Z.of_nat r, st').
Proof.
  induction actions as [|a rest IH]; intros r idx st Hr Hv Hbefore;
    simpl in Hr; [lia|].
  simpl in Hv |- *.
  destruct (matchAction plugins a I offset st) as [[pass st1]| |] eqn:Ea;
    simpl in Hv; try discriminate.
  destruct r as [|r].
  - injection Hv as ->. simpl. exists st1. do 2 f_equal. lia.
  - pose proof (Hbefore 0%nat ltac:(lia)) as H0. simpl in H0.
    rewrite Ea in H0. simpl in H0. injection H0 as ->. simpl.
    destruct (IH r (idx + 1) st1) as [st' Hst'].
    + lia.
    + exact Hv.
    + intros k Hk. specialize (Hbefore (S k) ltac:(lia)). simpl in Hbefore.
      rewrite Ea in Hbefore. exact Hbefore.
    + exists st'. rewrite Hst'. do 2 f_equal. lia.
Qed.

Lemma match_returns_first_match (actions : list Action) (st : RandState)
    (i : Z) :
  (exists st', match_ plugins actions I offset st = Ok (i, st'))
  <-> first_match (verdict_of actions st) (length actions) i.
Proof.
  unfold match_, first_match. split.
  - intros [st' Hrun]. apply match_loop_sound in Hrun.
    destruct Hrun as [H|(r & -> & H)]; [left; exact H|].
    right. exists r. split; [lia|exact H].
  - intros [[-> Hall]|(r & -> & Hr & Hv & Hbefore)].
    + apply match_loop_none. exact Hall.
    + destruct (match_loop_first actions r 0 st Hr Hv Hbefore) as [st' H].
      exists st'. rewrite H. reflexivity.
Qed.

Lemma least_true_verdict (r1 : nat) :
  forall actions st,
    verdict_of actions st r1 = Ok true ->
    exists r, (r <= r1)%nat /\ verdict_of actions st r = Ok true
              /\ forall k, (k < r)%nat -> verdict_of actions st k = Ok false.
Proof.
  induction r1 as [|r1 IH]; intros actions st Hv1;
    (destruct actions as [|a rest]; simpl in Hv1; [discriminate|]);
    destruct (matchAction plugins a I offset st) as [[pass st1]| |] eqn:Ea;
      simpl in Hv1; try discriminate.
  - injection Hv1 as ->. exists 0%nat. split; [lia|].
    split; [simpl; rewrite Ea; reflexivity|]. intros k Hk; lia.
  - destruct pass.
    + exists 0%nat. split; [lia|].
      split; [simpl; rewrite Ea; reflexivity|]. intros k Hk; lia.
    + destruct (IH rest st1 Hv1) as (r & Hr & Hvr & Hb).
      exists (S r). split; [lia|]. split.
      * simpl. rewrite Ea. exact Hvr.
      * intros [|k] Hk; simpl; rewrite Ea; simpl; [reflexivity|].
        apply Hb. lia.
Qed.

End DispatchFacts.

(** C1.  The dispatcher [match] returns an index [i] exactly when [i] is the
    index of the first rule, in declaration order, whose match expression
    evaluates to true on the instruction, or the sentinel [-1] and no rule
    evaluates to true.  Priority: when rule [r1] precedes rule [r2] and both
    match, the dispatcher returns an index that is at most [r1], hence never
    [r2], and it returns [r1] itself when no rule before [r1] matches. *)
Theorem match_dispatches_first_matching_rule
    {platform : Platform} (plugins : Plugins) (actions : list Action)
    (I : cs_insn) (offset : Z) (st : RandState) :
  let verdict := fun k => rule_verdict plugins actions I offset k st in
  (forall i,
      (exists st', match_ plugins actions I offset st = Ok (i, st'))
      <-> first_match verdict (length actions) i)
  /\ (forall r1 r2,
        (r1 < r2)%nat -> (r2 < length actions)%nat ->
        verdict r1 = Ok true -> verdict r2 = Ok true ->
        (exists i st', match_ plugins actions I offset st = Ok (i, st')
                       /\ 0 <= i <= Z.of_nat r1 /\ i <> Z.of_nat r2)
        /\ ((forall k, (k < r1)%nat -> verdict k = Ok false) ->
            exists st',
              match_ plugins actions I offset st = Ok (Z.of_nat r1, st'))).
Proof.
  intros verdict. split.
  - intros i. apply match_returns_first_match.
  - intros r1 r2 Hlt Hlen Hv1 Hv2. split.
    + (* the least index with a true verdict exists and is at most r1 *)
      pose proof (least_true_verdict plugins I offset r1 actions st Hv1) as Hleast.
      destruct Hleast as (r & Hr & Hvr & Hb).
      destruct (proj2 (match_returns_first_match plugins I offset actions st
                         (Z.of_nat r))) as [st' Hrun].
      { right. exists r. repeat split; [lia|exact Hvr|exact Hb]. }
      exists (Z.of_nat r), st'. split; [exact Hrun|lia].
    + intros Hb.
      apply (proj2 (match_returns_first_match plugins I offset actions st
                      (Z.of_nat r1))).
      right. exists r1. repeat split; [lia|exact Hv1|exact Hb].
Qed.

(** The rules [call -> exit(1)], [true -> passthru] on a call instruction:
    both match, the first one is dispatched. *)
Lemma match_dispatches_first_matching_rule_witness :
  exists st', @match_ ref_platform ∅ ref_rules ref_call 0x10 0%nat = Ok (0, st').
Proof.
  apply (proj2 (@match_dispatches_first_matching_rule
                  ref_platform ∅ ref_rules ref_call 0x10 0%nat) 0%nat 1%nat).
  - lia.
  - simpl. lia.
  - reflexivity.
  - reflexivity.
  - intros k Hk. lia.
Defined.

(** ** The order on match values and the value index *)

Section OrderFacts.

Variable rv : Register -> Z.

Ltac split_tests :=
  repeat match goal with
         | |- context [?x <? ?y] => destruct (Z.ltb_spec x y)
         | |- context [?x >? ?y] => rewrite (Z.gtb_ltb x y)
         end.

Ltac by_tags :=
  unfold rank_lt, compare, three_way, MatchValue_type, MatchValue_payload,
    MATCH_TYPE_UNDEFINED, MATCH_TYPE_NIL, MATCH_TYPE_INTEGER,
    MATCH_TYPE_OPERAND, MATCH_TYPE_ACCESS, MATCH_TYPE_REGISTER,
    MATCH_TYPE_MEMORY, MATCH_TYPE_STRING.

Lemma compare_neg (a b : MatchValue) : compare rv a b < 0 <-> rank_lt rv a b.
Proof. by_tags. destruct a, b; split_tests; lia. Qed.

Lemma compare_pos (a b : MatchValue) : compare rv a b > 0 <-> rank_lt rv b a.
Proof. by_tags. destruct a, b; split_tests; lia. Qed.

Lemma rank_lt_irrefl (a : MatchValue) : ~ rank_lt rv a a.
Proof. unfold rank_lt. lia. Qed.

Lemma rank_lt_trans (a b c : MatchValue) :
  rank_lt rv a b -> rank_lt rv b c -> rank_lt rv a c.
Proof. unfold rank_lt. lia. Qed.

Lemma rank_lt_asym (a b : MatchValue) : rank_lt rv a b -> ~ rank_lt rv b a.
Proof. unfold rank_lt. lia. Qed.

Lemma lt_iff (a b : MatchValue) :
  MatchValue_lt rv a b = true <-> rank_lt rv a b.
Proof. unfold MatchValue_lt. rewrite Z.ltb_lt. apply compare_neg. Qed.

Lemma gt_iff (a b : MatchValue) :
  MatchValue_gt rv a b = true <-> rank_lt rv b a.
Proof.
  unfold MatchValue_gt. rewrite Z.gtb_ltb, Z.ltb_lt.
  rewrite <- compare_pos. lia.
Qed.

Lemma le_iff (a b : MatchValue) :
  MatchValue_le rv a b = true <-> ~ rank_lt rv b a.
Proof.
  unfold MatchValue_le. rewrite Z.leb_le, <- compare_pos. lia.
Qed.

Lemma ge_iff (a b : MatchValue) :
  MatchValue_ge rv a b = true <-> ~ rank_lt rv a b.
Proof.
  unfold MatchValue_ge. rewrite Z.geb_leb, Z.leb_le, <- compare_neg. lia.
Qed.

Lemma rank_le_iff (a b : MatchValue) :
  rank_le rv a b <-> ~ rank_lt rv b a.
Proof. unfold rank_le, rank_lt. lia. Qed.

(** The four ordering operators are the order of type tag and payload. *)
Lemma operators_are_the_order (a b : MatchValue) :
  (MatchValue_lt rv a b = true <-> rank_lt rv a b)
  /\ (MatchValue_le rv a b = true <-> rank_le rv a b)
  /\ (MatchValue_gt rv a b = true <-> rank_lt rv b a)
  /\ (MatchValue_ge rv a b = true <-> rank_le rv b a).
Proof.
  split; [apply lt_iff|]. split; [rewrite rank_le_iff; apply le_iff|].
  split; [apply gt_iff|]. rewrite rank_le_iff. apply ge_iff.
Qed.

Lemma eq_iff (a b : MatchValue) :
  MatchValue_eq rv a b = true <-> ~ rank_lt rv a b /\ ~ rank_lt rv b a.
Proof.
  unfold MatchValue_eq. rewrite Z.eqb_eq, <- compare_neg, <- compare_pos. lia.
Qed.

Lemma lt_false_iff (a b : MatchValue) :
  MatchValue_lt rv a b = false <-> ~ rank_lt rv a b.
Proof. rewrite <- lt_iff. destruct (MatchValue_lt rv a b); intuition congruence. Qed.

(** In a valid index the first key is below every later key. *)
Lemma valid_head_below (rest : Index) :
  forall k r,
    Index_valid rv ((k, r) :: rest) = true ->
    forall k', In k' (Index_keys rest) -> rank_lt rv k k'.
Proof.
  induction rest as [|[k1 r1] rest IH]; intros k r Hv k' Hin; [destruct Hin|].
  simpl in Hv. apply andb_true_iff in Hv as [Hlt Hv]. apply lt_iff in Hlt.
  destruct Hin as [<-|Hin]; [exact Hlt|].
  eapply rank_lt_trans; [exact Hlt|]. exact (IH k1 r1 Hv k' Hin).
Qed.

Lemma valid_tail (e : MatchValue * RecordPtr) (rest : Index) :
  Index_valid rv (e :: rest) = true -> Index_valid rv rest = true.
Proof.
  destruct e as [k r]. destruct rest as [|[k1 r1] rest]; [reflexivity|].
  simpl. intros Hv. apply andb_true_iff in Hv as [_ Hv]. exact Hv.
Qed.

(** [begin()] designates the minimum. *)
Lemma begin_is_minimum (idx : Index) (m : MatchValue) (rm : RecordPtr) :
  Index_valid rv idx = true ->
  Index_begin idx = Some (m, rm) ->
  is_minimum rv m (Index_keys idx).
Proof.
  destruct idx as [|[k r] rest]; [discriminate|].
  intros Hv Hb. injection Hb as -> ->. split; [left; reflexivity|].
  intros k' [<-|Hin]; [apply rank_lt_irrefl|].
  apply rank_lt_asym. exact (valid_head_below rest m rm Hv k' Hin).
Qed.

(** [rbegin()] designates the maximum. *)
Lemma rbegin_is_maximum (idx : Index) :
  forall m rm,
    Index_valid rv idx = true ->
    Index_rbegin idx = Some (m, rm) ->
    is_maximum rv m (Index_keys idx).
Proof.
  induction idx as [|[k r] rest IH]; intros m rm Hv Hl; [discriminate|].
  destruct rest as [|e rest'].
  - injection Hl as -> ->. split; [left; reflexivity|].
    intros k' [<-|[]]. apply rank_lt_irrefl.
  - assert (Hl' : Index_rbegin (e :: rest') = Some (m, rm)) by exact Hl.
    pose proof (valid_tail _ _ Hv) as Hv'.
    destruct (IH m rm Hv' Hl') as [Hin Hmax].
    split; [right; exact Hin|].
    intros k' [<-|Hin']; [|apply Hmax; exact Hin'].
    apply rank_lt_asym. exact (valid_head_below (e :: rest') k r Hv m Hin).
Qed.

(** [find] in a one-element index is the test [operator==]. *)
Lemma find_singleton (k : MatchValue) (r : RecordPtr) (x : MatchValue) :
  bool_decide (is_Some (Index_find rv [(k, r)] x)) = member rv x [k].
Proof.
  unfold member. simpl. rewrite orb_false_r.
  destruct (MatchValue_lt rv k x) eqn:E1.
  - apply lt_iff in E1. symmetry.
    destruct (MatchValue_eq rv x k) eqn:E; [|reflexivity].
    apply eq_iff in E. tauto.
  - destruct (MatchValue_lt rv x k) eqn:E2.
    + apply lt_iff in E2. symmetry.
      destruct (MatchValue_eq rv x k) eqn:E; [|reflexivity].
      apply eq_iff in E. tauto.
    + apply lt_false_iff in E1, E2. symmetry.
      rewrite bool_decide_eq_true_2 by eauto.
      apply eq_iff. tauto.
Qed.

(** [insert] maintains the invariant. *)
Lemma Index_insert_valid (idx : Index) (e : MatchValue * RecordPtr) :
  Index_valid rv idx = true -> Index_valid rv (Index_insert rv idx e) = true.
Proof.
  destruct e as [ke re].
  induction idx as [|[k r] rest IH]; intros Hv; [reflexivity|].
  pose proof (valid_tail _ _ Hv) as Hv'. specialize (IH Hv').
  cbn [Index_insert fst].
  destruct (MatchValue_lt rv k ke) eqn:E1.
  - destruct rest as [|[k1 r1] rest'].
    + simpl. rewrite E1. reflexivity.
    + cbn [Index_valid] in Hv. apply andb_true_iff in Hv as [Hk _].
      cbn [Index_insert fst] in IH |- *.
      destruct (MatchValue_lt rv k1 ke) eqn:E2.
      * cbn [Index_valid]. cbn [Index_valid] in IH. rewrite Hk. exact IH.
      * destruct (MatchValue_lt rv ke k1) eqn:E3.
        -- cbn [Index_valid]. cbn [Index_valid] in IH. rewrite E1. exact IH.
        -- cbn [Index_valid]. cbn [Index_valid] in IH. rewrite Hk. exact IH.
  - destruct (MatchValue_lt rv ke k) eqn:E2.
    + cbn [Index_valid]. rewrite E2. exact Hv.
    + exact Hv.
Qed.

End OrderFacts.

(** ** Evaluation of a test *)

Section TestFacts.

Context {platform : Platform}.
Variables (plugins : Plugins) (I : cs_insn) (offset : Z).

Lemma matchTest_value_kind (t : MatchTest) basename record st :
  value_kind (test_match t) = true ->
  matchTest plugins t I offset basename record st
  = matchValueTest plugins t I offset basename record st.
Proof.
  unfold matchTest. destruct (test_match t); intros Hk;
    try discriminate Hk; reflexivity.
Qed.

Lemma bind_record_failed (t : MatchTest) x basename record :
  bind_record t x false basename record = Ok record.
Proof. reflexivity. Qed.

Lemma bind_record_other_cmp (t : MatchTest) x pass basename record :
  test_cmp t <> MATCH_CMP_EQ ->
  bind_record t x pass basename record = Ok record.
Proof.
  intros Hc. unfold bind_record.
  destruct pass; [|reflexivity]. simpl.
  destruct basename; [|reflexivity]. destruct record; [|reflexivity].
  destruct (test_cmp t); try reflexivity. congruence.
Qed.

Lemma RecordPtr_eqb_eq (a b : RecordPtr) : RecordPtr_eqb a b = true <-> a = b.
Proof.
  destruct a as [m|], b as [n|]; simpl; try (split; congruence).
  rewrite Nat.eqb_eq. split; congruence.
Qed.

(** Once the slot holds a record, a binding step leaves it as it is. *)
Lemma bind_record_bound (t : MatchTest) x pass basename (r : nat) record' :
  bind_record t x pass basename (Some (Some r)) = Ok record' ->
  record' = Some (Some r).
Proof.
  unfold bind_record. destruct pass; simpl; [|congruence].
  destruct basename as [bn|]; [|congruence].
  destruct (test_cmp t); try congruence.
  destruct (same_basename t bn) as [[|]| |]; simpl; try congruence.
  destruct (test_values t) as [values| |]; simpl; try congruence.
  destruct (Index_find Register_value values x) as [[k second]|]; [|congruence].
  destruct (RecordPtr_eqb second (Some r)) eqn:E; simpl; [|discriminate].
  apply RecordPtr_eqb_eq in E. intros H. injection H as <-. rewrite E.
  reflexivity.
Qed.

(** Only a draw from the generator changes its state, and a draw is never
    undefined. *)
Lemma makeMatchValue_undefined kind idx field pv st st' :
  makeMatchValue kind idx field I offset pv st = (VUndefined, st') ->
  st' = st.
Proof.
  unfold makeMatchValue, rand.
  destruct kind; intros H;
    repeat match type of H with
           | context [if ?c then _ else _] => destruct c
           | context [match ?f with MATCH_FIELD_NONE => _ | _ => _ end] =>
               destruct f
           | context [match getOperand ?a ?b ?c ?d with _ => _ end] =>
               destruct (getOperand a b c d)
           end; congruence.
Qed.

Lemma nonempty_size (values : Index) :
  (Index_size values =? 0) = false <-> values <> [].
Proof.
  unfold Index_size. destruct values; simpl.
  - split; [discriminate|congruence].
  - split; [discriminate|]. intros _. reflexivity.
Qed.

Lemma nonempty_rbegin (values : Index) :
  values <> [] -> exists k r, Index_rbegin values = Some (k, r).
Proof.
  intros Hne. unfold Index_rbegin.
  destruct (last values) as [[k r]|] eqn:E; [eauto|].
  apply last_None in E. congruence.
Qed.

Lemma nonempty_begin (values : Index) :
  values <> [] -> exists k r, Index_begin values = Some (k, r).
Proof.
  intros Hne. destruct values as [|[k r] rest]; [congruence|].
  simpl. eauto.
Qed.

(** With a readable, non-empty value set (where the comparison reads one)
    the inner switch yields a verdict. *)
Lemma compare_test_total (t : MatchTest) (x : MatchValue) :
  (cmp_needs_values (test_cmp t) = true ->
   exists values, test_data t = DataValues values /\ values <> []) ->
  exists v, compare_test t x = Ok v.
Proof.
  intros Hv. unfold compare_test, test_values.
  destruct (test_cmp t) eqn:Hc; simpl in Hv; try (eexists; reflexivity);
    destruct (Hv eq_refl) as (values & -> & Hne); simpl;
    try (eexists; reflexivity).
  - destruct (nonempty_rbegin values Hne) as (k & r & ->). eexists; reflexivity.
  - destruct (nonempty_rbegin values Hne) as (k & r & ->). eexists; reflexivity.
  - destruct (nonempty_begin values Hne) as (k & r & ->). eexists; reflexivity.
  - destruct (nonempty_begin values Hne) as (k & r & ->). eexists; reflexivity.
Qed.

(** The value case once the emptiness test is passed. *)
Lemma matchValueTest_run (t : MatchTest) basename record st st' pv x :
  (cmp_needs_values (test_cmp t) = true ->
   exists values, test_data t = DataValues values /\ values <> []) ->
  plugin_value plugins t = Ok pv ->
  makeMatchValue (test_match t) (test_idx t) (test_field t)
    I offset pv st = (x, st') ->
  matchValueTest plugins t I offset basename record st
  = let* verdict := compare_test t x in
    match verdict with
    | None => Ok (false, record, st')
    | Some pass =>
        let pass := if is_undefined x then false else pass in
        let* record' := bind_record t x pass basename record in
        Ok (pass, record', st')
    end.
Proof.
  intros Hv Hp Hx. unfold matchValueTest.
  destruct (cmp_needs_values (test_cmp t)) eqn:Hn.
  - destruct (Hv eq_refl) as (values & Hd & Hne).
    unfold test_values at 1. rewrite Hd. simpl.
    rewrite (proj2 (nonempty_size values) Hne).
    rewrite Hp. simpl. rewrite Hx. reflexivity.
  - simpl. rewrite Hp. simpl. rewrite Hx. reflexivity.
Qed.

(** The value case when the emptiness test stops it. *)
Lemma matchValueTest_empty (t : MatchTest) basename record st :
  cmp_needs_values (test_cmp t) = true ->
  test_data t = DataValues [] ->
  matchValueTest plugins t I offset basename record st
  = Ok (false, record, st).
Proof.
  intros Hn Hd. unfold matchValueTest, test_values.
  rewrite Hn, Hd. reflexivity.
Qed.

End TestFacts.

(** ** The comparisons of a test *)

(** C4.  For a test on an attribute evaluated through the value extractor
    [makeMatchValue], whatever its comparison: when the extracted value is
    undefined the test evaluates to false; and a [defined] test evaluates to
    true exactly when the extracted value is not undefined. *)
Theorem undefined_value_fails_every_comparison
    {platform : Platform} (plugins : Plugins) (t : MatchTest) (I : cs_insn)
    (offset : Z) (basename : option string) (record : option RecordPtr)
    (st st' : RandState) (pv : Z) (x : MatchValue)
    (Hkind : value_kind (test_match t) = true)
    (Hvalues : cmp_needs_values (test_cmp t) = true ->
               exists values, test_data t = DataValues values)
    (Hplugin : plugin_value plugins t = Ok pv)
    (Hx : makeMatchValue (test_match t) (test_idx t) (test_field t)
            I offset pv st = (x, st')) :
  (x = VUndefined ->
   matchEval plugins (ExprTest t) I offset basename record st
   = Ok (false, record, st))
  /\ (test_cmp t = MATCH_CMP_DEFINED ->
      matchEval plugins (ExprTest t) I offset basename record st
      = Ok (negb (is_undefined x), record, st')).
Proof.
  simpl. rewrite (matchTest_value_kind plugins I offset t) by exact Hkind.
  split.
  - intros ->.
    pose proof (makeMatchValue_undefined I offset _ _ _ _ _ _ Hx) as ->.
    destruct (cmp_needs_values (test_cmp t)) eqn:Hn.
    + destruct (Hvalues eq_refl) as [values Hd].
      destruct values as [|e values].
      * apply matchValueTest_empty; assumption.
      * assert (Hv : cmp_needs_values (test_cmp t) = true ->
                     exists vs, test_data t = DataValues vs /\ vs <> []).
        { intros _. exists (e :: values). split; [exact Hd|discriminate]. }
        rewrite (matchValueTest_run plugins I offset t _ _ _ _ _ _ Hv Hplugin Hx).
        destruct (compare_test_total t VUndefined Hv) as [[pass|] ->];
          reflexivity.
    + assert (Hv : cmp_needs_values (test_cmp t) = true ->
                   exists vs, test_data t = DataValues vs /\ vs <> []).
      { intros Hn'. congruence. }
      rewrite (matchValueTest_run plugins I offset t _ _ _ _ _ _ Hv Hplugin Hx).
      destruct (compare_test_total t VUndefined Hv) as [[pass|] ->];
        reflexivity.
  - intros Hc.
    assert (Hv : cmp_needs_values (test_cmp t) = true ->
                 exists vs, test_data t = DataValues vs /\ vs <> []).
    { rewrite Hc. discriminate. }
    rewrite (matchValueTest_run plugins I offset t _ _ _ _ _ _ Hv Hplugin Hx).
    unfold compare_test. rewrite Hc. simpl.
    rewrite bind_record_other_cmp by (rewrite Hc; discriminate).
    destruct x; reflexivity.
Qed.

(** [defined(op[0].seg)] on a call whose operand is an immediate: the
    extracted value is undefined and the test is false. *)
Lemma undefined_value_fails_every_comparison_witness :
  @matchEval ref_platform ∅
    (ExprTest (ref_seg_test MATCH_CMP_DEFINED DataNull)) ref_call 0x10
    None None 0%nat
  = Ok (false, None, 0%nat).
Proof.
  apply (proj1 (@undefined_value_fails_every_comparison ref_platform ∅
                  (ref_seg_test MATCH_CMP_DEFINED DataNull) ref_call 0x10
                  None None 0%nat 0%nat 0 VUndefined
                  eq_refl
                  (fun H => False_ind _ (Bool.diff_false_true H))
                  eq_refl eq_refl)).
  reflexivity.
Defined.

(** C5.  A [!=] test with a defined extracted value [x]: against a value
    set of exactly one element it evaluates to "[x] is not a member of the
    set"; against a value set of more than one element it evaluates to
    true, whatever [x] is. *)
Theorem neq_against_value_set
    {platform : Platform} (plugins : Plugins) (t : MatchTest) (I : cs_insn)
    (offset : Z) (basename : option string) (record : option RecordPtr)
    (st st' : RandState) (pv : Z) (x : MatchValue) (values : Index)
    (Hkind : value_kind (test_match t) = true)
    (Hcmp : test_cmp t = MATCH_CMP_NEQ)
    (Hdata : test_data t = DataValues values)
    (Hplugin : plugin_value plugins t = Ok pv)
    (Hx : makeMatchValue (test_match t) (test_idx t) (test_field t)
            I offset pv st = (x, st'))
    (Hdef : x <> VUndefined) :
  (length values = 1%nat ->
   matchEval plugins (ExprTest t) I offset basename record st
   = Ok (negb (member Register_value x (Index_keys values)), record, st'))
  /\ ((1 < length values)%nat ->
      matchEval plugins (ExprTest t) I offset basename record st
      = Ok (true, record, st')).
Proof.
  simpl. rewrite (matchTest_value_kind plugins I offset t) by exact Hkind.
  assert (Hrun : values <> [] ->
                 matchValueTest plugins t I offset basename record st
                 = Ok (if Index_size values =? 1
                       then negb (bool_decide
                                    (is_Some (Index_find Register_value values x)))
                       else true, record, st')).
  { intros Hne.
    rewrite (matchValueTest_run plugins I offset t basename record st st' pv x);
    eauto.
    unfold compare_test, test_values. rewrite Hcmp, Hdata. simpl.
    rewrite bind_record_other_cmp by (rewrite Hcmp; discriminate).
    destruct x; try reflexivity. congruence. }
  split; intros Hlen.
  - destruct values as [|[k r] [|e rest]]; try discriminate Hlen.
    rewrite Hrun by discriminate.
    rewrite find_singleton. reflexivity.
  - destruct values as [|e1 [|e2 rest]]; simpl in Hlen; try lia.
    rewrite Hrun by discriminate.
    replace (Index_size (e1 :: e2 :: rest) =? 1) with false; [reflexivity|].
    symmetry. apply Z.eqb_neq. unfold Index_size. simpl length. lia.
Qed.

(** [size != 5] on a 5-byte call is false; the set [{5}] has one element. *)
Lemma neq_against_value_set_witness :
  @matchEval ref_platform ∅
    (ExprTest (ref_size_test MATCH_CMP_NEQ ref_single None)) ref_call 0x10
    None None 0%nat
  = Ok (false, None, 0%nat).
Proof.
  apply (proj1 (@neq_against_value_set ref_platform ∅
                  (ref_size_test MATCH_CMP_NEQ ref_single None) ref_call 0x10
                  None None 0%nat 0%nat 0 (VInteger 5) ref_single
                  eq_refl eq_refl eq_refl eq_refl eq_refl
                  ltac:(discriminate))).
  reflexivity.
Defined.

(** C6.  With a non-empty value set and a defined extracted value [x], the
    tests [<] and [<=] compare [x] with the maximum of the set, the tests
    [>] and [>=] with its minimum; maximum and minimum are those of the
    order that looks at the type tag first and at the payload second, and
    the four comparisons are those of that order: [operator<] is its strict
    part, [operator<=] the order itself, [operator>] and [operator>=] their
    converses. *)
Theorem ordered_tests_use_the_extremes
    {platform : Platform} (plugins : Plugins) (t : MatchTest) (I : cs_insn)
    (offset : Z) (basename : option string) (record : option RecordPtr)
    (st st' : RandState) (pv : Z) (x : MatchValue) (values : Index)
    (Hkind : value_kind (test_match t) = true)
    (Hdata : test_data t = DataValues values)
    (Hnonempty : values <> [])
    (Hvalid : Index_valid Register_value values = true)
    (Hplugin : plugin_value plugins t = Ok pv)
    (Hx : makeMatchValue (test_match t) (test_idx t) (test_field t)
            I offset pv st = (x, st'))
    (Hdef : x <> VUndefined) :
  exists vmax vmin,
    is_maximum Register_value vmax (Index_keys values)
    /\ is_minimum Register_value vmin (Index_keys values)
    /\ (forall a b,
          (MatchValue_lt Register_value a b = true
           <-> rank_lt Register_value a b)
          /\ (MatchValue_le Register_value a b = true
              <-> rank_le Register_value a b)
          /\ (MatchValue_gt Register_value a b = true
              <-> rank_lt Register_value b a)
          /\ (MatchValue_ge Register_value a b = true
              <-> rank_le Register_value b a))
    /\ match test_cmp t with
       | MATCH_CMP_LT =>
           matchEval plugins (ExprTest t) I offset basename record st
           = Ok (MatchValue_lt Register_value x vmax, record, st')
       | MATCH_CMP_LEQ =>
           matchEval plugins (ExprTest t) I offset basename record st
           = Ok (MatchValue_le Register_value x vmax, record, st')
       | MATCH_CMP_GT =>
           matchEval plugins (ExprTest t) I offset basename record st
           = Ok (MatchValue_gt Register_value x vmin, record, st')
       | MATCH_CMP_GEQ =>
           matchEval plugins (ExprTest t) I offset basename record st
           = Ok (MatchValue_ge Register_value x vmin, record, st')
       | _ => True
       end.
Proof.
  destruct (nonempty_rbegin values Hnonempty) as (vmax & rmax & Hlast).
  destruct (nonempty_begin values Hnonempty) as (vmin & rmin & Hfirst).
  exists vmax, vmin.
  split; [eapply rbegin_is_maximum; eassumption|].
  split; [eapply begin_is_minimum; eassumption|].
  split; [apply operators_are_the_order|].
  simpl. rewrite (matchTest_value_kind plugins I offset t) by exact Hkind.
  rewrite (matchValueTest_run plugins I offset t basename record st st' pv x);
    eauto.
  unfold compare_test, test_values. rewrite Hdata.
  destruct (test_cmp t) eqn:Hcmp; try exact Logic.I; simpl;
    rewrite ?Hlast, ?Hfirst; simpl;
    (rewrite bind_record_other_cmp by (rewrite Hcmp; discriminate));
    destruct x; try reflexivity; congruence.
Qed.

(** [size < {3, 5, 9}] on a 5-byte call: 5 is below the maximum 9. *)
Lemma ordered_tests_use_the_extremes_witness :
  exists vmax vmin,
    is_maximum ref_Register_value vmax (Index_keys ref_sites)
    /\ is_minimum ref_Register_value vmin (Index_keys ref_sites)
    /\ (forall a b,
          (MatchValue_lt ref_Register_value a b = true
           <-> rank_lt ref_Register_value a b)
          /\ (MatchValue_le ref_Register_value a b = true
              <-> rank_le ref_Register_value a b)
          /\ (MatchValue_gt ref_Register_value a b = true
              <-> rank_lt ref_Register_value b a)
          /\ (MatchValue_ge ref_Register_value a b = true
              <-> rank_le ref_Register_value b a))
    /\ @matchEval ref_platform ∅
         (ExprTest (ref_size_test MATCH_CMP_LT ref_sites None)) ref_call 0x10
         None None 0%nat
       = Ok (MatchValue_lt ref_Register_value (VInteger 5) vmax, None, 0%nat).
Proof.
  exact (@ordered_tests_use_the_extremes ref_platform ∅
           (ref_size_test MATCH_CMP_LT ref_sites None) ref_call 0x10
           None None 0%nat 0%nat 0 (VInteger 5) ref_sites
           eq_refl eq_refl ltac:(discriminate) eq_refl eq_refl eq_refl
           ltac:(discriminate)).
Defined.

(** C10.  A test with one of the comparisons [=], [!=], [<], [<=], [>],
    [>=] and an empty value set evaluates to false, and it does so before
    any iterator is read: the evaluation ends normally, although the ordered
    comparisons of the inner switch would read [begin()] or [rbegin()] of an
    empty set had they been reached. *)
Theorem empty_value_set_is_false
    {platform : Platform} (plugins : Plugins) (t : MatchTest) (I : cs_insn)
    (offset : Z) (basename : option string) (record : option RecordPtr)
    (st : RandState)
    (Hkind : value_kind (test_match t) = true)
    (Hcmp : In (test_cmp t)
              [MATCH_CMP_EQ; MATCH_CMP_NEQ; MATCH_CMP_LT; MATCH_CMP_LEQ;
               MATCH_CMP_GT; MATCH_CMP_GEQ])
    (Hdata : test_data t = DataValues []) :
  matchEval plugins (ExprTest t) I offset basename record st
  = Ok (false, record, st)
  /\ (In (test_cmp t)
        [MATCH_CMP_LT; MATCH_CMP_LEQ; MATCH_CMP_GT; MATCH_CMP_GEQ] ->
      forall x, compare_test t x = Crash).
Proof.
  split.
  - simpl. rewrite (matchTest_value_kind plugins I offset t) by exact Hkind.
    apply matchValueTest_empty; [|exact Hdata].
    simpl in Hcmp.
    destruct Hcmp as [<-|[<-|[<-|[<-|[<-|[<-|[]]]]]]]; reflexivity.
  - intros Hord x. unfold compare_test, test_values. rewrite Hdata.
    simpl in Hord.
    destruct Hord as [<-|[<-|[<-|[<-|[]]]]]; reflexivity.
Qed.

(** [size < {}] on a call. *)
Lemma empty_value_set_is_false_witness :
  @matchEval ref_platform ∅
    (ExprTest (ref_size_test MATCH_CMP_LT [] None)) ref_call 0x10
    None None 0%nat
  = Ok (false, None, 0%nat).
Proof.
  apply (@empty_value_set_is_false ref_platform ∅
           (ref_size_test MATCH_CMP_LT [] None) ref_call 0x10
           None None 0%nat eq_refl).
  - simpl. tauto.
  - reflexivity.
Defined.

(** ** The record slot of a CSV-tracked evaluation *)

Section RecordFacts.

Context {platform : Platform}.
Variables (plugins : Plugins) (I : cs_insn) (offset : Z).

Lemma matchValueTest_bound (t : MatchTest) basename (r : nat) st b record' st' :
  matchValueTest plugins t I offset basename (Some (Some r)) st
  = Ok (b, record', st') ->
  record' = Some (Some r).
Proof.
  unfold matchValueTest.
  destruct (if cmp_needs_values (test_cmp t)
            then let* values := test_values t in Ok (Index_size values =? 0)
            else Ok false) as [empty| |]; simpl; try discriminate.
  destruct empty; [intros H; injection H as <- <- <-; reflexivity|].
  destruct (plugin_value plugins t) as [pv| |]; simpl; try discriminate.
  destruct (makeMatchValue _ _ _ I offset pv st) as [x st1].
  destruct (compare_test t x) as [[pass|]| |]; simpl; try discriminate.
  - destruct (bind_record t x _ basename (Some (Some r))) as [rec1| |] eqn:Eb;
      simpl; try discriminate.
    intros H. injection H as <- <- <-.
    eapply bind_record_bound. exact Eb.
  - intros H; injection H as <- <- <-; reflexivity.
Qed.

Lemma matchTest_bound (t : MatchTest) basename (r : nat) st b record' st' :
  matchTest plugins t I offset basename (Some (Some r)) st
  = Ok (b, record', st') ->
  record' = Some (Some r).
Proof.
  unfold matchTest.
  destruct (test_match t); try apply matchValueTest_bound.
  - intros H; injection H as <- <- <-; reflexivity.
  - destruct (test_cmp t);
      try (intros H; injection H as <- <- <-; reflexivity);
      (destruct (makeMatchString _ I _) as [str| |]; simpl; try discriminate;
       destruct (test_regex t) as [re| |]; simpl; try discriminate;
       intros H; injection H as <- <- <-; reflexivity).
  - destruct (test_cmp t);
      try (intros H; injection H as <- <- <-; reflexivity);
      (destruct (test_regex t) as [re| |]; simpl; try discriminate;
       intros H; injection H as <- <- <-; reflexivity).
  - destruct (test_cmp t);
      try (intros H; injection H as <- <- <-; reflexivity);
      (destruct (cs_regs_access I) as [[reads writes]|]; try discriminate;
       destruct (regs_loop t reads) as [[|]| |]; simpl; try discriminate;
       try destruct (regs_loop t writes) as [[|]| |]; simpl; try discriminate;
       intros H; injection H as <- <- <-; reflexivity).
  - destruct (test_cmp t);
      try (intros H; injection H as <- <- <-; reflexivity);
      (destruct (cs_regs_access I) as [[reads writes]|]; try discriminate;
       destruct (regs_loop t reads) as [[|]| |]; simpl; try discriminate;
       intros H; injection H as <- <- <-; reflexivity).
  - destruct (test_cmp t);
      try (intros H; injection H as <- <- <-; reflexivity);
      (destruct (cs_regs_access I) as [[reads writes]|]; try discriminate;
       simpl;
       destruct (regs_loop t writes) as [[|]| |]; simpl; try discriminate;
       intros H; injection H as <- <- <-; reflexivity).
Qed.

Lemma matchEval_bound (expr : MatchExpr) :
  forall basename (r : nat) st b record' st',
    matchEval plugins expr I offset basename (Some (Some r)) st
    = Ok (b, record', st') ->
    record' = Some (Some r).
Proof.
  induction expr as [|e IH|e1 IH1 e2 IH2|e1 IH1 e2 IH2|t];
    intros basename r st b record' st'; simpl.
  - intros H; injection H as <- <- <-; reflexivity.
  - destruct (matchEval plugins e I offset None None st)
      as [[[pass rec1] st1]| |]; simpl; try discriminate.
    intros H; injection H as <- <- <-; reflexivity.
  - destruct (matchEval plugins e1 I offset basename (Some (Some r)) st)
      as [[[pass rec1] st1]| |] eqn:E1; simpl; try discriminate.
    apply IH1 in E1 as ->.
    destruct pass; simpl.
    + apply IH2.
    + intros H; injection H as <- <- <-; reflexivity.
  - destruct (matchEval plugins e1 I offset basename (Some (Some r)) st)
      as [[[pass rec1] st1]| |] eqn:E1; simpl; try discriminate.
    apply IH1 in E1 as ->.
    destruct pass; simpl.
    + intros H; injection H as <- <- <-; reflexivity.
    + apply IH2.
  - apply matchTest_bound.
Qed.

End RecordFacts.

(** C7.  In an evaluation that tracks a CSV record (a base name and a
    record slot), a slot that holds a record holds the same record whenever
    the evaluation ends normally: no second record is ever bound.  A
    successful equality test through the same base name that finds a record
    other than the one in the slot ends the program with the ambiguity
    error. *)
Theorem csv_record_is_bound_once
    {platform : Platform} (plugins : Plugins) (I : cs_insn) (offset : Z) :
  (forall expr basename (r : nat) st b record' st',
      matchEval plugins expr I offset basename (Some (Some r)) st
      = Ok (b, record', st') ->
      record' = Some (Some r))
  /\ (forall t bn (r : nat) st st' pv x values k second,
        value_kind (test_match t) = true ->
        test_cmp t = MATCH_CMP_EQ ->
        test_basename t = Some bn ->
        test_data t = DataValues values ->
        plugin_value plugins t = Ok pv ->
        makeMatchValue (test_match t) (test_idx t) (test_field t)
          I offset pv st = (x, st') ->
        x <> VUndefined ->
        Index_find Register_value values x = Some (k, second) ->
        second <> Some r ->
        matchEval plugins (ExprTest t) I offset (Some bn) (Some (Some r)) st
        = Fatal "failed to lookup value from file; matching is ambiguous").
Proof.
  split.
  - intros expr. apply matchEval_bound.
  - intros t bn r st st' pv x values k second
      Hkind Hcmp Hbn Hdata Hplugin Hx Hdef Hfind Hother.
    simpl. rewrite (matchTest_value_kind plugins I offset t) by exact Hkind.
    assert (Hne : values <> []) by (intros ->; discriminate Hfind).
    rewrite (matchValueTest_run plugins I offset t (Some bn)
               (Some (Some r)) st st' pv x); eauto.
    unfold compare_test, test_values. rewrite Hcmp, Hdata. simpl.
    rewrite Hfind. rewrite bool_decide_eq_true_2 by eauto.
    replace (is_undefined x) with false
      by (destruct x; first [reflexivity|congruence]).
    unfold bind_record, same_basename, test_values.
    rewrite Hcmp, Hbn, Hdata. simpl. rewrite String.eqb_refl. simpl.
    rewrite Hfind.
    destruct (RecordPtr_eqb second (Some r)) eqn:E.
    + apply RecordPtr_eqb_eq in E. congruence.
    + reflexivity.
Qed.

(** [size = "sites"[0]] on a 5-byte call finds record 1 of [sites.csv];
    with record 0 already in the slot the evaluation is ambiguous. *)
Lemma csv_record_is_bound_once_witness :
  @matchEval ref_platform ∅
    (ExprTest (ref_size_test MATCH_CMP_EQ ref_sites (Some "sites")))
    ref_call 0x10 (Some "sites") (Some (Some 0%nat)) 0%nat
  = Fatal "failed to lookup value from file; matching is ambiguous".
Proof.
  apply (proj2 (@csv_record_is_bound_once ref_platform ∅ ref_call 0x10)
           (ref_size_test MATCH_CMP_EQ ref_sites (Some "sites")) "sites"
           0%nat 0%nat 0%nat 0 (VInteger 5) ref_sites
           (VInteger 5) (Some 1%nat)).
  - reflexivity.
  - reflexivity.
  - reflexivity.
  - reflexivity.
  - reflexivity.
  - reflexivity.
  - discriminate.
  - reflexivity.
  - discriminate.
Defined.

(** ** Plugin loading *)

Section OpenPluginFacts.

Context {loader : Loader}.

(** On a first load the "no plugin API functions" error is raised exactly
    when the init, instr, patch and fini entry points are all missing; the
    match entry point is not looked at. *)
Lemma openPlugin_first_load (basename pathname : string) (handle : Z)
    (st : PluginState) :
  realpath (if negb (hasSuffix basename ".so")
            then (basename +:+ ".so")%string else basename)
  = Some pathname ->
  plugins st !! pathname = None ->
  dlopen pathname = Some handle ->
  (exists msg, openPlugin basename st = Fatal msg)
  <-> (dlsym handle "e9_plugin_init_v1" = None
       /\ dlsym handle "e9_plugin_instr_v1" = None
       /\ dlsym handle "e9_plugin_patch_v1" = None
       /\ dlsym handle "e9_plugin_fini_v1" = None).
Proof.
  intros Hpath Hnew Hopen. unfold openPlugin.
  rewrite Hpath, Hnew, Hopen. simpl.
  destruct (dlsym handle "e9_plugin_init_v1") as [f1|];
    destruct (dlsym handle "e9_plugin_instr_v1") as [f2|];
    destruct (dlsym handle "e9_plugin_patch_v1") as [f3|];
    destruct (dlsym handle "e9_plugin_fini_v1") as [f4|];
    repeat case_bool_decide; try congruence; simpl; split;
    first [ intros [msg Hm]; discriminate Hm
          | intros (E1 & E2 & E3 & E4); discriminate
          | intros _; repeat split; reflexivity
          | intros _; eexists; reflexivity ].
Qed.

End OpenPluginFacts.

(** C8.  A shared object that exports exactly one of the five entry points,
    the match entry point, is loaded for the first time: the check of
    [openPlugin] looks at init, instr, patch and fini only and raises the
    error "does not export any plugin API functions", where the
    specification has the load succeed as soon as one of the five is
    exported. *)
Theorem openPlugin_rejects_match_only_plugin :
  @dlsym match_only_loader 1 "e9_plugin_match_v1" = Some 4096
  /\ In "e9_plugin_match_v1"%string plugin_api
  /\ @openPlugin match_only_loader "counter" no_plugins
     = Fatal ("failed to load plugin " +:+ quoted "/plugins/counter.so"
              +:+ "; the shared object does not export any plugin API functions").
Proof.
  split; [reflexivity|]. split; [simpl; tauto|]. reflexivity.
Qed.

(** ** Memory-operand literals *)

(** The [%rip] test reads [memop.scale], which still holds its initial
    value 1 when the test runs: it never fires. *)
Lemma rip_guard_never_fires (memop : MemOp) :
  memop_scale memop = 1 ->
  Register_eqb (memop_base memop) REGISTER_RIP
  && negb (Register_eqb (memop_index memop) REGISTER_NONE)
  && negb (memop_scale memop =? 1) = false.
Proof. intros ->. rewrite andb_false_r. reflexivity. Qed.

(** Every [%rip]-based literal with a valid index register and a valid
    scale is accepted. *)
Lemma parseMemOp_accepts_rip_with_index (index : Register) (scale : Z)
    (mode : string) :
  valid_index index = true ->
  valid_scale scale = true ->
  parseMemOp
    {| parser_tokens :=
         [ TOKEN_CHAR "<"; TOKEN_CHAR "("; TOKEN_REGISTER REGISTER_RIP;
           TOKEN_CHAR ","; TOKEN_REGISTER index; TOKEN_CHAR ",";
           TOKEN_INTEGER scale; TOKEN_CHAR ")"; TOKEN_CHAR ">" ]%char;
       parser_mode := mode |}
    TOKEN_MEM64
  = Ok ({| memop_seg := REGISTER_NONE; memop_disp := 0;
           memop_base := REGISTER_RIP; memop_index := index;
           memop_scale := to_uint8 scale; memop_size := 1 |},
        {| parser_tokens := []; parser_mode := mode |}).
Proof.
  intros Hi Hs. unfold parseMemOp. cbn.
  unfold memop_validate. cbn. rewrite Hi, Hs. cbn.
  rewrite andb_false_r. reflexivity.
Qed.

(** C9.  The literal [mem64<(%rip,%rax,2)>] has the base register [%rip],
    an index register and a scale other than 1: the specification has
    [parseMemOp] raise a fatal error, the code accepts the literal and
    returns the operand. *)
Theorem parseMemOp_accepts_rip_index_scale :
  parseMemOp (action_parser rip_indexed_tokens) TOKEN_MEM64
  = Ok ({| memop_seg := REGISTER_NONE; memop_disp := 0;
           memop_base := REGISTER_RIP; memop_index := REGISTER_RAX;
           memop_scale := 2; memop_size := 1 |},
        action_parser []).
Proof. reflexivity. Qed.

(** ** The reverse walk *)

Section WalkFacts.

Variables (text_addr text_offset addr : Z).

Local Abbreviation outside loc := (out_of_window text_addr addr loc).
Local Abbreviation send_at' := (send_at text_addr text_offset addr).
Local Abbreviation walk_down' := (walk_down text_addr text_offset addr).
Local Abbreviation walk_up' := (walk_up text_addr text_offset addr).

(** The three ways a call on [locs[j]] can go. *)
Lemma send_at_outside (j : nat) (locs : list Location) (loc : Location) :
  locs !! j = Some loc -> outside loc = true ->
  send_at' j locs = ([], Ok (false, locs)).
Proof.
  intros Hj Ho. unfold send_at, sendInstructionMessage. rewrite Hj, Ho.
  rewrite list_insert_id by exact Hj. reflexivity.
Qed.

Lemma send_at_emitted (j : nat) (locs : list Location) (loc : Location) :
  locs !! j = Some loc -> outside loc = false -> loc_emitted loc = true ->
  send_at' j locs = ([], Ok (true, locs)).
Proof.
  intros Hj Ho He. unfold send_at, sendInstructionMessage. rewrite Hj, Ho, He.
  rewrite list_insert_id by exact Hj. reflexivity.
Qed.

Lemma send_at_fresh (j : nat) (locs : list Location) (loc : Location) :
  locs !! j = Some loc -> outside loc = false -> loc_emitted loc = false ->
  send_at' j locs
  = ([(j, MsgInstruction (to_int64 (text_addr + loc_offset loc))
            (loc_size loc) (to_int64 (text_offset + loc_offset loc)))],
     Ok (true, <[j := set_emitted loc]> locs)).
Proof.
  intros Hj Ho He. unfold send_at, sendInstructionMessage. rewrite Hj, Ho, He.
  reflexivity.
Qed.

Lemma instruction_count_app (j : nat) (l1 l2 : list Event) :
  instruction_count j (l1 ++ l2)
  = (instruction_count j l1 + instruction_count j l2)%nat.
Proof.
  induction l1 as [|e l1 IH]; simpl; [reflexivity|]. rewrite IH. lia.
Qed.

Lemma instruction_count_one (j k : nat) (a s o : Z) :
  instruction_count j [(k, MsgInstruction a s o)]
  = if Nat.eqb k j then 1%nat else 0%nat.
Proof. simpl. destruct (Nat.eqb k j); reflexivity. Qed.

Lemma sticky_ret {A : Type} (get : A -> list Location) (a : A) :
  sticky get (get a) (emit_ret a).
Proof.
  intros j. simpl. split.
  - destruct (emitted_at (get a) j); simpl; lia.
  - intros a' H. injection H as <-. reflexivity.
Qed.

Lemma sticky_bind {A B : Type} (getA : A -> list Location)
    (getB : B -> list Location) (locs : list Location) (m : Emit A)
    (k : A -> Emit B) :
  sticky getA locs m ->
  (forall a, snd m = Ok a -> sticky getB (getA a) (k a)) ->
  sticky getB locs (emit_bind m k).
Proof.
  intros Hm Hk j. destruct (Hm j) as [Hle Hflag].
  destruct m as [w [a| |]]; simpl in *.
  - specialize (Hflag a eq_refl). specialize (Hk a eq_refl j).
    destruct (k a) as [w' r]. simpl in *. destruct Hk as [Hle' Hflag'].
    rewrite instruction_count_app. split; [lia|].
    intros b Hb. rewrite (Hflag' b Hb). lia.
  - split; [exact Hle|]. intros b Hb. discriminate Hb.
  - split; [exact Hle|]. intros b Hb. discriminate Hb.
Qed.

Lemma emitted_at_insert (locs : list Location) (j k : nat)
    (loc : Location) :
  locs !! j = Some loc ->
  emitted_at (<[j := set_emitted loc]> locs) k
  = if Nat.eqb j k then true else emitted_at locs k.
Proof.
  intros Hj. unfold emitted_at. destruct (Nat.eqb_spec j k) as [<-|Hne].
  - rewrite list_lookup_insert_eq by (eapply lookup_lt_Some; exact Hj).
    reflexivity.
  - rewrite list_lookup_insert_ne by exact Hne. reflexivity.
Qed.

Lemma sticky_send_at (j : nat) (locs : list Location) :
  sticky snd locs (send_at' j locs).
Proof.
  destruct (locs !! j) as [loc|] eqn:Hj.
  - destruct (outside loc) eqn:Ho;
      [rewrite (send_at_outside j locs loc Hj Ho);
       apply (sticky_ret snd (false, locs))|].
    destruct (loc_emitted loc) eqn:He;
      [rewrite (send_at_emitted j locs loc Hj Ho He);
       apply (sticky_ret snd (true, locs))|].
    rewrite (send_at_fresh j locs loc Hj Ho He). intros k.
    cbn [fst snd]. rewrite instruction_count_one.
    assert (Hk : Nat.eqb j k = true -> emitted_at locs k = false).
    { intros E. apply Nat.eqb_eq in E as <-. unfold emitted_at.
      rewrite Hj. exact He. }
    split.
    + destruct (Nat.eqb j k); [rewrite Hk by reflexivity; simpl; lia|].
      destruct (emitted_at locs k); simpl; lia.
    + intros a Ha. injection Ha as <-. cbn [snd].
      rewrite (emitted_at_insert locs j k loc Hj).
      destruct (Nat.eqb j k); [rewrite Hk by reflexivity|]; reflexivity.
  - unfold send_at. rewrite Hj. intros k. simpl. split.
    + destruct (emitted_at locs k); simpl; lia.
    + intros a Ha. discriminate Ha.
Qed.

Lemma sticky_walk_down (j : nat) :
  forall locs, sticky id locs (walk_down' j locs).
Proof.
  induction j as [|j IH]; intros locs; simpl;
    (eapply (sticky_bind snd id); [apply sticky_send_at|]);
    intros [r locs1] _; cbn [snd]; destruct r;
    first [apply (sticky_ret id locs1) | apply IH].
Qed.

Lemma sticky_walk_up (n : nat) :
  forall j locs, sticky id locs (walk_up' n j locs).
Proof.
  induction n as [|n IH]; intros j locs; simpl.
  - apply (sticky_ret id locs).
  - eapply (sticky_bind snd id); [apply sticky_send_at|].
    intros [r locs1] _; cbn [snd]; destruct r;
      first [apply IH | apply (sticky_ret id locs1)].
Qed.

Lemma sticky_send_window (i : nat) (locs : list Location) :
  sticky id locs (send_window text_addr text_offset addr i locs).
Proof.
  unfold send_window. eapply (sticky_bind id id); [apply sticky_walk_down|].
  intros locs1 _. apply sticky_walk_up.
Qed.

End WalkFacts.

Section WholeWalkFacts.

Variables (text_addr text_offset : Z) (redisassemble : Z -> Z -> Z -> bool)
  (plugin_table : Plugins) (actions : list Action).

Lemma sticky_send_patch (locs : list Location) (i : nat) (loc : Location)
    (offset id : Z) :
  sticky (fun _ : unit => locs) locs
    (send_patch plugin_table actions i loc offset id).
Proof.
  assert (Hcrash : sticky (fun _ : unit => locs) locs ([], Crash)).
  { intros j. simpl. split; [destruct (emitted_at locs j); simpl; lia|].
    intros a Ha; discriminate Ha. }
  assert (Hone : forall e, is_instruction_of_any e = false ->
                           sticky (fun _ : unit => locs) locs ([e], Ok tt)).
  { intros e He j. simpl. unfold is_instruction_of_any in He.
    destruct e as [k [a s o|name o d|key o]]; try discriminate He;
      simpl; (split; [destruct (emitted_at locs j); simpl; lia|]);
      intros a' _; reflexivity. }
  unfold send_patch.
  destruct (actions !! Z.to_nat (loc_action loc)) as [action|]; [|exact Hcrash].
  destruct (action_kind action); try (apply Hone; reflexivity).
  destruct (action_plugin action) as [key|]; [|exact Hcrash].
  destruct (plugin_table !! key) as [p|]; [|exact Hcrash].
  destruct (patchFunc p); [apply Hone; reflexivity|].
  apply (sticky_ret (fun _ : unit => locs) tt).
Qed.

Lemma sticky_patch_site (i : nat) (locs : list Location) (pid : Z) :
  sticky fst locs
    (patch_site text_addr text_offset redisassemble plugin_table actions
       i locs pid).
Proof.
  assert (Hstop : forall r : Outcome (list Location * Z),
             (forall a, r <> Ok a) -> sticky fst locs ([], r)).
  { intros r Hr j. simpl. split; [destruct (emitted_at locs j); simpl; lia|].
    intros a Ha. destruct (Hr a Ha). }
  unfold patch_site.
  destruct (locs !! i) as [loc|]; [|apply Hstop; discriminate].
  destruct (negb (loc_patch loc)); [apply (sticky_ret fst (locs, pid))|].
  destruct (negb (redisassemble _ _ _)); [apply Hstop; discriminate|].
  eapply (sticky_bind id fst); [apply sticky_send_window|].
  intros locs1 _.
  eapply (sticky_bind (fun _ : unit => locs1) fst);
    [apply sticky_send_patch|].
  intros [] _. apply (sticky_ret fst (locs1, pid + 1)).
Qed.

Lemma sticky_walk_sites (n : nat) :
  forall locs pid,
    sticky fst locs
      (walk_sites text_addr text_offset redisassemble plugin_table actions
         n locs pid).
Proof.
  induction n as [|n IH]; intros locs pid; simpl.
  - apply (sticky_ret fst (locs, pid)).
  - eapply (sticky_bind fst fst); [apply sticky_patch_site|].
    intros [locs1 pid1] _. apply IH.
Qed.

End WholeWalkFacts.

Section WindowFacts.

Variables (text_addr text_offset addr : Z).

Local Abbreviation outside loc := (out_of_window text_addr addr loc).
Local Abbreviation down := (reaches_down text_addr addr).
Local Abbreviation up := (reaches_up text_addr addr).

Lemma down_blocked locs hi j loc :
  locs !! hi = Some loc -> outside loc = true -> ~ down locs hi j.
Proof.
  intros Hhi Ho (lj & Hj & Hle & _ & Hall).
  rewrite (Hall hi loc ltac:(lia) Hhi) in Ho. discriminate.
Qed.

Lemma down_top_fresh locs hi loc :
  locs !! hi = Some loc -> outside loc = false -> loc_emitted loc = false ->
  down locs hi hi.
Proof.
  intros Hhi Ho He. exists loc. repeat split; [exact Hhi|lia|exact He|].
  intros k lk Hk Hlk. replace k with hi in Hlk by lia. congruence.
Qed.

Lemma down_top_emitted locs hi loc :
  locs !! hi = Some loc -> loc_emitted loc = true -> ~ down locs hi hi.
Proof. intros Hhi He (lj & Hj & _ & Hf & _). congruence. Qed.

Lemma down_extend locs hi j loc :
  locs !! S hi = Some loc -> outside loc = false -> j <> S hi ->
  down locs (S hi) j <-> down locs hi j.
Proof.
  intros Hhi Ho Hne. split; intros (lj & Hj & Hle & Hf & Hall);
    exists lj; repeat split; try assumption; try lia.
  - intros k lk Hk. apply Hall. lia.
  - intros k lk Hk Hlk. destruct (Nat.eq_dec k (S hi)) as [->|Hk'].
    + congruence.
    + apply (Hall k lk); [lia|exact Hlk].
Qed.

Lemma down_agree locs locs' hi j :
  (forall k, (k <= hi)%nat -> locs' !! k = locs !! k) ->
  down locs' hi j <-> down locs hi j.
Proof.
  intros Hag. split; intros (lj & Hj & Hle & Hf & Hall);
    exists lj; repeat split; try assumption.
  - rewrite <- Hag by lia. exact Hj.
  - intros k lk Hk Hlk. apply (Hall k lk Hk). rewrite Hag by lia. exact Hlk.
  - rewrite Hag by lia. exact Hj.
  - intros k lk Hk Hlk. apply (Hall k lk Hk). rewrite <- Hag by lia. exact Hlk.
Qed.

Lemma count_zero_of_not_one (n : nat) : (n <= 1)%nat -> n <> 1%nat -> n = 0%nat.
Proof. lia. Qed.

Lemma sticky_count_le {A : Type} (get : A -> list Location) locs
    (m : Emit A) (j : nat) :
  sticky get locs m -> (instruction_count j (fst m) <= 1)%nat.
Proof. intros H. destruct (H j) as [Hle _]. lia. Qed.

(** The downward loop from [hi]. *)
Lemma walk_down_spec (hi : nat) :
  forall locs,
    (hi < length locs)%nat ->
    exists log locs',
      walk_down text_addr text_offset addr hi locs = (log, Ok locs')
      /\ length locs' = length locs
      /\ (forall k, (hi < k)%nat -> locs' !! k = locs !! k)
      /\ forall j, instruction_count j log = 1%nat <-> down locs hi j.
Proof.
  induction hi as [|hi IH]; intros locs Hlen;
    destruct (lookup_lt_is_Some_2 locs _ Hlen) as [loc Hhi];
    cbn [walk_down];
    (destruct (outside loc) eqn:Ho;
     [rewrite (send_at_outside text_addr text_offset addr _ locs loc Hhi Ho);
      exists [], locs; repeat split; try reflexivity;
      [intros Hc; discriminate Hc
      |intros Hd; exfalso; exact (down_blocked locs _ j loc Hhi Ho Hd)]|]).
  - (* the loop ends at index 0 *)
    destruct (loc_emitted loc) eqn:He.
    + rewrite (send_at_emitted text_addr text_offset addr _ locs loc Hhi Ho He).
      exists [], locs. repeat split; try reflexivity.
      * intros Hc; discriminate Hc.
      * intros (lj & Hj & Hle & Hf & _).
        replace j with 0%nat in Hj by lia. congruence.
    + rewrite (send_at_fresh text_addr text_offset addr _ locs loc Hhi Ho He).
      eexists _, _. split; [reflexivity|]. split; [apply length_insert|].
      split; [intros k Hk; apply list_lookup_insert_ne; lia|].
      intros j. cbn [app]. rewrite instruction_count_one. split.
      * destruct (Nat.eqb_spec 0 j) as [<-|]; [|discriminate].
        intros _. exact (down_top_fresh locs 0%nat loc Hhi Ho He).
      * intros (lj & Hj & Hle & _). replace j with 0%nat by lia. reflexivity.
  - destruct (loc_emitted loc) eqn:He.
    + rewrite (send_at_emitted text_addr text_offset addr _ locs loc Hhi Ho He).
      destruct (IH locs ltac:(lia)) as (log & locs' & Hrun & Hlen' & Hkeep & Hiff).
      cbn [emit_bind]. rewrite Hrun. cbn [app].
      exists log, locs'. repeat split; try assumption.
      * intros k Hk. apply Hkeep. lia.
      * intros Hc. apply Hiff in Hc.
        destruct (Nat.eq_dec j (S hi)) as [->|Hne].
        -- destruct Hc as (_ & _ & Hle & _). lia.
        -- apply (down_extend locs hi j loc Hhi Ho Hne). exact Hc.
      * intros Hd. apply Hiff.
        destruct (Nat.eq_dec j (S hi)) as [->|Hne].
        -- destruct (down_top_emitted locs (S hi) loc Hhi He Hd).
        -- apply (down_extend locs hi j loc Hhi Ho Hne). exact Hd.
    + rewrite (send_at_fresh text_addr text_offset addr _ locs loc Hhi Ho He).
      set (locs1 := <[S hi := set_emitted loc]> locs).
      assert (Hlen1 : length locs1 = length locs) by apply length_insert.
      assert (Hag : forall k, (k <= hi)%nat -> locs1 !! k = locs !! k).
      { intros k Hk. apply list_lookup_insert_ne. lia. }
      destruct (IH locs1 ltac:(lia))
        as (log & locs' & Hrun & Hlen' & Hkeep & Hiff).
      pose proof (sticky_walk_down text_addr text_offset addr hi locs1) as Hst.
      rewrite Hrun in Hst.
      cbn [emit_bind]. rewrite Hrun.
      eexists _, locs'. split; [reflexivity|]. split; [lia|].
      split.
      { intros k Hk. rewrite Hkeep by lia.
        apply list_lookup_insert_ne. lia. }
      intros j. cbn [app instruction_count is_instruction_of].
      destruct (Nat.eqb_spec (S hi) j) as [<-|Hne].
      * assert (Hz : instruction_count (S hi) log = 0%nat).
        { apply count_zero_of_not_one.
          - exact (sticky_count_le id locs1 (log, Ok locs') (S hi) Hst).
          - intros Hc. apply Hiff in Hc. destruct Hc as (_ & _ & Hle & _). lia. }
        rewrite Hz. split; [|reflexivity].
        intros _. exact (down_top_fresh locs (S hi) loc Hhi Ho He).
      * cbn [Nat.add]. rewrite Hiff.
        rewrite (down_agree locs locs1 hi j Hag).
        symmetry. apply (down_extend locs hi j loc Hhi Ho). lia.
Qed.

Lemma up_blocked locs lo bound j loc :
  locs !! lo = Some loc -> outside loc = true -> ~ up locs lo bound j.
Proof.
  intros Hlo Ho (lj & Hj & Hle & _ & Hall).
  rewrite (Hall lo loc ltac:(lia) Hlo) in Ho. discriminate.
Qed.

Lemma up_bottom_fresh locs lo bound loc :
  locs !! lo = Some loc -> outside loc = false -> loc_emitted loc = false ->
  (lo < bound)%nat -> up locs lo bound lo.
Proof.
  intros Hlo Ho He Hb. exists loc. repeat split; [exact Hlo|lia|lia|exact He|].
  intros k lk Hk Hlk. replace k with lo in Hlk by lia. congruence.
Qed.

Lemma up_bottom_emitted locs lo bound loc :
  locs !! lo = Some loc -> loc_emitted loc = true -> ~ up locs lo bound lo.
Proof. intros Hlo He (lj & Hj & _ & Hf & _). congruence. Qed.

Lemma up_extend locs lo bound j loc :
  locs !! lo = Some loc -> outside loc = false -> j <> lo ->
  up locs lo bound j <-> up locs (S lo) bound j.
Proof.
  intros Hlo Ho Hne. split; intros (lj & Hj & Hle & Hf & Hall);
    exists lj; repeat split; try assumption; try lia.
  - intros k lk Hk. apply Hall. lia.
  - intros k lk Hk Hlk. destruct (Nat.eq_dec k lo) as [->|Hk'].
    + congruence.
    + apply (Hall k lk); [lia|exact Hlk].
Qed.

Lemma up_agree locs locs' lo bound j :
  (forall k, (lo <= k)%nat -> locs' !! k = locs !! k) ->
  up locs' lo bound j <-> up locs lo bound j.
Proof.
  intros Hag. split; intros (lj & Hj & Hle & Hf & Hall);
    exists lj; repeat split; try assumption; try lia.
  - rewrite <- Hag by lia. exact Hj.
  - intros k lk Hk Hlk. apply (Hall k lk Hk). rewrite Hag by lia. exact Hlk.
  - rewrite Hag by lia. exact Hj.
  - intros k lk Hk Hlk. apply (Hall k lk Hk). rewrite <- Hag by lia. exact Hlk.
Qed.

(** The upward loop from [lo] over [n] indices. *)
Lemma walk_up_spec (n : nat) :
  forall lo locs,
    (lo + n <= length locs)%nat ->
    exists log locs',
      walk_up text_addr text_offset addr n lo locs = (log, Ok locs')
      /\ length locs' = length locs
      /\ (forall k, (k < lo)%nat -> locs' !! k = locs !! k)
      /\ forall j, instruction_count j log = 1%nat <-> up locs lo (lo + n) j.
Proof.
  induction n as [|n IH]; intros lo locs Hlen.
  - exists [], locs. repeat split; try reflexivity.
    + intros Hc; discriminate Hc.
    + intros (lj & _ & Hle & _). lia.
  - destruct (lookup_lt_is_Some_2 locs lo ltac:(lia)) as [loc Hlo].
    cbn [walk_up].
    destruct (outside loc) eqn:Ho.
    { rewrite (send_at_outside text_addr text_offset addr _ locs loc Hlo Ho).
      exists [], locs. repeat split; try reflexivity.
      - intros Hc; discriminate Hc.
      - intros Hu. exfalso. exact (up_blocked locs lo _ j loc Hlo Ho Hu). }
    replace (lo + S n)%nat with (S lo + n)%nat by lia.
    destruct (loc_emitted loc) eqn:He.
    + rewrite (send_at_emitted text_addr text_offset addr _ locs loc Hlo Ho He).
      destruct (IH (S lo) locs ltac:(lia))
        as (log & locs' & Hrun & Hlen' & Hkeep & Hiff).
      cbn [emit_bind]. rewrite Hrun. cbn [app].
      exists log, locs'. repeat split; try assumption.
      * intros k Hk. apply Hkeep. lia.
      * intros Hc. apply Hiff in Hc.
        destruct (Nat.eq_dec j lo) as [->|Hne].
        -- destruct Hc as (_ & _ & Hle & _). lia.
        -- apply (up_extend locs lo _ j loc Hlo Ho Hne). exact Hc.
      * intros Hu. apply Hiff.
        destruct (Nat.eq_dec j lo) as [->|Hne].
        -- destruct (up_bottom_emitted locs lo _ loc Hlo He Hu).
        -- apply (up_extend locs lo _ j loc Hlo Ho Hne). exact Hu.
    + rewrite (send_at_fresh text_addr text_offset addr _ locs loc Hlo Ho He).
      set (locs1 := <[lo := set_emitted loc]> locs).
      assert (Hlen1 : length locs1 = length locs) by apply length_insert.
      assert (Hag : forall k, (S lo <= k)%nat -> locs1 !! k = locs !! k).
      { intros k Hk. apply list_lookup_insert_ne. lia. }
      destruct (IH (S lo) locs1 ltac:(lia))
        as (log & locs' & Hrun & Hlen' & Hkeep & Hiff).
      pose proof (sticky_walk_up text_addr text_offset addr n (S lo) locs1)
        as Hst.
      rewrite Hrun in Hst.
      cbn [emit_bind]. rewrite Hrun.
      eexists _, locs'. split; [reflexivity|]. split; [lia|].
      split.
      { intros k Hk. rewrite Hkeep by lia.
        apply list_lookup_insert_ne. lia. }
      intros j. cbn [app instruction_count is_instruction_of].
      destruct (Nat.eqb_spec lo j) as [<-|Hne].
      * assert (Hz : instruction_count lo log = 0%nat).
        { apply count_zero_of_not_one.
          - exact (sticky_count_le id locs1 (log, Ok locs') lo Hst).
          - intros Hc. apply Hiff in Hc. destruct Hc as (_ & _ & Hle & _). lia. }
        rewrite Hz. split; [|reflexivity].
        intros _. apply (up_bottom_fresh locs lo _ loc Hlo Ho He). lia.
      * cbn [Nat.add]. rewrite Hiff.
        rewrite (up_agree locs locs1 (S lo) _ j Hag).
        symmetry. apply (up_extend locs lo _ j loc Hlo Ho). lia.
Qed.

End WindowFacts.

Section SiteFacts.

Variables (text_addr text_offset : Z).

Lemma out_of_window_false (addr : Z) (loc : Location) :
  out_of_window text_addr addr loc = false
  <-> Z.abs (loc_addr text_addr loc - addr) <= INT8_MAX + 2 + 15.
Proof. unfold out_of_window. rewrite Z.gtb_ltb, Z.ltb_ge. reflexivity. Qed.

(** Both loops around a site. *)
Lemma send_window_spec (addr : Z) (i : nat) (locs : list Location) :
  (i < length locs)%nat ->
  exists log locs',
    send_window text_addr text_offset addr i locs = (log, Ok locs')
    /\ forall j,
        instruction_count j log = 1%nat
        <-> (reaches_down text_addr addr locs i j
             \/ reaches_up text_addr addr locs (i + 1) (length locs) j).
Proof.
  intros Hi.
  pose proof (sticky_send_window text_addr text_offset addr i locs) as Hst.
  unfold send_window in *.
  destruct (walk_down_spec text_addr text_offset addr i locs Hi)
    as (ld & locs1 & Hd & Hlen1 & Hkeep & Hdown).
  rewrite Hd in *. cbn [emit_bind] in *.
  destruct (walk_up_spec text_addr text_offset addr
              (length locs1 - (i + 1)) (i + 1) locs1 ltac:(lia))
    as (lu & locs' & Hu & Hlen' & _ & Hup).
  rewrite Hu in *.
  exists (ld ++ lu), locs'. split; [reflexivity|].
  intros j. destruct (Hst j) as [Hle _]. cbn [fst] in Hle.
  rewrite instruction_count_app in *.
  replace (i + 1 + (length locs1 - (i + 1)))%nat with (length locs) in Hup
    by lia.
  rewrite <- Hdown.
  rewrite <- (up_agree text_addr addr locs locs1 (i + 1) (length locs) j)
    by (intros k Hk; apply Hkeep; lia).
  rewrite <- Hup. lia.
Qed.

Lemma send_patch_silent (plugin_table : Plugins) (actions : list Action)
    (i : nat) (loc : Location) (offset pid : Z) (j : nat) :
  instruction_count j (fst (send_patch plugin_table actions i loc offset pid))
  = 0%nat.
Proof.
  unfold send_patch.
  destruct (actions !! Z.to_nat (loc_action loc)) as [action|]; [|reflexivity].
  destruct (action_kind action); try reflexivity.
  destruct (action_plugin action) as [key|]; [|reflexivity].
  destruct (plugin_table !! key) as [p|]; [|reflexivity].
  destruct (patchFunc p); reflexivity.
Qed.

(** The Instruction messages of the loop body for a patch site are those of
    the two loops around it. *)
Lemma patch_site_log (redisassemble : Z -> Z -> Z -> bool)
    (plugin_table : Plugins) (actions : list Action) (i : nat)
    (locs : list Location) (site : Location) (pid : Z) (j : nat) :
  locs !! i = Some site ->
  loc_patch site = true ->
  redisassemble (to_int64 (loc_offset site + text_offset))
    (loc_addr text_addr site) (loc_size site) = true ->
  instruction_count j
    (fst (patch_site text_addr text_offset redisassemble plugin_table actions
            i locs pid))
  = instruction_count j
      (fst (send_window text_addr text_offset (loc_addr text_addr site)
              i locs)).
Proof.
  intros Hsite Hpatch Hdis. unfold patch_site.
  rewrite Hsite, Hpatch. cbn [negb].
  fold (loc_addr text_addr site). rewrite Hdis. cbn [negb].
  destruct (send_window text_addr text_offset (loc_addr text_addr site) i locs)
    as [w [locs1| |]]; cbn [emit_bind fst]; try reflexivity.
  pose proof (send_patch_silent plugin_table actions i site
                (to_int64 (loc_offset site + text_offset)) (pid + 1) j) as Hp.
  destruct (send_patch plugin_table actions i site _ (pid + 1))
    as [wp [[]| |]]; cbn [emit_bind emit_ret fst] in *;
    rewrite ?instruction_count_app, ?app_nil_r, Hp; cbn; lia.
Qed.

End SiteFacts.

(** C2.  In the body of the reverse loop for a patch site at address
    [addr], the Instruction message of a location is written exactly when
    the location has not been emitted before and every location from the
    site to it, the location included, lies within
    [INT8_MAX + 2 + 15] bytes of [addr]: each of the two outward loops ends
    at the first location outside the window.  The locations being in
    ascending address order, as the disassembly leaves them, this is exactly
    when the location has not been emitted before and its own distance
    [|addr' - addr|] is at most [INT8_MAX + 2 + 15]. *)
Theorem window_emission
    (text_addr text_offset : Z) (redisassemble : Z -> Z -> Z -> bool)
    (plugin_table : Plugins) (actions : list Action)
    (locs : list Location) (i : nat) (site : Location) (pid : Z)
    (Hsite : locs !! i = Some site)
    (Hpatch : loc_patch site = true)
    (Hdis : redisassemble (to_int64 (loc_offset site + text_offset))
              (loc_addr text_addr site) (loc_size site) = true) :
  let addr := loc_addr text_addr site in
  let log :=
    fst (patch_site text_addr text_offset redisassemble plugin_table actions
           i locs pid) in
  (forall j loc,
      locs !! j = Some loc ->
      (instruction_count j log <= 1)%nat
      /\ (instruction_count j log = 1%nat
          <-> loc_emitted loc = false
              /\ forall k lk, between i j k -> locs !! k = Some lk ->
                    Z.abs (loc_addr text_addr lk - addr)
                    <= INT8_MAX + 2 + 15))
  /\ (ascending_addresses text_addr locs ->
      forall j loc,
        locs !! j = Some loc ->
        (instruction_count j log = 1%nat
         <-> loc_emitted loc = false
             /\ Z.abs (loc_addr text_addr loc - addr) <= INT8_MAX + 2 + 15)).
Proof.
  intros addr log.
  assert (Hi : (i < length locs)%nat) by (eapply lookup_lt_Some; exact Hsite).
  assert (Hself : Z.abs (loc_addr text_addr site - addr) <= INT8_MAX + 2 + 15).
  { subst addr. unfold INT8_MAX. rewrite Z.sub_diag. simpl. lia. }
  assert (Hgen : forall j loc,
             locs !! j = Some loc ->
             (instruction_count j log <= 1)%nat
             /\ (instruction_count j log = 1%nat
                 <-> loc_emitted loc = false
                     /\ forall k lk, between i j k -> locs !! k = Some lk ->
                           Z.abs (loc_addr text_addr lk - addr)
                           <= INT8_MAX + 2 + 15)).
  { intros j loc Hj. subst log.
    rewrite (patch_site_log text_addr text_offset redisassemble plugin_table
               actions i locs site pid j Hsite Hpatch Hdis).
    fold addr. split.
    - exact (sticky_count_le id locs _ j
               (sticky_send_window text_addr text_offset addr i locs)).
    - destruct (send_window_spec text_addr text_offset addr i locs Hi)
        as (w & locs' & Hrun & Hiff).
      rewrite Hrun. cbn [fst]. rewrite Hiff.
      assert (Hj' : (j < length locs)%nat)
        by (eapply lookup_lt_Some; exact Hj).
      unfold reaches_down, reaches_up, between. split.
      + intros [(lj & Hlj & Hle & Hf & Hall)|(lj & Hlj & Hle & Hf & Hall)];
          (split; [congruence|]); intros k lk Hk Hlk;
          apply out_of_window_false.
        * apply (Hall k lk); [lia|exact Hlk].
        * destruct (Nat.eq_dec k i) as [->|Hne].
          -- replace lk with site by congruence.
             apply out_of_window_false. exact Hself.
          -- apply (Hall k lk); [lia|exact Hlk].
      + intros [Hf Hall]. destruct (le_lt_dec j i) as [Hle|Hlt].
        * left. exists loc. repeat split; try assumption.
          intros k lk Hk Hlk. apply out_of_window_false.
          apply (Hall k lk); [lia|exact Hlk].
        * right. exists loc. repeat split; try assumption; try lia.
          intros k lk Hk Hlk. apply out_of_window_false.
          apply (Hall k lk); [lia|exact Hlk]. }
  split; [exact Hgen|].
  intros Hasc j loc Hj. destruct (Hgen j loc Hj) as [_ Hiff].
  rewrite Hiff. split; intros [Hf Hw]; (split; [exact Hf|]).
  - apply (Hw j loc); [unfold between; lia|exact Hj].
  - intros k lk Hk Hlk. unfold between in Hk.
    destruct (le_lt_dec j i) as [Hle|Hlt].
    + pose proof (Hasc j k loc lk ltac:(lia) Hj Hlk).
      pose proof (Hasc k i lk site ltac:(lia) Hlk Hsite).
      subst addr. lia.
    + pose proof (Hasc i k site lk ltac:(lia) Hsite Hlk).
      pose proof (Hasc k j lk loc ltac:(lia) Hlk Hj).
      subst addr. lia.
Qed.

Lemma ref_locs_ascending : ascending_addresses ref_text_addr ref_locs.
Proof.
  intros a b la lb Hab Ha Hb.
  destruct a as [|[|[|a]]]; destruct b as [|[|[|b]]];
    try discriminate Ha; try discriminate Hb; try lia;
    injection Ha as <-; injection Hb as <-; vm_compute; discriminate.
Defined.

(** The site at offset 100 between locations at offsets 0 and 300: the
    location 100 bytes below is sent, the one 200 bytes above is not. *)
Lemma window_emission_witness :
  let log :=
    fst (patch_site ref_text_addr ref_text_offset ref_redisassemble ∅
           ref_rules 1 ref_locs (-1)) in
  instruction_count 0 log = 1%nat /\ instruction_count 2 log <> 1%nat.
Proof.
  intros log.
  destruct (window_emission ref_text_addr ref_text_offset ref_redisassemble
              ∅ ref_rules ref_locs 1 (mkLocation 100 7 true 0) (-1)
              eq_refl eq_refl eq_refl) as [_ Hsorted].
  specialize (Hsorted ref_locs_ascending). split.
  - apply (Hsorted 0%nat (mkLocation 0 5 false (-1)) eq_refl).
    split; [reflexivity|]. vm_compute. discriminate.
  - intros Hc.
    apply (Hsorted 2%nat (mkLocation 300 3 false (-1)) eq_refl) in Hc.
    destruct Hc as [_ Hw]. vm_compute in Hw. apply Hw. reflexivity.
Defined.

(** C3.  From any point of the reverse walk on, and so over the whole walk:
    at most one Instruction message is written for each location, none at
    all for a location whose [emitted] flag is already set, and at the end
    the flag is set exactly for the locations that had it set or had their
    message written, however many patch sites have them in their window. *)
Theorem each_location_is_sent_at_most_once
    (text_addr text_offset : Z) (redisassemble : Z -> Z -> Z -> bool)
    (plugin_table : Plugins) (actions : list Action)
    (n : nat) (locs : list Location) (pid : Z) (j : nat) :
  let run :=
    walk_sites text_addr text_offset redisassemble plugin_table actions
      n locs pid in
  (instruction_count j (fst run) <= 1)%nat
  /\ (emitted_at locs j = true -> instruction_count j (fst run) = 0%nat)
  /\ (forall locs' pid',
        snd run = Ok (locs', pid') ->
        emitted_at locs' j
        = emitted_at locs j || Nat.eqb (instruction_count j (fst run)) 1)
  /\ (instruction_count j
        (fst (reverse_walk text_addr text_offset redisassemble plugin_table
                actions locs)) <= 1)%nat.
Proof.
  intros run.
  pose proof (sticky_walk_sites text_addr text_offset redisassemble
                plugin_table actions n locs pid j) as [Hle Hflag].
  fold run in Hle, Hflag.
  split; [lia|]. split; [|split].
  - intros He. rewrite He in Hle. simpl in Hle. lia.
  - intros locs' pid' Hrun. specialize (Hflag (locs', pid') Hrun).
    cbn [fst] in Hflag.
    destruct (emitted_at locs' j), (emitted_at locs j);
      simpl in *; try reflexivity; try lia;
      destruct (instruction_count j (fst run)) as [|[|c]];
      simpl in *; try reflexivity; lia.
  - unfold reverse_walk.
    pose proof (sticky_walk_sites text_addr text_offset redisassemble
                  plugin_table actions (length locs) locs (-1) j) as [H _].
    lia.
Qed.

(** The location at offset 50 lies in the windows of both patch sites and
    has been sent already: the walk over both sites writes no message for
    it. *)
Lemma each_location_is_sent_at_most_once_witness :
  instruction_count 1
    (fst (walk_sites ref_text_addr ref_text_offset ref_redisassemble ∅
            ref_rules 3 ref_overlap_sent (-1)))
  = 0%nat.
Proof.
  apply (each_location_is_sent_at_most_once ref_text_addr ref_text_offset
           ref_redisassemble ∅ ref_rules 3 ref_overlap_sent (-1) 1).
  reflexivity.
Defined.

(** ** The model at work *)

(** Rule ordering: [call -> exit(1)] then [true -> passthru] dispatches the
    first rule on a call and the second on any other instruction. *)
Example dispatch_call :
  @match_ ref_platform ∅ ref_rules ref_call 0x10 0%nat = Ok (0, 0%nat).
Proof. reflexivity. Qed.

Example dispatch_other :
  @match_ ref_platform ∅ ref_rules ref_mov 0x20 0%nat = Ok (1, 0%nat).
Proof. reflexivity. Qed.

Example dispatch_no_rule :
  @match_ ref_platform ∅ [] ref_mov 0x20 0%nat = Ok (-1, 0%nat).
Proof. reflexivity. Qed.

(** Tests on the assembly text and on the register sets are not evaluated
    through [makeMatchValue]; [defined] on them is true. *)
Example defined_assembly :
  @matchEval ref_platform ∅
    (ExprTest (ref_test MATCH_ASSEMBLY MATCH_CMP_DEFINED DataNull))
    ref_call 0x10 None None 0%nat
  = Ok (true, None, 0%nat).
Proof. reflexivity. Qed.

Example rax_in_reads :
  @matchEval ref_platform ∅
    (ExprTest (ref_test MATCH_READS MATCH_CMP_IN (DataRegs [REGISTER_RAX])))
    ref_mov 0x20 None None 0%nat
  = Ok (true, None, 0%nat).
Proof. reflexivity. Qed.

(** A first equality test through [sites.csv] binds the record it finds. *)
Example first_binding :
  @matchEval ref_platform ∅
    (ExprTest (ref_size_test MATCH_CMP_EQ ref_sites (Some "sites")))
    ref_call 0x10 (Some "sites") (Some None) 0%nat
  = Ok (true, Some (Some 1%nat), 0%nat).
Proof. reflexivity. Qed.

(** [!=] against a set of three values is true even for a member. *)
Example neq_three_values :
  @matchEval ref_platform ∅
    (ExprTest (ref_size_test MATCH_CMP_NEQ ref_sites None))
    ref_call 0x10 None None 0%nat
  = Ok (true, None, 0%nat).
Proof. reflexivity. Qed.

(** [insert] keeps the index valid and ignores an equivalent key. *)
Example insert_sorted :
  Index_insert ref_Register_value
    (Index_insert ref_Register_value
       (Index_insert ref_Register_value [] (VInteger 9, None))
       (VInteger 3, None))
    (VInteger 9, Some 4%nat)
  = [(VInteger 3, None); (VInteger 9, None)].
Proof. reflexivity. Qed.

(** [%rip] with a scale and no index is accepted, a stack pointer as index
    is rejected. *)
Example rip_scale_without_index :
  parseMemOp
    (action_parser
       [ TOKEN_CHAR "<"; TOKEN_CHAR "("; TOKEN_REGISTER REGISTER_RIP;
         TOKEN_CHAR ","; TOKEN_CHAR ","; TOKEN_INTEGER 2; TOKEN_CHAR ")";
         TOKEN_CHAR ">" ]%char)
    TOKEN_MEM64
  = Ok ({| memop_seg := REGISTER_NONE; memop_disp := 0;
           memop_base := REGISTER_RIP; memop_index := REGISTER_NONE;
           memop_scale := 2; memop_size := 1 |},
        action_parser []).
Proof. reflexivity. Qed.

Example rsp_as_index :
  parseMemOp
    (action_parser
       [ TOKEN_CHAR "<"; TOKEN_INTEGER 8; TOKEN_CHAR "(";
         TOKEN_REGISTER REGISTER_RSP; TOKEN_CHAR ",";
         TOKEN_REGISTER REGISTER_RSP; TOKEN_CHAR ","; TOKEN_INTEGER 2;
         TOKEN_CHAR ")"; TOKEN_CHAR ">" ]%char)
    TOKEN_MEM64
  = Fatal "failed to parse action; invalid memory operand index register".
Proof. reflexivity. Qed.

(** The whole walk over two patch sites whose windows overlap: one message
    for each of the three locations, then the patches. *)
Example walk_overlap :
  wire (fst (reverse_walk ref_text_addr ref_text_offset ref_redisassemble ∅
               ref_rules ref_overlap))
  = [ MsgInstruction 0x400064 3 0x1064; MsgInstruction 0x400032 7 0x1032;
      MsgInstruction 0x400000 5 0x1000; MsgPatch "exit_1" 0x1064 0;
      MsgPatch "passthru" 0x1000 1 ].
Proof. reflexivity. Qed.

(* ===================================================================== *)
(** * Further properties *)
(* ===================================================================== *)

(** ** The order of [MatchValue::compare] *)

Section CompareOrder.

Variable rv : Register -> Z.

Ltac split_tests :=
  repeat match goal with
         | |- context [?x <? ?y] => destruct (Z.ltb_spec x y)
         | |- context [?x >? ?y] => rewrite (Z.gtb_ltb x y)
         end.

Ltac by_tags :=
  unfold rank_lt, compare, three_way, MatchValue_type, MatchValue_payload,
    MATCH_TYPE_UNDEFINED, MATCH_TYPE_NIL, MATCH_TYPE_INTEGER,
    MATCH_TYPE_OPERAND, MATCH_TYPE_ACCESS, MATCH_TYPE_REGISTER,
    MATCH_TYPE_MEMORY, MATCH_TYPE_STRING.

Lemma compare_swap (a b : MatchValue) : compare rv b a = - compare rv a b.
Proof. by_tags. destruct a, b; split_tests; lia. Qed.

Lemma compare_range (a b : MatchValue) : -1 <= compare rv a b <= 1.
Proof. by_tags. destruct a, b; split_tests; lia. Qed.

End CompareOrder.

(** X1.  [compare] is a three-way comparison of a strict weak order:
    swapping the arguments negates the result, which is -1, 0 or 1;
    [operator<] is irreflexive and transitive, and [operator==] is
    transitive. *)
Theorem compare_is_a_strict_weak_order (rv : Register -> Z) :
  (forall a b, compare rv b a = - compare rv a b
               /\ -1 <= compare rv a b <= 1)
  /\ (forall a, MatchValue_lt rv a a = false)
  /\ (forall a b c,
        MatchValue_lt rv a b = true -> MatchValue_lt rv b c = true ->
        MatchValue_lt rv a c = true)
  /\ (forall a b c,
        MatchValue_eq rv a b = true -> MatchValue_eq rv b c = true ->
        MatchValue_eq rv a c = true).
Proof.
  split; [intros a b; split; [apply compare_swap|apply compare_range]|].
  split.
  - intros a. apply lt_false_iff. apply rank_lt_irrefl.
  - split.
    + intros a b c Hab Hbc. apply lt_iff in Hab, Hbc. apply lt_iff.
      eapply rank_lt_trans; eassumption.
    + intros a b c Hab Hbc. apply eq_iff in Hab, Hbc. apply eq_iff.
      unfold rank_lt in *. lia.
Qed.

Lemma compare_is_a_strict_weak_order_witness :
  MatchValue_lt ref_Register_value VNil (VRegister REGISTER_RAX) = true.
Proof.
  apply (proj1 (proj2 (proj2 (compare_is_a_strict_weak_order
                                ref_Register_value)))
           VNil (VInteger 7) (VRegister REGISTER_RAX));
    reflexivity.
Defined.

(** ** The equality test *)

Section EqualityFacts.

Variable rv : Register -> Z.

(** In a valid index [find] succeeds exactly on the values that are
    [operator==] to a key. *)
Lemma find_is_member (idx : Index) (x : MatchValue) :
  Index_valid rv idx = true ->
  bool_decide (is_Some (Index_find rv idx x)) = member rv x (Index_keys idx).
Proof.
  induction idx as [|[k r] rest IH]; intros Hv; [reflexivity|].
  pose proof (valid_tail rv _ _ Hv) as Hv'.
  unfold member in *. cbn [Index_find Index_keys map fst existsb].
  destruct (MatchValue_lt rv k x) eqn:E1.
  - apply lt_iff in E1.
    replace (MatchValue_eq rv x k) with false.
    + apply IH. exact Hv'.
    + symmetry. destruct (MatchValue_eq rv x k) eqn:E; [|reflexivity].
      apply eq_iff in E. tauto.
  - apply lt_false_iff in E1.
    destruct (MatchValue_lt rv x k) eqn:E2.
    + apply lt_iff in E2.
      replace (MatchValue_eq rv x k) with false.
      * cbn [orb].
        destruct (existsb (MatchValue_eq rv x) (map fst rest)) eqn:E;
          [|reflexivity].
        apply existsb_exists in E as (k' & Hin & Heq).
        apply eq_iff in Heq.
        pose proof (valid_head_below rv rest k r Hv k' Hin) as Hkk'.
        exfalso. apply (proj1 Heq).
        eapply rank_lt_trans; eassumption.
      * symmetry. destruct (MatchValue_eq rv x k) eqn:E; [|reflexivity].
        apply eq_iff in E. tauto.
    + apply lt_false_iff in E2.
      replace (MatchValue_eq rv x k) with true
        by (symmetry; apply eq_iff; tauto).
      reflexivity.
Qed.

End EqualityFacts.

Lemma bind_record_untracked {platform : Platform} (t : MatchTest) x pass
    record :
  bind_record t x pass None record = Ok record.
Proof. unfold bind_record. destruct pass; reflexivity. Qed.

(** X2.  An [=] test with a non-empty value set and a defined extracted
    value [x], evaluated without a CSV file to track, passes exactly when
    [x] is a member of the value set; the record slot is left alone. *)
Theorem equality_is_membership
    {platform : Platform} (plugins : Plugins) (t : MatchTest) (I : cs_insn)
    (offset : Z) (record : option RecordPtr)
    (st st' : RandState) (pv : Z) (x : MatchValue) (values : Index)
    (Hkind : value_kind (test_match t) = true)
    (Hcmp : test_cmp t = MATCH_CMP_EQ)
    (Hdata : test_data t = DataValues values)
    (Hnonempty : values <> [])
    (Hvalid : Index_valid Register_value values = true)
    (Hplugin : plugin_value plugins t = Ok pv)
    (Hx : makeMatchValue (test_match t) (test_idx t) (test_field t)
            I offset pv st = (x, st'))
    (Hdef : x <> VUndefined) :
  matchEval plugins (ExprTest t) I offset None record st
  = Ok (member Register_value x (Index_keys values), record, st').
Proof.
  simpl. rewrite (matchTest_value_kind plugins I offset t) by exact Hkind.
  rewrite (matchValueTest_run plugins I offset t None record st st' pv x);
    eauto.
  unfold compare_test, test_values. rewrite Hcmp, Hdata. simpl.
  rewrite bind_record_untracked.
  rewrite (find_is_member Register_value values x Hvalid).
  destruct x; try reflexivity. congruence.
Qed.

(** [size = {3, 5, 9}] on a 5-byte call. *)
Lemma equality_is_membership_witness :
  @matchEval ref_platform ∅
    (ExprTest (ref_size_test MATCH_CMP_EQ ref_sites None)) ref_call 0x10
    None None 0%nat
  = Ok (true, None, 0%nat).
Proof.
  exact (@equality_is_membership ref_platform ∅
           (ref_size_test MATCH_CMP_EQ ref_sites None) ref_call 0x10
           None 0%nat 0%nat 0 (VInteger 5) ref_sites
           eq_refl eq_refl eq_refl ltac:(discriminate) eq_refl eq_refl
           eq_refl ltac:(discriminate)).
Defined.

(** ** Operands *)

Section OperandFacts.

Context {platform : Platform}.
Variables (type : x86_op_type) (access : Z).

Local Abbreviation step :=
  (fun (n : Z) (op : cs_x86_op) =>
     if operand_selected op type access then n + 1 else n).

Lemma count_shift (ops : list cs_x86_op) :
  forall n, fold_left step ops n = n + fold_left step ops 0.
Proof.
  induction ops as [|op ops IH]; intros n; simpl; [lia|].
  rewrite (IH (if operand_selected op type access then n + 1 else n)).
  rewrite (IH (if operand_selected op type access then 0 + 1 else 0)).
  destruct (operand_selected op type access); lia.
Qed.

Lemma count_bounds (ops : list cs_x86_op) :
  0 <= fold_left step ops 0 <= Z.of_nat (length ops).
Proof.
  induction ops as [|op ops IH]; simpl; [lia|].
  rewrite count_shift.
  destruct (operand_selected op type access); lia.
Qed.

Lemma getOperand_loop_negative (ops : list cs_x86_op) :
  forall idx, idx < 0 -> getOperand_loop ops idx type access = None.
Proof.
  induction ops as [|op ops IH]; intros idx Hidx; simpl; [reflexivity|].
  destruct (operand_selected op type access).
  - destruct (Z.eqb_spec idx 0); [lia|]. apply IH. lia.
  - apply IH. exact Hidx.
Qed.

Lemma getOperand_loop_defined (ops : list cs_x86_op) :
  forall idx,
    0 <= idx ->
    is_Some (getOperand_loop ops idx type access)
    <-> idx < fold_left step ops 0.
Proof.
  induction ops as [|op ops IH]; intros idx Hidx; simpl.
  - split; [intros [op H]; discriminate H|lia].
  - rewrite count_shift. pose proof (count_bounds ops) as Hb.
    destruct (operand_selected op type access).
    + destruct (Z.eqb_spec idx 0) as [->|Hne].
      * split; [lia|eauto].
      * rewrite (IH (idx - 1)) by lia. lia.
    + rewrite (IH idx) by lia. lia.
Qed.

Lemma getOperand_loop_selected (ops : list cs_x86_op) :
  forall idx op,
    getOperand_loop ops idx type access = Some op ->
    In op ops /\ operand_selected op type access = true
    /\ (Z.of_nat (length ops) > idx).
Proof.
  induction ops as [|o ops IH]; intros idx op H; simpl in H; [discriminate|].
  destruct (operand_selected o type access) eqn:Hs.
  - destruct (Z.eqb_spec idx 0) as [->|Hne].
    + injection H as <-. split; [left; reflexivity|]. split; [exact Hs|].
      simpl length. lia.
    + destruct (IH _ _ H) as (Hin & Hsel & Hlen).
      split; [right; exact Hin|]. split; [exact Hsel|simpl length; lia].
  - destruct (IH _ _ H) as (Hin & Hsel & Hlen).
    split; [right; exact Hin|]. split; [exact Hsel|simpl length; lia].
Qed.

End OperandFacts.

(** X3.  [getOperand] finds an operand exactly for the indices from 0
    below [getNumOperands] under the same filter; the operand it returns is
    one of the instruction's operands and passes the filter; the count is
    at most the number of operands. *)
Theorem getOperand_agrees_with_getNumOperands
    (I : cs_insn) (idx : Z) (type : x86_op_type) (access : Z) :
  (is_Some (getOperand I idx type access)
   <-> 0 <= idx < getNumOperands I type access)
  /\ (forall op,
        getOperand I idx type access = Some op ->
        In op (insn_operands I) /\ operand_selected op type access = true)
  /\ 0 <= getNumOperands I type access
     <= Z.of_nat (length (insn_operands I)).
Proof.
  unfold getOperand, getNumOperands. split; [|split].
  - destruct (Z.lt_ge_cases idx 0) as [Hneg|Hpos].
    + rewrite (getOperand_loop_negative type access _ idx Hneg).
      split; [intros [op H]; discriminate H|lia].
    + rewrite (getOperand_loop_defined type access _ idx Hpos). lia.
  - intros op H.
    destruct (getOperand_loop_selected type access _ _ _ H) as (Hi & Hs & _).
    split; assumption.
  - apply count_bounds.
Qed.

(** [dst[0]] of [mov %rax, 8(%rip)] is its memory operand. *)
Lemma getOperand_agrees_with_getNumOperands_witness :
  operand_selected
    {| op_type := X86_OP_MEM; op_reg := 0; op_imm := 0;
       op_mem := {| mem_segment := 0; mem_base := 41; mem_index := 0;
                    mem_scale := 1; mem_disp := 8 |};
       op_size := 8; op_access := CS_AC_WRITE |}
    X86_OP_INVALID CS_AC_WRITE = true.
Proof.
  apply (proj1 (proj2 (getOperand_agrees_with_getNumOperands
                         ref_mov 0 X86_OP_INVALID CS_AC_WRITE))).
  reflexivity.
Defined.

(** ** Register tests *)

Section RegisterFacts.

Context {platform : Platform}.

Lemma regs_loop_exists (t : MatchTest) (S : list Register)
    (rs : list x86_reg) :
  test_data t = DataRegs S ->
  regs_loop t rs
  = Ok (existsb (fun r => existsb (Register_eqb (getRegister r)) S) rs).
Proof.
  intros Hd. induction rs as [|r rs IH]; simpl; [reflexivity|].
  unfold test_regs. rewrite Hd. simpl.
  destruct (existsb (Register_eqb (getRegister r)) S); [reflexivity|].
  exact IH.
Qed.

End RegisterFacts.

(** X4.  A register test with the register set [S]: [reads] passes exactly
    when a register the instruction reads is in [S], [writes] when one it
    writes is, and [regs] when either is, so that [regs] is the disjunction
    of the other two; the record slot and the generator are not touched. *)
Theorem register_tests_look_at_reads_and_writes
    {platform : Platform} (plugins : Plugins) (t : MatchTest) (I : cs_insn)
    (offset : Z) (basename : option string) (record : option RecordPtr)
    (st : RandState) (S : list Register) (reads writes : list x86_reg)
    (Hdata : test_data t = DataRegs S)
    (Hcmp : test_cmp t <> MATCH_CMP_DEFINED)
    (Haccess : cs_regs_access I = Some (reads, writes)) :
  let hit := fun r => existsb (Register_eqb (getRegister r)) S in
  match test_match t with
  | MATCH_READS =>
      matchEval plugins (ExprTest t) I offset basename record st
      = Ok (existsb hit reads, record, st)
  | MATCH_WRITES =>
      matchEval plugins (ExprTest t) I offset basename record st
      = Ok (existsb hit writes, record, st)
  | MATCH_REGS =>
      matchEval plugins (ExprTest t) I offset basename record st
      = Ok (existsb hit reads || existsb hit writes, record, st)
  | _ => True
  end.
Proof.
  intros hit. simpl. unfold matchTest.
  destruct (test_match t) eqn:Hk; try exact Logic.I;
    destruct (test_cmp t) eqn:Hc; try congruence;
    rewrite Haccess; rewrite ?Hk; cbn [obind];
    rewrite ?(regs_loop_exists t S reads Hdata);
    rewrite ?(regs_loop_exists t S writes Hdata); cbn [obind];
    fold hit; try reflexivity;
    destruct (existsb hit reads); cbn [orb];
    rewrite ?(regs_loop_exists t S writes Hdata); reflexivity.
Qed.

(** [%rax in reads] on [mov %rax, 8(%rip)]. *)
Lemma register_tests_look_at_reads_and_writes_witness :
  @matchEval ref_platform ∅
    (ExprTest (ref_test MATCH_READS MATCH_CMP_IN (DataRegs [REGISTER_RAX])))
    ref_mov 0x20 None None 0%nat
  = Ok (true, None, 0%nat).
Proof.
  exact (@register_tests_look_at_reads_and_writes ref_platform ∅
           (ref_test MATCH_READS MATCH_CMP_IN (DataRegs [REGISTER_RAX]))
           ref_mov 0x20 None None 0%nat [REGISTER_RAX] [35] []
           eq_refl ltac:(discriminate) eq_refl).
Defined.

(** ** Evaluation with and without a record to track *)

Section TrackingFacts.

Context {platform : Platform}.
Variables (plugins : Plugins) (I : cs_insn) (offset : Z).

Lemma matchValueTest_untracked (t : MatchTest) basename record st b
    record' st' :
  matchValueTest plugins t I offset basename record st
  = Ok (b, record', st') ->
  matchValueTest plugins t I offset None None st = Ok (b, None, st').
Proof.
  unfold matchValueTest.
  destruct (if cmp_needs_values (test_cmp t)
            then let* values := test_values t in Ok (Index_size values =? 0)
            else Ok false) as [empty| |]; simpl; try discriminate.
  destruct empty; [intros H; injection H as <- <- <-; reflexivity|].
  destruct (plugin_value plugins t) as [pv| |]; simpl; try discriminate.
  destruct (makeMatchValue _ _ _ I offset pv st) as [x st1].
  destruct (compare_test t x) as [[pass|]| |]; simpl; try discriminate.
  - rewrite bind_record_untracked.
    destruct (bind_record t x _ basename record) as [rec1| |];
      simpl; try discriminate.
    intros H. injection H as <- <- <-. reflexivity.
  - intros H; injection H as <- <- <-; reflexivity.
Qed.

Lemma matchTest_untracked (t : MatchTest) basename record st b record' st' :
  matchTest plugins t I offset basename record st = Ok (b, record', st') ->
  matchTest plugins t I offset None None st = Ok (b, None, st').
Proof.
  unfold matchTest.
  destruct (test_match t); try apply matchValueTest_untracked.
  - intros H; injection H as <- <- <-; reflexivity.
  - destruct (test_cmp t);
      try (intros H; injection H as <- <- <-; reflexivity);
      (destruct (makeMatchString _ I _) as [str| |]; simpl; try discriminate;
       destruct (test_regex t) as [re| |]; simpl; try discriminate;
       intros H; injection H as <- <- <-; reflexivity).
  - destruct (test_cmp t);
      try (intros H; injection H as <- <- <-; reflexivity);
      (destruct (test_regex t) as [re| |]; simpl; try discriminate;
       intros H; injection H as <- <- <-; reflexivity).
  - destruct (test_cmp t);
      try (intros H; injection H as <- <- <-; reflexivity);
      (destruct (cs_regs_access I) as [[reads writes]|]; try discriminate;
       destruct (regs_loop t reads) as [[|]| |]; simpl; try discriminate;
       try destruct (regs_loop t writes) as [[|]| |]; simpl; try discriminate;
       intros H; injection H as <- <- <-; reflexivity).
  - destruct (test_cmp t);
      try (intros H; injection H as <- <- <-; reflexivity);
      (destruct (cs_regs_access I) as [[reads writes]|]; try discriminate;
       destruct (regs_loop t reads) as [[|]| |]; simpl; try discriminate;
       intros H; injection H as <- <- <-; reflexivity).
  - destruct (test_cmp t);
      try (intros H; injection H as <- <- <-; reflexivity);
      (destruct (cs_regs_access I) as [[reads writes]|]; try discriminate;
       simpl;
       destruct (regs_loop t writes) as [[|]| |]; simpl; try discriminate;
       intros H; injection H as <- <- <-; reflexivity).
Qed.

Lemma matchEval_untracked (expr : MatchExpr) :
  forall basename record st b record' st',
    matchEval plugins expr I offset basename record st
    = Ok (b, record', st') ->
    matchEval plugins expr I offset None None st = Ok (b, None, st').
Proof.
  induction expr as [|e IH|e1 IH1 e2 IH2|e1 IH1 e2 IH2|t];
    intros basename record st b record' st'; simpl.
  - intros H; injection H as <- <- <-; reflexivity.
  - destruct (matchEval plugins e I offset None None st)
      as [[[pass rec1] st1]| |]; simpl; try discriminate.
    intros H; injection H as <- <- <-; reflexivity.
  - destruct (matchEval plugins e1 I offset basename record st)
      as [[[pass rec1] st1]| |] eqn:E1; simpl; try discriminate.
    rewrite (IH1 _ _ _ _ _ _ E1). simpl.
    destruct pass; simpl.
    + apply IH2.
    + intros H; injection H as <- <- <-; reflexivity.
  - destruct (matchEval plugins e1 I offset basename record st)
      as [[[pass rec1] st1]| |] eqn:E1; simpl; try discriminate.
    rewrite (IH1 _ _ _ _ _ _ E1). simpl.
    destruct pass; simpl.
    + intros H; injection H as <- <- <-; reflexivity.
    + apply IH2.
  - apply matchTest_untracked.
Qed.

End TrackingFacts.

(** X5.  Tracking a CSV record never changes a verdict: when an evaluation
    with a base name and a record slot ends normally, the evaluation of the
    same expression without them ends normally with the same verdict and
    the same generator state, and so does the rule dispatch, which
    evaluates without them. *)
Theorem tracking_keeps_the_verdict
    {platform : Platform} (plugins : Plugins) (expr : MatchExpr)
    (I : cs_insn) (offset : Z) (basename : option string)
    (record : option RecordPtr) (st st' : RandState) (b : bool)
    (record' : option RecordPtr)
    (Hrun : matchEval plugins expr I offset basename record st
            = Ok (b, record', st')) :
  matchEval plugins expr I offset None None st = Ok (b, None, st')
  /\ forall action,
       action_match action = expr ->
       matchAction plugins action I offset st = Ok (b, st').
Proof.
  pose proof (matchEval_untracked plugins I offset expr _ _ _ _ _ _ Hrun)
    as Hu.
  split; [exact Hu|].
  intros action Ha. unfold matchAction. rewrite Ha, Hu. reflexivity.
Qed.

(** The test of [first_binding], which binds record 1, passes as well when
    nothing is tracked. *)
Lemma tracking_keeps_the_verdict_witness :
  @matchEval ref_platform ∅
    (ExprTest (ref_size_test MATCH_CMP_EQ ref_sites (Some "sites")))
    ref_call 0x10 None None 0%nat
  = Ok (true, None, 0%nat).
Proof.
  apply (@tracking_keeps_the_verdict ref_platform ∅
           (ExprTest (ref_size_test MATCH_CMP_EQ ref_sites (Some "sites")))
           ref_call 0x10 (Some "sites") (Some None) 0%nat 0%nat true
           (Some (Some 1%nat))).
  reflexivity.
Defined.

(** ** The plugin registry *)

Section RegistryFacts.

Context {loader : Loader}.

Lemma openPlugin_cases (basename : string) (st : PluginState)
    (p : Plugin) (st' : PluginState) :
  openPlugin basename st = Ok (p, st') ->
  exists pathname,
    realpath (if negb (hasSuffix basename ".so")
              then (basename +:+ ".so")%string else basename)
    = Some pathname
    /\ ((plugins st !! pathname = Some p /\ st' = st)
        \/ (plugins st !! pathname = None
            /\ plugin_filename p = pathname
            /\ (is_Some (initFunc p) \/ is_Some (instrFunc p)
                \/ is_Some (patchFunc p) \/ is_Some (finiFunc p))
            /\ plugins st' = <[pathname := p]> (plugins st)
            /\ option_notify st'
               = option_notify st || bool_decide (is_Some (instrFunc p)))).
Proof.
  unfold openPlugin.
  destruct (realpath _) as [pathname|]; [|discriminate].
  intros H. exists pathname. split; [reflexivity|].
  destruct (plugins st !! pathname) as [q|] eqn:Hq.
  - injection H as <- <-. left. split; reflexivity.
  - destruct (dlopen pathname) as [handle|]; [|discriminate].
    cbn [initFunc instrFunc patchFunc finiFunc plugin_filename] in H.
    destruct (dlsym handle "e9_plugin_init_v1") as [f1|] eqn:E1;
      destruct (dlsym handle "e9_plugin_instr_v1") as [f2|] eqn:E2;
      destruct (dlsym handle "e9_plugin_patch_v1") as [f3|] eqn:E3;
      destruct (dlsym handle "e9_plugin_fini_v1") as [f4|] eqn:E4;
      cbn in H; try discriminate H;
      injection H as <- <-; right;
      (split; [reflexivity|]); (split; [reflexivity|]);
      cbn [initFunc instrFunc patchFunc finiFunc plugins option_notify];
      (split; [eauto 6|]); (split; [reflexivity|]);
      rewrite ?orb_true_r, ?orb_false_r; reflexivity.
Qed.

End RegistryFacts.

(** X6.  Opening the same plugin twice gives the same record: after a
    successful [openPlugin] the record is in the registry under its
    canonical path, and opening the same name again returns it and leaves
    the registry and the notify flag as they are. *)
Theorem openPlugin_returns_the_cached_record
    {loader : Loader} (basename : string) (st st' : PluginState) (p : Plugin)
    (Hopen : openPlugin basename st = Ok (p, st')) :
  openPlugin basename st' = Ok (p, st')
  /\ exists pathname,
       realpath (if negb (hasSuffix basename ".so")
                 then (basename +:+ ".so")%string else basename)
       = Some pathname
       /\ plugins st' !! pathname = Some p.
Proof.
  destruct (openPlugin_cases basename st p st' Hopen)
    as (pathname & Hpath & [[Hq ->]|(Hnew & Hname & _ & Hmap & _)]).
  - split; [exact Hopen|]. exists pathname. split; assumption.
  - assert (Hin : plugins st' !! pathname = Some p)
      by (rewrite Hmap; apply lookup_insert_eq).
    split; [|exists pathname; split; assumption].
    unfold openPlugin. rewrite Hpath, Hin. reflexivity.
Qed.

(** X7.  [openPlugin] keeps the registry in order: the records already
    registered stay as they are, every record is filed under its own file
    name, and notify mode is on whenever a registered plugin has an instr
    entry point and is never switched off. *)
Theorem openPlugin_keeps_the_registry
    {loader : Loader} (basename : string) (st st' : PluginState) (p : Plugin)
    (Hok : registry_ok st)
    (Hopen : openPlugin basename st = Ok (p, st')) :
  registry_ok st'
  /\ (forall key q, plugins st !! key = Some q -> plugins st' !! key = Some q)
  /\ (option_notify st = true -> option_notify st' = true)
  /\ (is_Some (instrFunc p) -> option_notify st' = true).
Proof.
  destruct (openPlugin_cases basename st p st' Hopen)
    as (pathname & Hpath & [[Hq ->]|(Hnew & Hname & _ & Hmap & Hnotify)]).
  - split; [exact Hok|]. split; [tauto|]. split; [tauto|].
    apply (Hok pathname p Hq).
  - split; [|split; [|split]].
    + intros key q. rewrite Hmap, Hnotify.
      destruct (decide (pathname = key)) as [<-|Hne].
      * rewrite lookup_insert_eq. intros H. injection H as <-.
        split; [exact Hname|]. intros Hi.
        rewrite (bool_decide_eq_true_2 _ Hi). apply orb_true_r.
      * rewrite lookup_insert_ne by exact Hne. intros Hq.
        destruct (Hok key q Hq) as [Hf Hn]. split; [exact Hf|].
        intros Hi. rewrite (Hn Hi). reflexivity.
    + intros key q Hq. rewrite Hmap.
      rewrite lookup_insert_ne; [exact Hq|]. congruence.
    + intros Hn. rewrite Hnotify, Hn. reflexivity.
    + intros Hi. rewrite Hnotify.
      rewrite (bool_decide_eq_true_2 _ Hi). apply orb_true_r.
Qed.

Lemma no_plugins_ok : registry_ok no_plugins.
Proof.
  intros key p H. unfold no_plugins in H. cbn [plugins] in H.
  rewrite lookup_empty in H. discriminate H.
Defined.

Lemma openPlugin_returns_the_cached_record_witness :
  exists p st',
    @openPlugin instr_only_loader "counter" no_plugins = Ok (p, st')
    /\ @openPlugin instr_only_loader "counter" st' = Ok (p, st').
Proof.
  eexists _, _. split; [reflexivity|].
  apply (@openPlugin_returns_the_cached_record instr_only_loader "counter"
           no_plugins).
  reflexivity.
Defined.

Lemma openPlugin_keeps_the_registry_witness :
  exists p st',
    @openPlugin instr_only_loader "counter" no_plugins = Ok (p, st')
    /\ option_notify st' = true.
Proof.
  eexists _, _. split; [reflexivity|].
  eapply (@openPlugin_keeps_the_registry instr_only_loader "counter"
            no_plugins _ _ no_plugins_ok eq_refl).
  cbn. eauto.
Defined.

(** ** File name suffixes *)

Lemma string_length_append (a b : string) :
  String.length (a +:+ b)%string = (String.length a + String.length b)%nat.
Proof. induction a as [|c a IH]; simpl; [reflexivity|]. rewrite IH. reflexivity. Qed.

Lemma substring_whole (s : string) :
  String.substring 0 (String.length s) s = s.
Proof. induction s as [|c s IH]; simpl; [reflexivity|]. rewrite IH. reflexivity. Qed.

Lemma substring_after (a s : string) :
  String.substring (String.length a) (String.length s) (a +:+ s)%string = s.
Proof.
  induction a as [|c a IH]; simpl; [apply substring_whole|exact IH].
Qed.

Lemma hasSuffix_append (a s : string) : hasSuffix (a +:+ s)%string s = true.
Proof.
  unfold hasSuffix. rewrite string_length_append.
  replace (String.length a + String.length s - String.length s)%nat
    with (String.length a) by lia.
  rewrite substring_after, String.eqb_refl.
  rewrite andb_true_r. apply Nat.leb_le. lia.
Qed.

Lemma openPlugin_other_spelling
    {loader : Loader} (basename : string) (st st' : PluginState) (p : Plugin) :
  hasSuffix basename ".so" = false ->
  openPlugin basename st = Ok (p, st') ->
  openPlugin (basename +:+ ".so")%string st' = Ok (p, st').
Proof.
  intros Hbare Hopen.
  destruct (openPlugin_cases basename st p st' Hopen)
    as (pathname & Hpath & Hcases).
  rewrite Hbare in Hpath. cbn [negb] in Hpath.
  assert (Hin : plugins st' !! pathname = Some p).
  { destruct Hcases as [[Hq ->]|(_ & _ & _ & Hmap & _)]; [exact Hq|].
    rewrite Hmap. apply lookup_insert_eq. }
  unfold openPlugin. rewrite hasSuffix_append. cbn [negb].
  rewrite Hpath, Hin. reflexivity.
Qed.

(** X8.  A plugin may be named with or without [.so].  For a name that
    lacks the suffix: when the path of the file resolves, the two spellings
    give the same result; after a successful open under the short name, an
    open under the long one returns the record of the registry and changes
    nothing; when the path does not resolve, both spellings end in the
    error about the path, each with the name it was given. *)
Theorem openPlugin_adds_the_suffix
    {loader : Loader} (basename : string) (st : PluginState)
    (Hbare : hasSuffix basename ".so" = false) :
  (forall pathname,
      realpath (basename +:+ ".so")%string = Some pathname ->
      openPlugin (basename +:+ ".so")%string st = openPlugin basename st)
  /\ (forall p st',
        openPlugin basename st = Ok (p, st') ->
        openPlugin (basename +:+ ".so")%string st' = Ok (p, st'))
  /\ (realpath (basename +:+ ".so")%string = None ->
      openPlugin basename st
      = Fatal ("failed to create path for plugin " +:+ quoted basename
               +:+ "; " +:+ strerror (basename +:+ ".so"))%string
      /\ openPlugin (basename +:+ ".so")%string st
         = Fatal ("failed to create path for plugin "
                  +:+ quoted (basename +:+ ".so")
                  +:+ "; " +:+ strerror (basename +:+ ".so"))%string).
Proof.
  split; [|split].
  - intros pathname Hpath. unfold openPlugin.
    rewrite hasSuffix_append, Hbare. cbn [negb]. rewrite Hpath.
    reflexivity.
  - intros p st' Hopen.
    exact (openPlugin_other_spelling basename st st' p Hbare Hopen).
  - intros Hpath. unfold openPlugin.
    rewrite hasSuffix_append, Hbare. cbn [negb]. rewrite Hpath.
    split; reflexivity.
Qed.

Lemma openPlugin_adds_the_suffix_witness :
  @openPlugin instr_only_loader "counter.so" no_plugins
  = @openPlugin instr_only_loader "counter" no_plugins.
Proof.
  apply (proj1 (@openPlugin_adds_the_suffix instr_only_loader "counter"
                  no_plugins eq_refl) "/plugins/counter.so").
  reflexivity.
Defined.

(** X9.  The output name sent with the Emit message: for each of the patch
    formats it carries the suffix of the format, a name that has the suffix
    already is kept, and the format is passed on unchanged; the json format
    is sent as [a.out] in format [binary]; for the binary format the name is
    the one given. *)
Theorem final_output_has_the_format_suffix (format output : string) :
  (In format ["patch"; "patch.gz"; "patch.bz2"; "patch.xz"]%string ->
   hasSuffix (fst (final_output format output)) ("." +:+ format)%string = true
   /\ snd (final_output format output) = format
   /\ (hasSuffix output ("." +:+ format)%string = true ->
       fst (final_output format output) = output))
  /\ final_output "json" output = ("a.out", "binary")%string
  /\ final_output "binary" output = (output, "binary"%string).
Proof.
  split; [|split; reflexivity].
  intros Hin. simpl in Hin.
  destruct Hin as [<-|[<-|[<-|[<-|[]]]]]; unfold final_output;
    cbn [String.eqb Ascii.eqb Bool.eqb andb String.append];
    match goal with
    | |- context [hasSuffix output ?suf] =>
        destruct (hasSuffix output suf) eqn:Hs
    end; cbn [negb fst snd];
    repeat split; try assumption; try reflexivity;
    try apply hasSuffix_append;
    try (intros Hc; change ("." +:+ ?f)%string with (String "." f) in Hc;
         cbn [String.append] in Hc; congruence).
Qed.

Lemma final_output_has_the_format_suffix_witness :
  final_output "patch.gz" "prog" = ("prog.patch.gz", "patch.gz")%string
  /\ fst (final_output "patch.gz" "prog.patch.gz") = "prog.patch.gz"%string.
Proof.
  split; [reflexivity|].
  apply (proj1 (final_output_has_the_format_suffix "patch.gz"
                  "prog.patch.gz")).
  - simpl. tauto.
  - reflexivity.
Defined.

(** ** Memory-operand literals, in general *)

Lemma getToken_mode (parser : Parser) :
  parser_mode (snd (getToken parser)) = parser_mode parser.
Proof. unfold getToken. destruct (parser_tokens parser); reflexivity. Qed.

Lemma unexpected_is_tagged {A : Type} (parser : Parser) (mode : string) :
  parser_mode parser = mode ->
  exists msg, @unexpectedToken A parser = Fatal msg /\ tagged_error mode msg.
Proof.
  intros <-. eexists. split; [reflexivity|].
  exists "unexpected token"%string. split; [simpl; tauto|reflexivity].
Qed.

Lemma to_int32_small (z : Z) :
  INT32_MIN <= z <= INT32_MAX -> to_int32 z = z.
Proof.
  unfold INT32_MIN, INT32_MAX, to_int32. intros H.
  rewrite Z.mod_small by lia. lia.
Qed.

Lemma valid_scale_cases (s : Z) :
  valid_scale s = true -> In (to_uint8 s) [1; 2; 4; 8].
Proof.
  unfold valid_scale. intros H.
  repeat (apply orb_true_iff in H as [H|H]);
    apply Z.eqb_eq in H; subst s; simpl; tauto.
Qed.

Lemma memop_validate_sound (parser : Parser) (memop : MemOp)
    (disp64 scale64 : Z) :
  memop_scale memop = 1 ->
  memop_sound (memop_size memop) (parser_mode parser)
    (memop_validate parser memop disp64 scale64).
Proof.
  intros Hscale. unfold memop_validate, expectChar.
  pose proof (getToken_mode parser) as Hmode.
  destruct (getToken parser) as [t p1]. cbn [snd] in Hmode.
  destruct (is_char t ">"%char).
  2:{ destruct (@unexpected_is_tagged Parser p1 _ Hmode) as (msg & -> & Ht).
      exact Ht. }
  cbn [obind]. rewrite Hscale. cbn [Z.eqb negb]. rewrite andb_false_r.
  assert (Herr : forall what,
             In what memop_errors ->
             memop_sound (memop_size memop) (parser_mode parser)
               (parse_error p1 what)).
  { intros what Hin. exists what. split; [exact Hin|].
    rewrite Hmode. reflexivity. }
  destruct ((disp64 <? INT32_MIN) || (disp64 >? INT32_MAX)) eqn:Hd;
    [apply Herr; simpl; tauto|].
  destruct (valid_seg (memop_seg memop)) eqn:Hs; cbn [negb];
    [|apply Herr; simpl; tauto].
  destruct (valid_base (memop_base memop)) eqn:Hb; cbn [negb];
    [|apply Herr; simpl; tauto].
  destruct (valid_index (memop_index memop)) eqn:Hi; cbn [negb];
    [|apply Herr; simpl; tauto].
  destruct (valid_scale scale64) eqn:Hv; cbn [negb];
    [|apply Herr; simpl; tauto].
  apply orb_false_iff in Hd as [Hlo Hhi].
  apply Z.ltb_ge in Hlo. rewrite Z.gtb_ltb in Hhi. apply Z.ltb_ge in Hhi.
  cbn [memop_sound memop_seg memop_base memop_index memop_scale memop_disp
       memop_size].
  rewrite to_int32_small by lia.
  repeat split; try assumption; try lia.
  apply valid_scale_cases. exact Hv.
Qed.

Lemma memop_scale_part_sound (parser : Parser) (memop : MemOp) (disp64 : Z) :
  memop_scale memop = 1 ->
  memop_sound (memop_size memop) (parser_mode parser)
    (memop_scale_part parser memop disp64).
Proof.
  intros Hscale. unfold memop_scale_part, expectInteger, expectChar.
  pose proof (getToken_mode parser) as Hm1.
  destruct (getToken parser) as [t p1]. cbn [snd] in Hm1.
  destruct t;
    try (destruct (@unexpected_is_tagged (Z * Parser) p1 _ Hm1)
           as (msg & -> & Ht); exact Ht).
  cbn [obind].
  pose proof (getToken_mode p1) as Hm2.
  destruct (getToken p1) as [t2 p2]. cbn [snd] in Hm2.
  destruct (is_char t2 ")"%char).
  - cbn [obind]. rewrite <- Hm1, <- Hm2.
    apply memop_validate_sound. exact Hscale.
  - destruct (@unexpected_is_tagged Parser p2 (parser_mode parser)
                ltac:(congruence)) as (msg & -> & Ht).
    exact Ht.
Qed.

Lemma memop_index_part_sound (parser : Parser) (memop : MemOp) (disp64 : Z) :
  memop_scale memop = 1 ->
  memop_sound (memop_size memop) (parser_mode parser)
    (memop_index_part parser memop disp64).
Proof.
  intros Hscale. unfold memop_index_part.
  pose proof (getToken_mode parser) as Hm1.
  destruct (getToken parser) as [t p1]. cbn [snd] in Hm1.
  assert (Hplain :
            memop_sound (memop_size memop) (parser_mode parser)
              (if is_char t ","%char then memop_scale_part p1 memop disp64
               else if is_char t ")"%char
                    then memop_validate p1 memop disp64 1
                    else unexpectedToken p1)).
  { rewrite <- Hm1. destruct (is_char t ","%char).
    - apply memop_scale_part_sound. exact Hscale.
    - destruct (is_char t ")"%char).
      + apply memop_validate_sound. exact Hscale.
      + destruct (@unexpected_is_tagged (MemOp * Parser) p1 _ eq_refl)
          as (msg & -> & Ht). exact Ht. }
  assert (Hreg : forall r,
            memop_sound (memop_size memop) (parser_mode parser)
              (let memop := set_index memop r in
               let (t, parser) := getToken p1 in
               if is_char t ")"%char then memop_validate parser memop disp64 1
               else if is_char t ","%char
                    then memop_scale_part parser memop disp64
                    else unexpectedToken parser)).
  { intros r. cbn zeta.
    pose proof (getToken_mode p1) as Hm2.
    destruct (getToken p1) as [t2 p2]. cbn [snd] in Hm2.
    replace (parser_mode parser) with (parser_mode p2) by congruence.
    change (memop_size memop) with (memop_size (set_index memop r)).
    destruct (is_char t2 ")"%char).
    - apply memop_validate_sound. exact Hscale.
    - destruct (is_char t2 ","%char).
      + apply memop_scale_part_sound. exact Hscale.
      + destruct (@unexpected_is_tagged (MemOp * Parser) p2 _ eq_refl)
          as (msg & -> & Ht). exact Ht. }
  destruct t; first [exact Hplain | apply Hreg].
Qed.


Lemma memop_sound_eq (size size' : Z) (mode mode' : string)
    (r : Outcome (MemOp * Parser)) :
  size = size' -> mode = mode' ->
  memop_sound size mode r -> memop_sound size' mode' r.
Proof. intros <- <- H. exact H. Qed.

Lemma parseMemOp_sound_mem64 (parser : Parser) :
  memop_sound 1 (parser_mode parser) (parseMemOp parser TOKEN_MEM64).
Proof.
  unfold parseMemOp. cbn [obind].
  set (memop0 := {| memop_seg := REGISTER_NONE; memop_disp := 0;
                    memop_base := REGISTER_NONE;
                    memop_index := REGISTER_NONE;
                    memop_scale := 1; memop_size := 1 |}).
  unfold expectChar at 1.
  pose proof (getToken_mode parser) as Hm1.
  destruct (getToken parser) as [t1 p1]. cbn [snd] in Hm1.
  destruct (is_char t1 "<"%char);
    [|destruct (@unexpected_is_tagged Parser p1 _ Hm1)
        as (msg & -> & Ht); exact Ht].
  cbn [obind].
  (* the segment prefix *)
  match goal with
  | |- memop_sound _ _ (obind ?r1 _) =>
      assert (Hseg :
                (exists m1 q1, r1 = Ok (m1, q1) /\ memop_scale m1 = 1
                               /\ memop_size m1 = 1
                               /\ parser_mode q1 = parser_mode parser)
                \/ (exists msg, r1 = Fatal msg
                                /\ tagged_error (parser_mode parser) msg))
  end.
  { destruct (peekToken p1);
      try (left; exists memop0, p1; repeat split; assumption).
    pose proof (getToken_mode p1) as Hm2.
    destruct (getToken p1) as [t2 p2]. cbn [snd] in Hm2.
    unfold expectChar.
    pose proof (getToken_mode p2) as Hm3.
    destruct (getToken p2) as [t3 p3]. cbn [snd] in Hm3.
    destruct (is_char t3 ":"%char); cbn [obind].
    - left. eexists _, p3. split; [reflexivity|].
      repeat split; congruence.
    - right.
      destruct (@unexpected_is_tagged Parser p3 (parser_mode parser)
                  ltac:(congruence)) as (msg & Hmsg & Ht).
      exists msg. split; [rewrite Hmsg; reflexivity|exact Ht]. }
  destruct Hseg as [(m1 & q1 & -> & Hsc & Hsz & Hq1)|(msg & -> & Ht)];
    [|exact Ht].
  cbn [obind].
  (* the displacement *)
  match goal with
  | |- memop_sound _ _ (let (_, _) := ?pair in _) =>
      assert (Hdisp : exists d q2, pair = (d, q2)
                                   /\ parser_mode q2 = parser_mode parser)
  end.
  { destruct (peekToken q1);
      try (eexists _, q1; split; [reflexivity|exact Hq1]).
    eexists _, _. split; [reflexivity|].
    rewrite getToken_mode. exact Hq1. }
  destruct Hdisp as (d & q2 & -> & Hq2).
  destruct (is_char (peekToken q2) "("%char); cbn [negb];
    [|apply (memop_sound_eq (memop_size m1) 1 (parser_mode q2) _ _ Hsz Hq2);
      apply memop_validate_sound; exact Hsc].
  (* base, index and scale *)
  pose proof (getToken_mode q2) as Hq3.
  destruct (getToken q2) as [t3 q3]. cbn [snd] in Hq3.
  pose proof (getToken_mode q3) as Hq4.
  destruct (getToken q3) as [t4 q4]. cbn [snd] in Hq4.
  assert (Hmode : parser_mode q4 = parser_mode parser) by congruence.
  assert (Hplain :
            memop_sound 1 (parser_mode parser)
              (if is_char t4 ","%char then memop_index_part q4 m1 d
               else if is_char t4 ")"%char
                    then memop_validate q4 m1 d 1
                    else unexpectedToken q4)).
  { apply (memop_sound_eq (memop_size m1) 1 (parser_mode q4) _ _ Hsz Hmode).
    destruct (is_char t4 ","%char).
    - apply memop_index_part_sound. exact Hsc.
    - destruct (is_char t4 ")"%char).
      + apply memop_validate_sound. exact Hsc.
      + destruct (@unexpected_is_tagged (MemOp * Parser) q4 _ eq_refl)
          as (msg & -> & Ht). exact Ht. }
  assert (Hreg : forall r,
            memop_sound 1 (parser_mode parser)
              (let (t, parser) := getToken q4 in
               if is_char t ")"%char
               then memop_validate parser (set_base m1 r) d 1
               else if is_char t ","%char
                    then memop_index_part parser (set_base m1 r) d
                    else unexpectedToken parser)).
  { intros r.
    pose proof (getToken_mode q4) as Hq5.
    destruct (getToken q4) as [t5 q5]. cbn [snd] in Hq5.
    apply (memop_sound_eq (memop_size (set_base m1 r)) 1 (parser_mode q5)
             (parser_mode parser)); [exact Hsz|congruence|].
    destruct (is_char t5 ")"%char).
    - apply memop_validate_sound. exact Hsc.
    - destruct (is_char t5 ","%char).
      + apply memop_index_part_sound. exact Hsc.
      + destruct (@unexpected_is_tagged (MemOp * Parser) q5 _ eq_refl)
          as (msg & -> & Ht). exact Ht. }
  destruct t4; first [exact Hplain | apply Hreg].
Qed.

Lemma parseMemOp_sound (parser : Parser) (t : Token) :
  memop_sound 1 (parser_mode parser) (parseMemOp parser t).
Proof.
  destruct t;
    try (unfold parseMemOp;
         destruct (@unexpected_is_tagged Z parser _ eq_refl)
           as (msg & -> & Ht); exact Ht);
    exact (parseMemOp_sound_mem64 parser).
Qed.

(** X10.  A memory operand that [parseMemOp] returns has a segment, a
    base and an index register from the lists the function accepts, a scale
    of 1, 2, 4 or 8 and a displacement that fits 32 bits; its size field is
    1 whichever of [mem8], [mem16], [mem32] and [mem64] introduced it (each
    case assigns [sizeof(int8_t)]); the parser keeps its mode. *)
Theorem parseMemOp_returns_a_valid_operand
    (parser parser' : Parser) (t : Token) (memop : MemOp)
    (Hparse : parseMemOp parser t = Ok (memop, parser')) :
  MemOp_valid memop /\ parser_mode parser' = parser_mode parser.
Proof.
  pose proof (parseMemOp_sound parser t) as H. rewrite Hparse in H.
  destruct H as (Hs & Hb & Hi & Hsc & Hd & Hsz & Hm).
  split; [|exact Hm]. repeat split; assumption || lia.
Qed.

Lemma parseMemOp_returns_a_valid_operand_witness :
  MemOp_valid
    {| memop_seg := REGISTER_NONE; memop_disp := 0;
       memop_base := REGISTER_RIP; memop_index := REGISTER_RAX;
       memop_scale := 2; memop_size := 1 |}.
Proof.
  apply (parseMemOp_returns_a_valid_operand
           (action_parser rip_indexed_tokens) (action_parser [])
           TOKEN_MEM64).
  reflexivity.
Defined.

(** X11.  [parseMemOp] either returns an operand or ends with a fatal
    error whose message names the parser's mode and gives one of six
    reasons: an unexpected token, a displacement out of range, an invalid
    segment, base or index register, or an invalid scale.  The error about
    a [%rip] base with an index or a scale is not among them: it is never
    raised. *)
Theorem parseMemOp_fails_with_a_tagged_error (parser : Parser) (t : Token) :
  parseMemOp parser t <> Crash
  /\ (forall msg,
        parseMemOp parser t = Fatal msg ->
        tagged_error (parser_mode parser) msg)
  /\ ~ In "invalid memory operand with %rip base register and non-empty index/scale"%string
          memop_errors.
Proof.
  pose proof (parseMemOp_sound parser t) as H.
  split; [|split].
  - intros Hc. rewrite Hc in H. exact H.
  - intros msg Hm. rewrite Hm in H. exact H.
  - intros Hin. simpl in Hin.
    repeat (destruct Hin as [Hin|Hin]; [discriminate Hin|]). exact Hin.
Qed.

Lemma parseMemOp_fails_with_a_tagged_error_witness :
  tagged_error "action"
    "failed to parse action; invalid memory operand index register".
Proof.
  apply (proj1 (proj2 (parseMemOp_fails_with_a_tagged_error
                         (action_parser
                            [ TOKEN_CHAR "<"; TOKEN_INTEGER 8; TOKEN_CHAR "(";
                              TOKEN_REGISTER REGISTER_RSP; TOKEN_CHAR ",";
                              TOKEN_REGISTER REGISTER_RSP; TOKEN_CHAR ",";
                              TOKEN_INTEGER 2; TOKEN_CHAR ")";
                              TOKEN_CHAR ">" ]%char)
                         TOKEN_MEM64))).
  reflexivity.
Defined.

(** ** What the walk keeps *)

Section FaithfulFacts.

Variables (text_addr text_offset : Z).

Local Abbreviation faithful' := (faithful text_addr text_offset).

Lemma clear_lookup (locs locs' : list Location) (j : nat) (loc' : Location) :
  map clear_emitted locs' = map clear_emitted locs ->
  locs' !! j = Some loc' ->
  exists loc, locs !! j = Some loc /\ clear_emitted loc = clear_emitted loc'.
Proof.
  intros Hmap Hj.
  assert (H : map clear_emitted locs !! j = Some (clear_emitted loc')).
  { rewrite <- Hmap. rewrite list_lookup_fmap, Hj. reflexivity. }
  rewrite list_lookup_fmap in H.
  destruct (locs !! j) as [loc|]; [|discriminate H].
  exists loc. split; [reflexivity|]. exact (inj Some _ _ H).
Qed.

Lemma clear_fields (loc loc' : Location) :
  clear_emitted loc = clear_emitted loc' ->
  loc_offset loc = loc_offset loc' /\ loc_size loc = loc_size loc'
  /\ loc_patch loc = loc_patch loc' /\ loc_action loc = loc_action loc'.
Proof.
  intros H. injection H as H1 H2 H3 H4. repeat split; assumption.
Qed.

Lemma faithful_ret {A : Type} (get : A -> list Location) (a : A) :
  faithful' get (get a) (emit_ret a).
Proof.
  split.
  - intros a' H. injection H as <-. reflexivity.
  - intros j addr size offset [].
Qed.

Lemma faithful_stop {A : Type} (get : A -> list Location)
    (locs : list Location) (r : Outcome A) :
  (forall a, r <> Ok a) -> faithful' get locs ([], r).
Proof.
  intros Hr. split.
  - intros a Ha. destruct (Hr a Ha).
  - intros j addr size offset [].
Qed.

Lemma faithful_bind {A B : Type} (getA : A -> list Location)
    (getB : B -> list Location) (locs : list Location) (m : Emit A)
    (k : A -> Emit B) :
  faithful' getA locs m ->
  (forall a, snd m = Ok a -> faithful' getB (getA a) (k a)) ->
  faithful' getB locs (emit_bind m k).
Proof.
  intros [Hkeep Hmsg] Hk.
  destruct m as [w [a| |]]; cbn [emit_bind fst snd] in *.
  - specialize (Hkeep a eq_refl). destruct (Hk a eq_refl) as [Hkeep' Hmsg'].
    destruct (k a) as [w' r]. cbn [fst snd] in *. split.
    + intros b Hb. rewrite (Hkeep' b Hb). exact Hkeep.
    + intros j addr size offset Hin. apply in_app_or in Hin as [Hin|Hin].
      * apply Hmsg. exact Hin.
      * destruct (Hmsg' j addr size offset Hin)
          as (loc' & Hj & -> & -> & ->).
        destruct (clear_lookup locs (getA a) j loc' Hkeep Hj)
          as (loc & Hloc & Hclear).
        destruct (clear_fields loc loc' Hclear) as (Ho & Hs & _ & _).
        exists loc. unfold loc_addr. rewrite Ho, Hs.
        repeat split. exact Hloc.
  - split; [intros b Hb; discriminate Hb|exact Hmsg].
  - split; [intros b Hb; discriminate Hb|exact Hmsg].
Qed.

Lemma clear_insert_emitted (locs : list Location) (j : nat) (loc : Location) :
  locs !! j = Some loc ->
  map clear_emitted (<[j := set_emitted loc]> locs) = map clear_emitted locs.
Proof.
  intros Hj. rewrite list_fmap_insert.
  apply list_insert_id. rewrite list_lookup_fmap, Hj. reflexivity.
Qed.

Lemma faithful_send_at (addr : Z) (j : nat) (locs : list Location) :
  faithful' snd locs (send_at text_addr text_offset addr j locs).
Proof.
  destruct (locs !! j) as [loc|] eqn:Hj.
  - destruct (out_of_window text_addr addr loc) eqn:Ho;
      [rewrite (send_at_outside _ _ _ j locs loc Hj Ho);
       apply (faithful_ret snd (false, locs))|].
    destruct (loc_emitted loc) eqn:He;
      [rewrite (send_at_emitted _ _ _ j locs loc Hj Ho He);
       apply (faithful_ret snd (true, locs))|].
    rewrite (send_at_fresh _ _ _ j locs loc Hj Ho He). split.
    + intros a Ha. injection Ha as <-. cbn [snd].
      apply clear_insert_emitted. exact Hj.
    + intros k a s o [Hin|[]]. injection Hin as <- <- <- <-.
      exists loc. repeat split. exact Hj.
  - unfold send_at. rewrite Hj. apply faithful_stop. discriminate.
Qed.

Lemma faithful_walk_down (addr : Z) (j : nat) :
  forall locs,
    faithful' (fun l => l) locs (walk_down text_addr text_offset addr j locs).
Proof.
  induction j as [|j IH]; intros locs; simpl;
    (eapply (faithful_bind snd (fun l => l)); [apply faithful_send_at|]);
    intros [r locs1] _; cbn [snd]; destruct r;
    first [apply (faithful_ret (fun l => l) locs1) | apply IH].
Qed.

Lemma faithful_walk_up (addr : Z) (n : nat) :
  forall j locs,
    faithful' (fun l => l) locs (walk_up text_addr text_offset addr n j locs).
Proof.
  induction n as [|n IH]; intros j locs; simpl.
  - apply (faithful_ret (fun l => l) locs).
  - eapply (faithful_bind snd (fun l => l)); [apply faithful_send_at|].
    intros [r locs1] _; cbn [snd]; destruct r;
      first [apply IH | apply (faithful_ret (fun l => l) locs1)].
Qed.

Lemma faithful_send_window (addr : Z) (i : nat) (locs : list Location) :
  faithful' (fun l => l) locs
    (send_window text_addr text_offset addr i locs).
Proof.
  unfold send_window.
  eapply (faithful_bind (fun l => l) (fun l => l));
    [apply faithful_walk_down|].
  intros locs1 _. apply faithful_walk_up.
Qed.

Variables (redisassemble : Z -> Z -> Z -> bool) (plugin_table : Plugins)
  (actions : list Action).

Lemma faithful_send_patch (locs : list Location) (i : nat) (loc : Location)
    (offset pid : Z) :
  faithful' (fun _ : unit => locs) locs
    (send_patch plugin_table actions i loc offset pid).
Proof.
  assert (Hone : forall e,
             is_instruction_of_any e = false ->
             faithful' (fun _ : unit => locs) locs ([e], Ok tt)).
  { intros e He. split; [intros a _; reflexivity|].
    intros j a s o [Hin|[]]. subst e. discriminate He. }
  unfold send_patch.
  destruct (actions !! Z.to_nat (loc_action loc)) as [action|];
    [|apply faithful_stop; discriminate].
  destruct (action_kind action); try (apply Hone; reflexivity).
  destruct (action_plugin action) as [key|];
    [|apply faithful_stop; discriminate].
  destruct (plugin_table !! key) as [p|];
    [|apply faithful_stop; discriminate].
  destruct (patchFunc p); [apply Hone; reflexivity|].
  apply (faithful_ret (fun _ : unit => locs) tt).
Qed.

Lemma faithful_patch_site (i : nat) (locs : list Location) (pid : Z) :
  faithful' fst locs
    (patch_site text_addr text_offset redisassemble plugin_table actions
       i locs pid).
Proof.
  unfold patch_site.
  destruct (locs !! i) as [loc|]; [|apply faithful_stop; discriminate].
  destruct (negb (loc_patch loc)); [apply (faithful_ret fst (locs, pid))|].
  destruct (negb (redisassemble _ _ _));
    [apply faithful_stop; discriminate|].
  eapply (faithful_bind (fun l => l) fst); [apply faithful_send_window|].
  intros locs1 _.
  eapply (faithful_bind (fun _ : unit => locs1) fst);
    [apply faithful_send_patch|].
  intros [] _. apply (faithful_ret fst (locs1, pid + 1)).
Qed.

Lemma faithful_walk_sites (n : nat) :
  forall locs pid,
    faithful' fst locs
      (walk_sites text_addr text_offset redisassemble plugin_table actions
         n locs pid).
Proof.
  induction n as [|n IH]; intros locs pid; simpl.
  - apply (faithful_ret fst (locs, pid)).
  - eapply (faithful_bind fst fst); [apply faithful_patch_site|].
    intros [locs1 pid1] _. apply IH.
Qed.

End FaithfulFacts.

(** X12.  The reverse walk changes nothing of the locations but their
    sticky flags, and never clears one: offsets, sizes, patch flags and
    action indices are the ones it was started with, and the number of
    locations is the same. *)
Theorem walk_changes_only_the_flags
    (text_addr text_offset : Z) (redisassemble : Z -> Z -> Z -> bool)
    (plugin_table : Plugins) (actions : list Action)
    (locs locs' : list Location) (pid' : Z)
    (Hrun : snd (reverse_walk text_addr text_offset redisassemble
                   plugin_table actions locs) = Ok (locs', pid')) :
  map clear_emitted locs' = map clear_emitted locs
  /\ length locs' = length locs
  /\ forall j, emitted_at locs j = true -> emitted_at locs' j = true.
Proof.
  unfold reverse_walk in Hrun.
  destruct (faithful_walk_sites text_addr text_offset redisassemble
              plugin_table actions (length locs) locs (-1)) as [Hkeep _].
  specialize (Hkeep _ Hrun). cbn [fst] in Hkeep.
  split; [exact Hkeep|]. split.
  - rewrite <- (length_map clear_emitted locs'), Hkeep. apply length_map.
  - intros j Hj.
    destruct (sticky_walk_sites text_addr text_offset redisassemble
                plugin_table actions (length locs) locs (-1) j)
      as [_ Hflag].
    specialize (Hflag _ Hrun). cbn [fst] in Hflag.
    rewrite Hj in Hflag.
    destruct (emitted_at locs' j); [reflexivity|]. simpl in Hflag. lia.
Qed.

Lemma walk_changes_only_the_flags_witness :
  exists locs' pid',
    snd (reverse_walk ref_text_addr ref_text_offset ref_redisassemble ∅
           ref_rules ref_locs) = Ok (locs', pid')
    /\ map clear_emitted locs' = map clear_emitted ref_locs.
Proof.
  eexists _, _. split; [reflexivity|].
  apply (walk_changes_only_the_flags ref_text_addr ref_text_offset
           ref_redisassemble ∅ ref_rules ref_locs _ _ eq_refl).
Defined.

(** X13.  Every Instruction message of the reverse walk describes the
    location it is written for: its address is the location's address, its
    size the location's size and its offset the location's offset in the
    file. *)
Theorem instruction_messages_describe_their_location
    (text_addr text_offset : Z) (redisassemble : Z -> Z -> Z -> bool)
    (plugin_table : Plugins) (actions : list Action)
    (locs : list Location) (j : nat) (addr size offset : Z)
    (Hin : In (j, MsgInstruction addr size offset)
             (fst (reverse_walk text_addr text_offset redisassemble
                     plugin_table actions locs))) :
  exists loc,
    locs !! j = Some loc
    /\ addr = loc_addr text_addr loc
    /\ size = loc_size loc
    /\ offset = to_int64 (text_offset + loc_offset loc).
Proof.
  unfold reverse_walk in Hin.
  destruct (faithful_walk_sites text_addr text_offset redisassemble
              plugin_table actions (length locs) locs (-1)) as [_ Hmsg].
  exact (Hmsg j addr size offset Hin).
Qed.

Lemma instruction_messages_describe_their_location_witness :
  exists loc,
    ref_overlap !! 1%nat = Some loc
    /\ 0x400032 = loc_addr ref_text_addr loc
    /\ 7 = loc_size loc
    /\ 0x1032 = to_int64 (ref_text_offset + loc_offset loc).
Proof.
  apply (instruction_messages_describe_their_location ref_text_addr
           ref_text_offset ref_redisassemble ∅ ref_rules ref_overlap).
  vm_compute. tauto.
Defined.

(** ** Patch sites are sent before they are patched *)

Section AnnouncedFacts.

Variables (text_addr text_offset : Z).

Lemma announced_nil {A : Type} (locs : list Location) (r : Outcome A) :
  announced locs (([] : list Event), r).
Proof.
  intros before e after H. destruct before; discriminate H.
Qed.

Lemma announced_instruction {A : Type} (locs : list Location) (r : Outcome A)
    (e : Event) :
  is_instruction_of_any e = true -> announced locs ([e], r).
Proof.
  intros He before e' after H Hn. cbn [fst] in H.
  destruct before as [|x before].
  - injection H as <- _. congruence.
  - injection H as _ H. destruct before; discriminate H.
Qed.

Lemma announced_bind {A B : Type} (getA : A -> list Location)
    (locs : list Location) (m : Emit A) (k : A -> Emit B) :
  sticky getA locs m ->
  announced locs m ->
  (forall a, snd m = Ok a -> announced (getA a) (k a)) ->
  announced locs (emit_bind m k).
Proof.
  intros Hst Hm Hk.
  destruct m as [w [a| |]]; cbn [emit_bind]; try exact Hm.
  specialize (Hk a eq_refl). destruct (k a) as [w' r].
  intros before e after Hsplit He. cbn [fst] in Hsplit.
  assert (Hin_right :
            forall pre, w' = pre ++ e :: after -> before = w ++ pre ->
                        (instruction_count (fst e) before
                         + Nat.b2n (emitted_at locs (fst e)) = 1)%nat).
  { intros pre Hw' ->. rewrite instruction_count_app.
    pose proof (Hk pre e after Hw' He) as H1.
    destruct (Hst (fst e)) as [_ Hflag].
    specialize (Hflag a eq_refl). cbn [fst] in Hflag. lia. }
  apply app_eq_app in Hsplit as [l [[Hw Hrest]|[Hb Hw']]].
  - destruct l as [|x l].
    + apply (Hin_right []); [symmetry; exact Hrest|].
      rewrite Hw. rewrite !app_nil_r. reflexivity.
    + injection Hrest as <- Hafter.
      apply (Hm before e l); [exact Hw|exact He].
  - apply (Hin_right l); [exact Hw'|exact Hb].
Qed.

Lemma announced_send_at (addr : Z) (j : nat) (locs : list Location) :
  announced locs (send_at text_addr text_offset addr j locs).
Proof.
  unfold send_at. destruct (locs !! j) as [loc|]; [|apply announced_nil].
  destruct (sendInstructionMessage loc addr text_addr text_offset)
    as [[r loc'] [msg|]] eqn:E; [|apply announced_nil].
  apply announced_instruction.
  unfold sendInstructionMessage in E.
  destruct (out_of_window text_addr addr loc); [discriminate E|].
  destruct (loc_emitted loc); [discriminate E|].
  injection E as _ _ <-. reflexivity.
Qed.

Lemma announced_walk_down (addr : Z) (j : nat) :
  forall locs, announced locs (walk_down text_addr text_offset addr j locs).
Proof.
  induction j as [|j IH]; intros locs; simpl;
    (eapply (announced_bind snd);
     [apply sticky_send_at|apply announced_send_at|]);
    intros [r locs1] _; cbn [snd]; destruct r;
    first [apply announced_nil | apply IH].
Qed.

Lemma announced_walk_up (addr : Z) (n : nat) :
  forall j locs,
    announced locs (walk_up text_addr text_offset addr n j locs).
Proof.
  induction n as [|n IH]; intros j locs; simpl.
  - apply announced_nil.
  - eapply (announced_bind snd);
      [apply sticky_send_at|apply announced_send_at|].
    intros [r locs1] _; cbn [snd]; destruct r;
      first [apply IH | apply announced_nil].
Qed.

Lemma announced_send_window (addr : Z) (i : nat) (locs : list Location) :
  announced locs (send_window text_addr text_offset addr i locs).
Proof.
  unfold send_window.
  eapply (announced_bind (fun l => l));
    [apply (sticky_walk_down text_addr text_offset addr i locs)
    |apply announced_walk_down|].
  intros locs1 _. apply announced_walk_up.
Qed.

(** After the two loops around a site the site itself is emitted. *)
Lemma send_window_marks (i : nat) (locs locs1 : list Location)
    (site : Location) :
  locs !! i = Some site ->
  snd (send_window text_addr text_offset (loc_addr text_addr site) i locs)
  = Ok locs1 ->
  emitted_at locs1 i = true.
Proof.
  intros Hsite Hrun.
  assert (Hi : (i < length locs)%nat) by (eapply lookup_lt_Some; exact Hsite).
  destruct (send_window_spec text_addr text_offset (loc_addr text_addr site)
              i locs Hi) as (w & locs' & Hw & Hiff).
  destruct (sticky_send_window text_addr text_offset
              (loc_addr text_addr site) i locs i) as [_ Hflag].
  rewrite Hw in Hrun, Hflag. cbn [snd fst] in *.
  injection Hrun as ->. specialize (Hflag locs1 eq_refl).
  cbn in Hflag.
  destruct (emitted_at locs1 i); [reflexivity|]. exfalso.
  assert (He : loc_emitted site = false).
  { unfold emitted_at in Hflag. rewrite Hsite in Hflag.
    destruct (loc_emitted site); [simpl in Hflag; lia|reflexivity]. }
  assert (Hone : instruction_count i w = 1%nat).
  { apply Hiff. left.
    apply (down_top_fresh text_addr (loc_addr text_addr site) locs i site
             Hsite); [|exact He].
    apply out_of_window_false. unfold INT8_MAX.
    rewrite Z.sub_diag. simpl. lia. }
  simpl in Hflag. lia.
Qed.

Variables (redisassemble : Z -> Z -> Z -> bool) (plugin_table : Plugins)
  (actions : list Action).

Lemma announced_send_patch (locs : list Location) (i : nat) (loc : Location)
    (offset pid : Z) :
  emitted_at locs i = true ->
  announced locs (send_patch plugin_table actions i loc offset pid).
Proof.
  intros Hi.
  assert (Hone : forall (msg : Message) (r : Outcome unit),
             announced locs ([(i, msg)], r)).
  { intros msg r before e after H _. cbn [fst] in H.
    destruct before as [|x before].
    - injection H as <- _. cbn [fst instruction_count]. rewrite Hi.
      reflexivity.
    - injection H as _ H. destruct before; discriminate H. }
  unfold send_patch.
  destruct (actions !! Z.to_nat (loc_action loc)) as [action|];
    [|apply announced_nil].
  destruct (action_kind action); try apply Hone.
  destruct (action_plugin action) as [key|]; [|apply announced_nil].
  destruct (plugin_table !! key) as [p|]; [|apply announced_nil].
  destruct (patchFunc p); [apply Hone|apply announced_nil].
Qed.

Lemma announced_patch_site (i : nat) (locs : list Location) (pid : Z) :
  announced locs
    (patch_site text_addr text_offset redisassemble plugin_table actions
       i locs pid).
Proof.
  unfold patch_site.
  destruct (locs !! i) as [loc|] eqn:Hsite; [|apply announced_nil].
  destruct (negb (loc_patch loc)); [apply announced_nil|].
  destruct (negb (redisassemble _ _ _)); [apply announced_nil|].
  eapply (announced_bind (fun l => l));
    [apply sticky_send_window|apply announced_send_window|].
  intros locs1 Hrun.
  eapply (announced_bind (fun _ : unit => locs1));
    [apply sticky_send_patch| |intros [] _; apply announced_nil].
  apply announced_send_patch.
  exact (send_window_marks i locs locs1 loc Hsite Hrun).
Qed.

Lemma announced_walk_sites (n : nat) :
  forall locs pid,
    announced locs
      (walk_sites text_addr text_offset redisassemble plugin_table actions
         n locs pid).
Proof.
  induction n as [|n IH]; intros locs pid; simpl.
  - apply announced_nil.
  - eapply (announced_bind fst);
      [apply sticky_patch_site|apply announced_patch_site|].
    intros [locs1 pid1] _. apply IH.
Qed.

Lemma patch_site_marks (i : nat) (locs l1 : list Location) (site : Location)
    (pid p1 : Z) :
  locs !! i = Some site ->
  loc_patch site = true ->
  snd (patch_site text_addr text_offset redisassemble plugin_table actions
         i locs pid) = Ok (l1, p1) ->
  emitted_at l1 i = true.
Proof.
  intros Hsite Hpatch. unfold patch_site. rewrite Hsite, Hpatch. cbn [negb].
  destruct (negb (redisassemble _ _ _)); [discriminate|].
  fold (loc_addr text_addr site).
  destruct (send_window text_addr text_offset (loc_addr text_addr site)
              i locs) as [ww [lw| |]] eqn:Ew;
    cbn [emit_bind snd]; try discriminate.
  destruct (send_patch plugin_table actions i site _ _) as [wp [[]| |]];
    cbn [emit_bind emit_ret snd]; try discriminate.
  intros H. injection H as <- _.
  apply (send_window_marks i locs lw site Hsite).
  rewrite Ew. reflexivity.
Qed.

Lemma walk_sites_marks (n : nat) :
  forall locs pid locs' pid',
    snd (walk_sites text_addr text_offset redisassemble plugin_table actions
           n locs pid) = Ok (locs', pid') ->
    forall i site,
      (i < n)%nat -> locs !! i = Some site -> loc_patch site = true ->
      emitted_at locs' i = true.
Proof.
  induction n as [|n IH]; intros locs pid locs' pid' Hrun i site Hi Hsite Hp;
    [lia|].
  cbn [walk_sites] in Hrun.
  pose proof (faithful_patch_site text_addr text_offset redisassemble
                plugin_table actions n locs pid) as [Hkeep _].
  pose proof (fun l1 site p1 => patch_site_marks n locs l1 site pid p1)
    as Hmark.
  destruct (patch_site text_addr text_offset redisassemble plugin_table
              actions n locs pid) as [w1 [[l1 p1]| |]];
    cbn [emit_bind snd] in Hrun; try discriminate Hrun.
  specialize (Hkeep _ eq_refl). cbn [fst] in Hkeep.
  pose proof (sticky_walk_sites text_addr text_offset redisassemble
                plugin_table actions n l1 p1 i) as [_ Hflag].
  pose proof (IH l1 p1) as IH'.
  destruct (walk_sites text_addr text_offset redisassemble plugin_table
              actions n l1 p1) as [w2 r2].
  cbn [snd] in Hrun, Hflag, IH'. subst r2.
  destruct (Nat.eq_dec i n) as [->|Hne].
  - specialize (Hflag _ eq_refl). cbn [fst] in Hflag.
    rewrite (Hmark l1 site p1 Hsite Hp eq_refl) in Hflag.
    destruct (emitted_at locs' n); [reflexivity|]. simpl in Hflag. lia.
  - destruct (clear_lookup l1 locs i site (eq_sym Hkeep) Hsite)
      as (s1 & Hs1 & Hclear).
    destruct (clear_fields s1 site Hclear) as (_ & _ & Hpatch & _).
    apply (IH' locs' pid' eq_refl i s1); [lia|exact Hs1|congruence].
Qed.

End AnnouncedFacts.

(** X14.  When the reverse walk ends normally, every patch site has been
    emitted: the backend has the Instruction message of every instruction
    it is asked to patch. *)
Theorem every_patch_site_is_emitted
    (text_addr text_offset : Z) (redisassemble : Z -> Z -> Z -> bool)
    (plugin_table : Plugins) (actions : list Action)
    (locs locs' : list Location) (pid' : Z) (i : nat) (site : Location)
    (Hrun : snd (reverse_walk text_addr text_offset redisassemble
                   plugin_table actions locs) = Ok (locs', pid'))
    (Hsite : locs !! i = Some site)
    (Hpatch : loc_patch site = true) :
  emitted_at locs' i = true.
Proof.
  unfold reverse_walk in Hrun.
  apply (walk_sites_marks text_addr text_offset redisassemble plugin_table
           actions (length locs) locs (-1) locs' pid' Hrun i site);
    [eapply lookup_lt_Some; exact Hsite|exact Hsite|exact Hpatch].
Qed.

Lemma every_patch_site_is_emitted_witness :
  exists locs' pid',
    snd (reverse_walk ref_text_addr ref_text_offset ref_redisassemble ∅
           ref_rules ref_locs) = Ok (locs', pid')
    /\ emitted_at locs' 1 = true.
Proof.
  eexists _, _. split; [reflexivity|].
  apply (every_patch_site_is_emitted ref_text_addr ref_text_offset
           ref_redisassemble ∅ ref_rules ref_locs _ _ 1
           (mkLocation 100 7 true 0) eq_refl eq_refl eq_refl).
Defined.

(** X15.  In the stream of the reverse walk, started with no location
    emitted, the patch message of a site (or the call of its plugin's
    patcher) comes after the Instruction message of that site, which has
    been written exactly once by then; this holds for what has been written
    when the walk aborts, too. *)
Theorem patch_follows_its_instruction
    (text_addr text_offset : Z) (redisassemble : Z -> Z -> Z -> bool)
    (plugin_table : Plugins) (actions : list Action)
    (locs : list Location) (before after : list Event) (e : Event)
    (Hfresh : forall j, emitted_at locs j = false)
    (Hsplit : fst (reverse_walk text_addr text_offset redisassemble
                     plugin_table actions locs) = before ++ e :: after)
    (Hpatch : is_instruction_of_any e = false) :
  instruction_count (fst e) before = 1%nat.
Proof.
  pose proof (announced_walk_sites text_addr text_offset redisassemble
                plugin_table actions (length locs) locs (-1)
                before e after Hsplit Hpatch) as H.
  rewrite Hfresh in H. simpl in H. lia.
Qed.

Lemma patch_follows_its_instruction_witness :
  instruction_count 2
    [ (2%nat, MsgInstruction 0x400064 3 0x1064);
      (1%nat, MsgInstruction 0x400032 7 0x1032);
      (0%nat, MsgInstruction 0x400000 5 0x1000) ] = 1%nat.
Proof.
  apply (patch_follows_its_instruction ref_text_addr ref_text_offset
           ref_redisassemble ∅ ref_rules ref_overlap
           [ (2%nat, MsgInstruction 0x400064 3 0x1064);
             (1%nat, MsgInstruction 0x400032 7 0x1032);
             (0%nat, MsgInstruction 0x400000 5 0x1000) ]
           [ (0%nat, MsgPatch "passthru" 0x1000 1) ]
           (2%nat, MsgPatch "exit_1" 0x1064 0)).
  - intros [|[|[|j]]]; reflexivity.
  - reflexivity.
  - reflexivity.
Defined.

(** ** The rules of the command line *)

Lemma rule_options_fold (opts : list RuleOption) :
  forall pending entries,
    entries_options (snd (fold_left rule_option opts (pending, entries)))
    ++ map OPTION_MATCH (fst (fold_left rule_option opts (pending, entries)))
    = entries_options entries ++ map OPTION_MATCH pending ++ opts.
Proof.
  induction opts as [|opt opts IH]; intros pending entries; simpl.
  - rewrite app_nil_r. reflexivity.
  - destruct opt as [optarg|optarg]; rewrite IH.
    + rewrite map_app. simpl. rewrite <- !app_assoc. reflexivity.
    + unfold entries_options. rewrite map_app, concat_app. simpl.
      unfold entry_options at 2. simpl.
      rewrite app_nil_r, <- !app_assoc. reflexivity.
Qed.

Section AssemblyFacts.

Variable S : Type.
Variable parseMatch : string -> S -> Outcome (MatchExpr * S).
Variable parseAction : string -> MatchExpr -> S -> Outcome (Action * S).

Lemma make_actions_shape (entries : list ActionEntry) :
  forall actions s actions' s',
    make_actions S parseMatch parseAction entries actions s
    = Ok (actions', s') ->
    Forall (fun entry => entry_match entry <> []) entries
    /\ length actions' = (length actions + length entries)%nat.
Proof.
  induction entries as [|entry entries IH]; intros actions s actions' s' H;
    simpl in H.
  - injection H as <- _. split; [exact (List.Forall_nil _)|simpl; lia].
  - destruct (entry_match entry) as [|m ms] eqn:Hm; [discriminate H|].
    cbn [length Nat.eqb] in H.
    destruct (parse_matches S parseMatch (m :: ms) ExprNull s)
      as [[e s1]| |]; try discriminate H. cbn [obind] in H.
    destruct (parseAction (entry_action entry) e s1) as [[a s2]| |];
      try discriminate H. cbn [obind] in H.
    destruct (IH _ _ _ _ H) as [Hall Hlen]. split.
    + apply List.Forall_cons; [congruence|exact Hall].
    + rewrite Hlen, length_app. simpl. lia.
Qed.

Context {platform : Platform}.

Lemma match_all_snoc (plugins : Plugins) (exprs : list MatchExpr)
    (e : MatchExpr) (I : cs_insn) (offset : Z) (basename : option string) :
  forall record st,
    match_all plugins (exprs ++ [e]) I offset basename record st
    = let* (pass, record', st') :=
        match_all plugins exprs I offset basename record st in
      if negb pass then Ok (false, record', st')
      else matchEval plugins e I offset basename record' st'.
Proof.
  induction exprs as [|x exprs IH]; intros record st; simpl.
  - destruct (matchEval plugins e I offset basename record st)
      as [[[pass r] s]| |]; simpl; try reflexivity.
    destruct pass; reflexivity.
  - destruct (matchEval plugins x I offset basename record st)
      as [[[pass r] s]| |]; simpl; try reflexivity.
    destruct pass; simpl; [apply IH|reflexivity].
Qed.

Lemma matchEval_joined (plugins : Plugins) (m e : MatchExpr) (I : cs_insn)
    (offset : Z) (basename : option string) (record : option RecordPtr)
    (st : RandState) :
  matchEval plugins
    (match m with ExprNull => e | _ => ExprAnd m e end)
    I offset basename record st
  = let* (pass, record', st') :=
      matchEval plugins m I offset basename record st in
    if negb pass then Ok (false, record', st')
    else matchEval plugins e I offset basename record' st'.
Proof.
  destruct m; reflexivity.
Qed.

Lemma parse_matches_joins (strs : list string) :
  forall m s m' s' prev,
    parse_matches S parseMatch strs m s = Ok (m', s') ->
    (forall plugins I offset basename record st,
        matchEval plugins m I offset basename record st
        = match_all plugins prev I offset basename record st) ->
    exists exprs,
      Forall2 (fun str e => exists s1 s2, parseMatch str s1 = Ok (e, s2))
        strs exprs
      /\ forall plugins I offset basename record st,
          matchEval plugins m' I offset basename record st
          = match_all plugins (prev ++ exprs) I offset basename record st.
Proof.
  induction strs as [|str strs IH]; intros m s m' s' prev H Hm; simpl in H.
  - injection H as <- _. exists []. split; [exact (List.Forall2_nil _)|].
    intros. rewrite app_nil_r. apply Hm.
  - destruct (parseMatch str s) as [[e s1]| |] eqn:He; try discriminate H.
    cbn [obind] in H.
    destruct (IH _ _ _ _ (prev ++ [e]) H) as (exprs & Hall & Heq).
    + intros. rewrite matchEval_joined, match_all_snoc, Hm. reflexivity.
    + exists (e :: exprs). split.
      * apply List.Forall2_cons; [exists s, s1; exact He|exact Hall].
      * intros. rewrite Heq, <- app_assoc. reflexivity.
Qed.

End AssemblyFacts.

(** X16.  The command lines the tool accepts: when the checks on the
    options pass and the rules are assembled, the match and action options
    were a sequence of groups, each of one or more match options followed by
    one action option, in the order of the entries; there are as many rules
    as action options, at most [MAX_ACTIONS]. *)
Theorem accepted_rule_options
    (S : Type) (parseMatch : string -> S -> Outcome (MatchExpr * S))
    (parseAction : string -> MatchExpr -> S -> Outcome (Action * S))
    (opts : list RuleOption) (entries : list ActionEntry)
    (actions : list Action) (s s' : S)
    (Hcheck : check_rule_options (rule_options opts) = Ok entries)
    (Hmake : make_actions S parseMatch parseAction entries [] s
             = Ok (actions, s')) :
  opts = entries_options entries
  /\ Forall (fun entry => entry_match entry <> []) entries
  /\ length actions = length entries
  /\ Z.of_nat (length actions) <= MAX_ACTIONS.
Proof.
  pose proof (rule_options_fold opts [] []) as Hfold.
  unfold rule_options in Hcheck.
  destruct (fold_left rule_option opts ([], [])) as [pending collected].
  cbn [fst snd] in Hfold. unfold check_rule_options in Hcheck.
  destruct pending as [|p pending]; [|discriminate Hcheck].
  cbn [length Nat.eqb negb] in Hcheck.
  destruct (MAX_ACTIONS <? Z.of_nat (length collected)) eqn:Hmax;
    [discriminate Hcheck|].
  injection Hcheck as ->.
  destruct (make_actions_shape S parseMatch parseAction entries [] s
              actions s' Hmake) as [Hall Hlen].
  simpl in Hfold, Hlen. rewrite app_nil_r in Hfold.
  apply Z.ltb_ge in Hmax.
  repeat split; [symmetry; exact Hfold|exact Hall|exact Hlen|].
  rewrite Hlen. exact Hmax.
Qed.

Lemma accepted_rule_options_witness :
  ref_options = entries_options ref_entries
  /\ Forall (fun entry => entry_match entry <> []) ref_entries
  /\ length ref_assembled = length ref_entries
  /\ Z.of_nat (length ref_assembled) <= MAX_ACTIONS.
Proof.
  apply (accepted_rule_options unit ref_parseMatch ref_parseAction
           ref_options ref_entries ref_assembled tt tt); reflexivity.
Defined.

(** X17.  Several match options before one action option make one rule
    whose match is their conjunction: the expressions parsed from the
    options are evaluated in the order of the options, each on the record
    and the generator state the one before left, up to the first that
    fails. *)
Theorem match_options_are_conjoined
    {platform : Platform}
    (S : Type) (parseMatch : string -> S -> Outcome (MatchExpr * S))
    (strs : list string) (s s' : S) (m : MatchExpr)
    (Hparse : parse_matches S parseMatch strs ExprNull s = Ok (m, s')) :
  exists exprs,
    Forall2 (fun str e => exists s1 s2, parseMatch str s1 = Ok (e, s2))
      strs exprs
    /\ forall plugins I offset basename record st,
        matchEval plugins m I offset basename record st
        = match_all plugins exprs I offset basename record st.
Proof.
  apply (parse_matches_joins S parseMatch strs ExprNull s m s' [] Hparse).
  reflexivity.
Qed.

Lemma match_options_are_conjoined_witness :
  exists exprs,
    Forall2 (fun str e => exists s1 s2, ref_parseMatch str s1 = Ok (e, s2))
      ["call"; "true"] exprs
    /\ forall plugins I offset basename record st,
        matchEval (platform := ref_platform) plugins
          (ExprAnd
             (ExprTest (ref_test MATCH_CALL MATCH_CMP_NEQ_ZERO DataNull))
             (ExprTest (ref_test MATCH_TRUE MATCH_CMP_NEQ_ZERO DataNull)))
          I offset basename record st
        = match_all (platform := ref_platform) plugins exprs I offset
            basename record st.
Proof.
  apply (match_options_are_conjoined (platform := ref_platform) unit
           ref_parseMatch ["call"; "true"] tt tt _ eq_refl).
Defined.

(** ** The disassembly passes *)

Lemma offset_field (a t : Z) :
  0 <= a - t < 2 ^ 48 ->
  to_int64 (to_int64 a - t) mod 2 ^ 48 = a - t.
Proof.
  intros Hr.
  assert (H64 : forall z, exists q, to_int64 z = z + q * 2 ^ 64).
  { intros z. exists (- ((z + 2 ^ 63) / 2 ^ 64)). unfold to_int64.
    rewrite Z.mod_eq by lia. lia. }
  destruct (H64 a) as [q1 E1].
  destruct (H64 (to_int64 a - t)) as [q2 E2].
  rewrite E2, E1.
  replace (a + q1 * 2 ^ 64 - t + q2 * 2 ^ 64)
    with ((a - t) + ((q1 + q2) * 2 ^ 16) * 2 ^ 48) by lia.
  rewrite Z.mod_add by lia. apply Z.mod_small. exact Hr.
Qed.

Lemma to_int64_small (z : Z) :
  - 2 ^ 63 <= z < 2 ^ 63 -> to_int64 z = z.
Proof.
  intros Hr. unfold to_int64. rewrite Z.mod_small; lia.
Qed.

Lemma sublist_ascending (kept insns : list cs_insn) :
  sublist kept insns -> ascending_stream insns -> ascending_stream kept.
Proof.
  induction 1 as [|x k l Hsub IH|x k l Hsub IH]; intros Hasc.
  - intros a b Ia Ib _ Ha. rewrite lookup_nil in Ha. discriminate Ha.
  - intros [|a] [|b] Ia Ib Hab Ha Hb; simpl in Ha, Hb.
    + apply (Hasc 0%nat 0%nat); [lia|exact Ha|exact Hb].
    + assert (Hin : Ib ∈ l).
      { apply (elem_of_sublist k); [|exact Hsub].
        apply (list_elem_of_lookup_2 _ b). exact Hb. }
      apply list_elem_of_lookup_1 in Hin as [j Hj].
      apply (Hasc 0%nat (Datatypes.S j)); [lia|exact Ha|exact Hj].
    + lia.
    + apply (IH (fun a b Ia Ib Hab Ha Hb =>
                   Hasc (Datatypes.S a) (Datatypes.S b) Ia Ib
                     ltac:(lia) Ha Hb) a b);
        [lia|exact Ha|exact Hb].
  - apply IH. intros a b Ia Ib Hab Ha Hb.
    apply (Hasc (Datatypes.S a) (Datatypes.S b)); [lia|exact Ha|exact Hb].
Qed.

Section PassFacts.

Context {platform : Platform}.
Variable call_match : Z -> nat -> Z.
Variable redisassemble_insn : Z -> Z -> Z -> option cs_insn.
Variables (option_notify : bool) (option_sync : Z) (actions : list Action)
  (text_addr text_offset : Z).

Lemma match_loop_range (plugins : Plugins) (rules : list Action)
    (I : cs_insn) (offset : Z) :
  forall idx st r st',
    match_loop plugins rules I offset idx st = Ok (r, st') ->
    r = -1 \/ idx <= r < idx + Z.of_nat (length rules).
Proof.
  induction rules as [|rule rules IH]; intros idx st r st' H; simpl in H.
  - injection H as <- _. left. reflexivity.
  - destruct (matchAction plugins rule I offset st) as [[pass st1]| |];
      try discriminate H. cbn [obind] in H.
    destruct pass.
    + injection H as <- _. right. simpl. lia.
    + destruct (IH _ _ _ _ H) as [->|Hr]; [left; reflexivity|].
      right. simpl. lia.
Qed.

Lemma mkLocation_action (offset size idx : Z) (patch : bool) :
  Z.of_nat (length actions) <= MAX_ACTIONS ->
  (patch = true -> 0 <= idx) ->
  idx = -1 \/ 0 <= idx < 0 + Z.of_nat (length actions) ->
  action_in_range actions (mkLocation offset size patch idx).
Proof.
  intros Hmax Hp Hr Hpatch. cbn [mkLocation loc_patch loc_action] in *.
  specialize (Hp Hpatch). unfold MAX_ACTIONS in Hmax.
  rewrite Z.mod_small; lia.
Qed.

Lemma disasm_loop_actions :
  Z.of_nat (length actions) <= MAX_ACTIONS ->
  forall insns s s',
    disasm_loop call_match option_notify option_sync actions text_addr
      insns s = Ok s' ->
    Forall (action_in_range actions) (ps_locs s) ->
    Forall (action_in_range actions) (ps_locs s').
Proof.
  intros Hmax.
  induction insns as [|insn insns IH]; intros s s' H Hok; simpl in H.
  - injection H as <-. exact Hok.
  - destruct (0 <? ps_sync s); [exact (IH _ _ H Hok)|].
    destruct (is_skipdata insn); [exact (IH _ _ H Hok)|].
    destruct option_notify.
    + cbn [obind] in H. apply (IH _ _ H). cbn [ps_locs].
      apply Forall_app. split; [exact Hok|]. apply Forall_singleton.
      intros Hp. discriminate Hp.
    + destruct (match_ _ actions insn _ (ps_rand s)) as [[idx st']| |]
        eqn:Hm; try discriminate H.
      cbn [obind] in H. apply (IH _ _ H). cbn [ps_locs].
      apply Forall_app. split; [exact Hok|]. apply Forall_singleton.
      apply mkLocation_action; [exact Hmax|apply Z.leb_le|].
      exact (match_loop_range _ _ _ _ _ _ _ _ Hm).
Qed.

Lemma second_pass_actions :
  Z.of_nat (length actions) <= MAX_ACTIONS ->
  forall n i s s',
    second_pass_loop call_match redisassemble_insn actions text_addr
      text_offset n i s = Ok s' ->
    Forall (action_in_range actions) (ps_locs s) ->
    Forall (action_in_range actions) (ps_locs s').
Proof.
  intros Hmax.
  induction n as [|n IH]; intros i s s' H Hok; simpl in H.
  - injection H as <-. exact Hok.
  - destruct (ps_locs s !! i) as [loc|]; [|discriminate H].
    destruct (redisassemble_insn _ _ _) as [insn|]; [|discriminate H].
    destruct (match_ _ actions insn _ (ps_rand s)) as [[idx st']| |]
      eqn:Hm; try discriminate H.
    cbn [obind] in H. apply (IH _ _ _ H). cbn [ps_locs].
    destruct (0 <=? idx) eqn:Hidx; [|exact Hok].
    apply Forall_insert; [exact Hok|].
    apply mkLocation_action; [exact Hmax|intros _; apply Z.leb_le, Hidx|].
    exact (match_loop_range _ _ _ _ _ _ _ _ Hm).
Qed.

Lemma mkLocation_locates (insn : cs_insn) (patch : bool) (idx : Z) :
  in_text text_addr insn ->
  is_skipdata insn = false ->
  locates text_addr insn
    (mkLocation (to_int64 (to_int64 (insn_address insn) - text_addr))
       (insn_size insn) patch idx).
Proof.
  intros [Ha Hs] Hskip. unfold locates. cbn [mkLocation loc_offset loc_size].
  split; [exact Hskip|]. split.
  - apply offset_field. exact Ha.
  - apply Z.mod_small. exact Hs.
Qed.

Lemma disasm_loop_locates :
  forall insns s s',
    disasm_loop call_match option_notify option_sync actions text_addr
      insns s = Ok s' ->
    Forall (in_text text_addr) insns ->
    exists kept new,
      sublist kept insns
      /\ ps_locs s' = ps_locs s ++ new
      /\ Forall2 (locates text_addr) kept new.
Proof.
  induction insns as [|insn insns IH]; intros s s' H Hin; simpl in H.
  - injection H as <-. exists [], []. rewrite app_nil_r.
    split; [constructor|]. split; [reflexivity|exact (List.Forall2_nil _)].
  - apply Forall_cons in Hin as [Hinsn Hin].
    assert (Hskipped :
              forall s1, ps_locs s1 = ps_locs s ->
                disasm_loop call_match option_notify option_sync actions
                  text_addr insns s1 = Ok s' ->
                exists kept new,
                  sublist kept (insn :: insns)
                  /\ ps_locs s' = ps_locs s ++ new
                  /\ Forall2 (locates text_addr) kept new).
    { intros s1 Hs1 H1.
      destruct (IH _ _ H1 Hin) as (kept & new & Hsub & Hlocs & Hall).
      exists kept, new. rewrite <- Hs1.
      split; [apply sublist_cons; exact Hsub|]. split; assumption. }
    destruct (0 <? ps_sync s); [refine (Hskipped _ _ H); reflexivity|].
    destruct (is_skipdata insn) eqn:Hskip; [refine (Hskipped _ _ H); reflexivity|].
    assert (Hkept :
              forall s1 patch idx,
                ps_locs s1
                = ps_locs s
                  ++ [mkLocation
                        (to_int64 (to_int64 (insn_address insn) - text_addr))
                        (insn_size insn) patch idx] ->
                disasm_loop call_match option_notify option_sync actions
                  text_addr insns s1 = Ok s' ->
                exists kept new,
                  sublist kept (insn :: insns)
                  /\ ps_locs s' = ps_locs s ++ new
                  /\ Forall2 (locates text_addr) kept new).
    { intros s1 patch idx Hs1 H1.
      destruct (IH _ _ H1 Hin) as (kept & new & Hsub & Hlocs & Hall).
      exists (insn :: kept),
        (mkLocation (to_int64 (to_int64 (insn_address insn) - text_addr))
           (insn_size insn) patch idx :: new).
      split; [apply sublist_skip; exact Hsub|]. split.
      - rewrite Hlocs, Hs1, <- app_assoc. reflexivity.
      - apply List.Forall2_cons; [|exact Hall].
        apply mkLocation_locates; assumption. }
    destruct option_notify.
    + cbn [obind] in H. refine (Hkept _ _ _ _ H); reflexivity.
    + destruct (match_ _ actions insn _ (ps_rand s)) as [[idx st']| |];
        try discriminate H.
      cbn [obind] in H. refine (Hkept _ _ _ _ H); reflexivity.
Qed.

Lemma disasm_loop_failed :
  forall insns s s',
    disasm_loop call_match option_notify option_sync actions text_addr
      insns s = Ok s' ->
    ps_failed s = true -> ps_failed s' = true.
Proof.
  induction insns as [|insn insns IH]; intros s s' H Hf; simpl in H.
  - injection H as <-. exact Hf.
  - destruct (0 <? ps_sync s); [exact (IH _ _ H Hf)|].
    destruct (is_skipdata insn); [exact (IH _ _ H eq_refl)|].
    destruct option_notify.
    + cbn [obind] in H. exact (IH _ _ H Hf).
    + destruct (match_ _ actions insn _ (ps_rand s)) as [[idx st']| |];
        try discriminate H.
      cbn [obind] in H. exact (IH _ _ H Hf).
Qed.

Lemma disasm_loop_strict :
  forall insns s s',
    disasm_loop call_match option_notify option_sync actions text_addr
      insns s = Ok s' ->
    ps_sync s = 0 -> ps_failed s' = false ->
    Forall (in_text text_addr) insns ->
    exists new,
      ps_locs s' = ps_locs s ++ new
      /\ Forall2 (locates text_addr) insns new.
Proof.
  induction insns as [|insn insns IH]; intros s s' H Hsync Hf Hin;
    simpl in H.
  - injection H as <-. exists []. rewrite app_nil_r.
    split; [reflexivity|exact (List.Forall2_nil _)].
  - apply Forall_cons in Hin as [Hinsn Hin].
    rewrite Hsync in H. cbn [Z.ltb Z.compare] in H.
    destruct (is_skipdata insn) eqn:Hskip.
    { apply disasm_loop_failed in H; [congruence|reflexivity]. }
    assert (Hkept :
              forall s1 patch idx,
                ps_locs s1
                = ps_locs s
                  ++ [mkLocation
                        (to_int64 (to_int64 (insn_address insn) - text_addr))
                        (insn_size insn) patch idx] ->
                ps_sync s1 = 0 ->
                disasm_loop call_match option_notify option_sync actions
                  text_addr insns s1 = Ok s' ->
                exists new,
                  ps_locs s' = ps_locs s ++ new
                  /\ Forall2 (locates text_addr) (insn :: insns) new).
    { intros s1 patch idx Hs1 Hsync1 H1.
      destruct (IH _ _ H1 Hsync1 Hf Hin) as (new & Hlocs & Hall).
      exists (mkLocation
                (to_int64 (to_int64 (insn_address insn) - text_addr))
                (insn_size insn) patch idx :: new). split.
      - rewrite Hlocs, Hs1, <- app_assoc. reflexivity.
      - apply List.Forall2_cons; [|exact Hall].
        apply mkLocation_locates; assumption. }
    destruct option_notify.
    + cbn [obind] in H. refine (Hkept _ _ _ _ _ H); reflexivity.
    + destruct (match_ _ actions insn _ (ps_rand s)) as [[idx st']| |];
        try discriminate H.
      cbn [obind] in H. refine (Hkept _ _ _ _ _ H); reflexivity.
Qed.

Lemma second_pass_offsets :
  forall n i s s',
    second_pass_loop call_match redisassemble_insn actions text_addr
      text_offset n i s = Ok s' ->
    Forall (fun loc => 0 <= loc_offset loc < 2 ^ 48) (ps_locs s) ->
    loc_offset <$> ps_locs s' = loc_offset <$> ps_locs s.
Proof.
  induction n as [|n IH]; intros i s s' H Hr; simpl in H.
  - injection H as <-. reflexivity.
  - destruct (ps_locs s !! i) as [loc|] eqn:Hloc; [|discriminate H].
    destruct (redisassemble_insn _ _ _) as [insn|]; [|discriminate H].
    destruct (match_ _ actions insn _ (ps_rand s)) as [[idx st']| |];
      try discriminate H.
    cbn [obind] in H.
    pose proof (Forall_lookup_1 _ _ _ _ Hr Hloc) as Hrange.
    destruct (0 <=? idx).
    + rewrite (IH _ _ _ H); cbn [ps_locs].
      * rewrite list_fmap_insert. apply list_insert_id.
        rewrite list_lookup_fmap, Hloc. cbn [mkLocation loc_offset fmap
          option_fmap option_map]. rewrite Z.mod_small by exact Hrange.
        reflexivity.
      * apply Forall_insert; [exact Hr|].
        cbn [mkLocation loc_offset]. apply Z.mod_pos_bound. lia.
    + rewrite (IH _ _ _ H); [reflexivity|exact Hr].
Qed.

End PassFacts.

Lemma located_offsets (text_addr : Z) (insns kept : list cs_insn)
    (locs : list Location) :
  sublist kept insns ->
  Forall2 (locates text_addr) kept locs ->
  Forall (in_text text_addr) insns ->
  Forall (fun loc => 0 <= loc_offset loc < 2 ^ 48) locs.
Proof.
  intros Hsub Hall Hin. apply Forall_lookup. intros i loc Hloc.
  destruct (Forall2_lookup_r _ _ _ _ _ Hall Hloc) as (insn & Hinsn & Hl).
  destruct Hl as (_ & -> & _).
  assert (Hmem : insn ∈ insns).
  { apply (elem_of_sublist kept); [|exact Hsub].
    apply (list_elem_of_lookup_2 _ i). exact Hinsn. }
  pose proof (proj1 (Forall_forall _ _) Hin insn Hmem) as [Hr _].
  exact Hr.
Qed.

Lemma ascending_from_locates (text_addr : Z) (insns kept : list cs_insn)
    (locs1 locs : list Location) :
  sublist kept insns ->
  Forall2 (locates text_addr) kept locs1 ->
  loc_offset <$> locs = loc_offset <$> locs1 ->
  Forall (fun insn => - 2 ^ 63 <= insn_address insn < 2 ^ 63) insns ->
  ascending_stream insns ->
  ascending_addresses text_addr locs.
Proof.
  intros Hsub Hall Hoff Haddr Hasc.
  assert (Hat : forall i loc, locs !! i = Some loc ->
            exists insn, kept !! i = Some insn
                         /\ loc_addr text_addr loc = insn_address insn).
  { intros i loc Hloc.
    assert (H1 : (loc_offset <$> locs1) !! i = Some (loc_offset loc)).
    { rewrite <- Hoff, list_lookup_fmap, Hloc. reflexivity. }
    apply list_lookup_fmap_Some in H1 as (loc1 & Hsame & Hloc1).
    destruct (Forall2_lookup_r _ _ _ _ _ Hall Hloc1) as (insn & Hinsn & Hl).
    destruct Hl as (_ & Ho & _).
    exists insn. split; [exact Hinsn|].
    unfold loc_addr. rewrite Hsame, Ho.
    replace (text_addr + (insn_address insn - text_addr))
      with (insn_address insn) by lia.
    apply to_int64_small.
    assert (Hmem : insn ∈ insns).
    { apply (elem_of_sublist kept); [|exact Hsub].
      apply (list_elem_of_lookup_2 _ i). exact Hinsn. }
    exact (proj1 (Forall_forall _ _) Haddr insn Hmem). }
  intros a b la lb Hab Ha Hb.
  destruct (Hat a la Ha) as (Ia & HIa & ->).
  destruct (Hat b lb Hb) as (Ib & HIb & ->).
  exact (sublist_ascending kept insns Hsub Hasc a b Ia Ib Hab HIa HIb).
Qed.

Lemma first_pass_locates
    {platform : Platform} (call_match : Z -> nat -> Z)
    (option_notify : bool) (option_sync : Z) (actions : list Action)
    (text_addr : Z) (d : Disassembly) (plugins : Plugins)
    (st : RandState) (s : PassState) :
  first_pass call_match option_notify option_sync actions text_addr d
    plugins st = Ok s ->
  Forall (in_text text_addr) (dis_insns d) ->
  exists kept,
    sublist kept (dis_insns d)
    /\ Forall2 (locates text_addr) kept (ps_locs s).
Proof.
  intros Hrun Hin. unfold first_pass in Hrun.
  destruct (disasm_loop call_match option_notify option_sync actions
              text_addr (dis_insns d) _) as [s1| |] eqn:Hloop;
    try discriminate Hrun.
  cbn [obind] in Hrun.
  destruct (negb (dis_complete d)); [discriminate Hrun|].
  destruct (ps_failed s1 && (option_sync <? 0)); [discriminate Hrun|].
  injection Hrun as <-.
  destruct (disasm_loop_locates call_match option_notify option_sync actions
              text_addr _ _ _ Hloop Hin) as (kept & new & Hsub & Hlocs & Hall).
  exists kept. split; [exact Hsub|]. rewrite Hlocs. exact Hall.
Qed.

(** X18.  With at most [MAX_ACTIONS] rules, every location the two passes
    mark for patching carries the index of a rule: the lookup of its action
    in the reverse walk finds one. *)
Theorem patched_locations_name_a_rule
    {platform : Platform} (call_match : Z -> nat -> Z)
    (redisassemble_insn : Z -> Z -> Z -> option cs_insn)
    (option_notify : bool) (option_sync : Z) (actions : list Action)
    (text_addr text_offset : Z) (d : Disassembly) (plugins : Plugins)
    (st : RandState) (s : PassState) (i : nat) (loc : Location)
    (Hmax : Z.of_nat (length actions) <= MAX_ACTIONS)
    (Hrun : disassemble call_match redisassemble_insn option_notify
              option_sync actions text_addr text_offset d plugins st
            = Ok s)
    (Hloc : ps_locs s !! i = Some loc)
    (Hpatch : loc_patch loc = true) :
  is_Some (actions !! Z.to_nat (loc_action loc)).
Proof.
  assert (Hall : Forall (action_in_range actions) (ps_locs s)).
  { unfold disassemble, first_pass in Hrun.
    destruct (disasm_loop call_match option_notify option_sync actions
                text_addr (dis_insns d) _) as [s1| |] eqn:Hloop;
      try discriminate Hrun.
    cbn [obind] in Hrun.
    apply (disasm_loop_actions call_match option_notify option_sync actions
             text_addr Hmax) in Hloop; [|exact (List.Forall_nil _)].
    destruct (negb (dis_complete d)); [discriminate Hrun|].
    destruct (ps_failed s1 && (option_sync <? 0)); [discriminate Hrun|].
    cbn [obind] in Hrun.
    destruct option_notify.
    - exact (second_pass_actions call_match redisassemble_insn actions
               text_addr text_offset Hmax _ _ _ _ Hrun Hloop).
    - injection Hrun as <-. exact Hloop. }
  pose proof (Forall_lookup_1 _ _ _ _ Hall Hloc Hpatch) as Hr.
  apply lookup_lt_is_Some_2. lia.
Qed.

Lemma patched_locations_name_a_rule_witness :
  is_Some (ref_rules !! Z.to_nat (loc_action (mkLocation 16 5 true 0))).
Proof.
  apply (patched_locations_name_a_rule (platform := ref_platform)
           ref_call_match ref_redisassemble_insn false (-1) ref_rules
           ref_text_addr ref_text_offset ref_stream ∅ 0%nat ref_pass_state
           0%nat (mkLocation 16 5 true 0)).
  - unfold MAX_ACTIONS. simpl. lia.
  - reflexivity.
  - reflexivity.
  - reflexivity.
Defined.

(** X19.  The locations of the first pass stand for instructions of the
    text section, in the order the disassembler gave them: each location
    holds the offset from the start of the section and the size of its
    instruction, exactly, and none stands for skipped data. *)
Theorem locations_are_instructions
    {platform : Platform} (call_match : Z -> nat -> Z)
    (option_notify : bool) (option_sync : Z) (actions : list Action)
    (text_addr : Z) (d : Disassembly) (plugins : Plugins)
    (st : RandState) (s : PassState)
    (Hrun : first_pass call_match option_notify option_sync actions
              text_addr d plugins st = Ok s)
    (Hin : Forall (in_text text_addr) (dis_insns d)) :
  exists kept,
    sublist kept (dis_insns d)
    /\ Forall2 (locates text_addr) kept (ps_locs s).
Proof.
  exact (first_pass_locates call_match option_notify option_sync actions
           text_addr d plugins st s Hrun Hin).
Qed.

Lemma locations_are_instructions_witness :
  exists kept,
    sublist kept (dis_insns ref_stream)
    /\ Forall2 (locates ref_text_addr) kept (ps_locs ref_pass_state).
Proof.
  apply (locations_are_instructions (platform := ref_platform)
           ref_call_match false (-1) ref_rules ref_text_addr ref_stream ∅
           0%nat ref_pass_state).
  - reflexivity.
  - repeat apply List.Forall_cons; try apply List.Forall_nil;
      unfold in_text; repeat split; vm_compute;
      first [reflexivity | discriminate].
Defined.

(** X20.  Without the sync option a first pass that ends normally has
    disassembled the whole section and kept every instruction: there is one
    location per instruction, in order, and no instruction was skipped
    data. *)
Theorem default_pass_keeps_every_instruction
    {platform : Platform} (call_match : Z -> nat -> Z)
    (option_notify : bool) (option_sync : Z) (actions : list Action)
    (text_addr : Z) (d : Disassembly) (plugins : Plugins)
    (st : RandState) (s : PassState)
    (Hsync : option_sync < 0)
    (Hrun : first_pass call_match option_notify option_sync actions
              text_addr d plugins st = Ok s)
    (Hin : Forall (in_text text_addr) (dis_insns d)) :
  dis_complete d = true
  /\ Forall2 (locates text_addr) (dis_insns d) (ps_locs s).
Proof.
  unfold first_pass in Hrun.
  destruct (disasm_loop call_match option_notify option_sync actions
              text_addr (dis_insns d) _) as [s1| |] eqn:Hloop;
    try discriminate Hrun.
  cbn [obind] in Hrun.
  destruct (dis_complete d); [|discriminate Hrun]. cbn [negb] in Hrun.
  apply Z.ltb_lt in Hsync. rewrite Hsync, andb_true_r in Hrun.
  destruct (ps_failed s1) eqn:Hf; [discriminate Hrun|].
  injection Hrun as <-. split; [reflexivity|].
  destruct (disasm_loop_strict call_match option_notify option_sync actions
              text_addr _ _ _ Hloop eq_refl Hf Hin) as (new & Hlocs & Hall).
  rewrite Hlocs. exact Hall.
Qed.

Lemma default_pass_keeps_every_instruction_witness :
  dis_complete ref_stream = true
  /\ Forall2 (locates ref_text_addr) (dis_insns ref_stream)
       (ps_locs ref_pass_state).
Proof.
  apply (default_pass_keeps_every_instruction (platform := ref_platform)
           ref_call_match false (-1) ref_rules ref_text_addr ref_stream ∅
           0%nat ref_pass_state).
  - lia.
  - reflexivity.
  - repeat apply List.Forall_cons; try apply List.Forall_nil;
      unfold in_text; repeat split; vm_compute;
      first [reflexivity | discriminate].
Defined.

(** X21.  When the disassembler yields the instructions of the section in
    the order of their addresses, the locations the two passes hand to the
    reverse walk are in the order of their addresses. *)
Theorem passes_give_ascending_addresses
    {platform : Platform} (call_match : Z -> nat -> Z)
    (redisassemble_insn : Z -> Z -> Z -> option cs_insn)
    (option_notify : bool) (option_sync : Z) (actions : list Action)
    (text_addr text_offset : Z) (d : Disassembly) (plugins : Plugins)
    (st : RandState) (s : PassState)
    (Hrun : disassemble call_match redisassemble_insn option_notify
              option_sync actions text_addr text_offset d plugins st
            = Ok s)
    (Hin : Forall (in_text text_addr) (dis_insns d))
    (Haddr : Forall (fun insn => - 2 ^ 63 <= insn_address insn < 2 ^ 63)
               (dis_insns d))
    (Hasc : ascending_stream (dis_insns d)) :
  ascending_addresses text_addr (ps_locs s).
Proof.
  unfold disassemble in Hrun.
  destruct (first_pass call_match option_notify option_sync actions
              text_addr d plugins st) as [s1| |] eqn:Hfirst;
    try discriminate Hrun.
  cbn [obind] in Hrun.
  destruct (first_pass_locates call_match option_notify
              option_sync actions text_addr d plugins st s1 Hfirst Hin)
    as (kept & Hsub & Hall).
  apply (ascending_from_locates text_addr (dis_insns d) kept (ps_locs s1));
    try assumption.
  destruct option_notify.
  - apply (second_pass_offsets call_match redisassemble_insn actions
             text_addr text_offset _ _ _ _ Hrun).
    exact (located_offsets text_addr _ _ _ Hsub Hall Hin).
  - injection Hrun as <-. reflexivity.
Qed.

Lemma passes_give_ascending_addresses_witness :
  ascending_addresses ref_text_addr (ps_locs ref_pass_state).
Proof.
  apply (passes_give_ascending_addresses (platform := ref_platform)
           ref_call_match ref_redisassemble_insn false (-1) ref_rules
           ref_text_addr ref_text_offset ref_stream ∅ 0%nat ref_pass_state).
  - reflexivity.
  - repeat apply List.Forall_cons; try apply List.Forall_nil;
      unfold in_text; repeat split; vm_compute;
      first [reflexivity | discriminate].
  - repeat apply List.Forall_cons; try apply List.Forall_nil;
      repeat split; vm_compute; first [reflexivity | discriminate].
  - intros [|[|a]] [|[|b]] Ia Ib Hab Ha Hb; simpl in Ha, Hb;
      try discriminate; try lia;
      injection Ha as <-; injection Hb as <-; simpl; lia.
Defined.

Lemma disasm_loop_skip
    {platform : Platform} (call_match : Z -> nat -> Z)
    (option_notify : bool) (option_sync : Z) (actions : list Action)
    (text_addr : Z) (rest : list cs_insn) :
  forall skipped s,
    ps_sync s = Z.of_nat (length skipped) ->
    disasm_loop call_match option_notify option_sync actions text_addr
      (skipped ++ rest) s
    = disasm_loop call_match option_notify option_sync actions text_addr
        rest
        {| ps_locs := ps_locs s; ps_failed := ps_failed s; ps_sync := 0;
           ps_plugins := ps_plugins s; ps_rand := ps_rand s |}.
Proof.
  induction skipped as [|insn skipped IH]; intros s Hs.
  - destruct s as [locs failed sync plugins st]. simpl in Hs. subst sync.
    reflexivity.
  - cbn [length] in Hs. cbn [app disasm_loop].
    assert (Hpos : (0 <? ps_sync s) = true) by (apply Z.ltb_lt; lia).
    rewrite Hpos. rewrite IH; [reflexivity|]. cbn [ps_sync]. lia.
Qed.

(** X22.  With the sync option set to [n], an instruction the disassembler
    could not decode is dropped together with the [n] instructions that
    follow it, whatever they are; the pass goes on with the instruction
    after those and remembers the failure. *)
Theorem sync_skips_the_next_instructions
    {platform : Platform} (call_match : Z -> nat -> Z)
    (option_notify : bool) (option_sync : Z) (actions : list Action)
    (text_addr : Z) (bad : cs_insn) (skipped rest : list cs_insn)
    (s : PassState)
    (Hrange : 0 <= option_sync < 2 ^ 32)
    (Hbad : is_skipdata bad = true)
    (Hsync : ps_sync s = 0)
    (Hlen : Z.of_nat (length skipped) = option_sync) :
  disasm_loop call_match option_notify option_sync actions text_addr
    (bad :: skipped ++ rest) s
  = disasm_loop call_match option_notify option_sync actions text_addr
      rest
      {| ps_locs := ps_locs s; ps_failed := true; ps_sync := 0;
         ps_plugins := ps_plugins s; ps_rand := ps_rand s |}.
Proof.
  cbn [disasm_loop]. rewrite Hsync, Hbad. cbn [Z.ltb Z.compare].
  rewrite disasm_loop_skip; [reflexivity|].
  cbn [ps_sync]. rewrite Z.mod_small by exact Hrange. lia.
Qed.

Lemma sync_skips_the_next_instructions_witness :
  disasm_loop (platform := ref_platform) ref_call_match false 1 ref_rules
    ref_text_addr (ref_data :: [ref_call] ++ [ref_mov])
    {| ps_locs := []; ps_failed := false; ps_sync := 0; ps_plugins := ∅;
       ps_rand := 0%nat |}
  = disasm_loop (platform := ref_platform) ref_call_match false 1 ref_rules
      ref_text_addr [ref_mov]
      {| ps_locs := []; ps_failed := true; ps_sync := 0; ps_plugins := ∅;
         ps_rand := 0%nat |}.
Proof.
  apply (sync_skips_the_next_instructions (platform := ref_platform)
           ref_call_match false 1 ref_rules ref_text_addr ref_data
           [ref_call] [ref_mov]
           {| ps_locs := []; ps_failed := false; ps_sync := 0;
              ps_plugins := ∅; ps_rand := 0%nat |}).
  - lia.
  - reflexivity.
  - reflexivity.
  - reflexivity.
Defined.
